(** * medical-telegram-warehouse: the ingestion and enrichment pipeline

    A shallow embedding of [src/scraper.py], [src/load_raw_to_postgres.py]
    and [src/yolo_detect.py], and the properties of the pipeline proved
    over it.

    Conventions.
    - A Python [str] is the list of its Unicode code points ([pystr]); a
      text file holds one, written and read back as UTF-8.
    - An [int] is a [Z], a [float] a binary64 float.
    - A function that can raise returns [res]: [Ok v] or [Raise e].
    - What the interpreter, the file system or a third-party library
      decides and the repository does not (the Unicode tables above
      U+007F, the outcome of a download, the clock, where a directory
      lists a new file, what pandas makes of a payload that is not a
      list of records) enters as a parameter or as a field of the
      environment the function runs in. *)

From Stdlib Require Import ZArith NArith List Ascii String Bool Lia Floats.
From stdpp Require Import base option list gmap.
Import ListNotations.

Set Default Proof Using "Type".

(** ** Python strings *)

Module PyStr.

Definition char := N.
Definition pystr := list char.

(** A literal of the source text, as code points (ASCII literals only). *)
Fixpoint str (s : string) : pystr :=
match s with
| EmptyString => []
| String a s' => N_of_ascii a :: str s'
end.

Definition pystr_eqb (a b : pystr) : bool := bool_decide (a = b).

(** The interpreter's Unicode database for the code points above U+007F:
    [str.isalnum], [str.lower], [str.isspace] and the decimal digit value
    of one character.  On U+0000..U+007F the four are fixed below. *)
Class UnicodeDB := {
  uni_isalnum : char -> bool;
  uni_lower : char -> pystr;
  uni_isspace : char -> bool;
  uni_decimal : char -> option Z;
}.

Definition is_ascii (c : char) : bool := (c <? 128)%N.
Definition ascii_isdigit (c : char) : bool := (48 <=? c)%N && (c <=? 57)%N.
Definition ascii_isupper (c : char) : bool := (65 <=? c)%N && (c <=? 90)%N.
Definition ascii_islower (c : char) : bool := (97 <=? c)%N && (c <=? 122)%N.
Definition ascii_isalnum (c : char) : bool :=
  ascii_isdigit c || ascii_isupper c || ascii_islower c.
Definition ascii_lower (c : char) : char :=
  if ascii_isupper c then (c + 32)%N else c.
(** space, \t, \n, \v, \f, \r and the separators U+001C..U+001F *)
Definition ascii_isspace (c : char) : bool :=
  (c =? 32)%N || ((9 <=? c)%N && (c <=? 13)%N) || ((28 <=? c)%N && (c <=? 31)%N).

Section Unicode.
Context `{UnicodeDB}.

(** [c.isalnum()] for a one-character string *)
Definition isalnum (c : char) : bool :=
  if is_ascii c then ascii_isalnum c else uni_isalnum c.

(** [c.lower()] for a one-character string; the result can have several
    characters *)
Definition lower (c : char) : pystr :=
  if is_ascii c then [ascii_lower c] else uni_lower c.

Definition isspace (c : char) : bool :=
  if is_ascii c then ascii_isspace c else uni_isspace c.

Definition decimal (c : char) : option Z :=
  if is_ascii c then
    (if ascii_isdigit c then Some (Z.of_N c - 48)%Z else None)
  else uni_decimal c.

End Unicode.

(** [s.strip()]: without the leading and the trailing characters that
    satisfy [p] *)
Fixpoint lstrip_by (p : char -> bool) (s : pystr) : pystr :=
match s with
| [] => []
| c :: s' => if p c then lstrip_by p s' else s
end.

Definition strip_by (p : char -> bool) (s : pystr) : pystr :=
  rev (lstrip_by p (rev (lstrip_by p s))).

(** [s.split(ch)] *)
Fixpoint split_on (ch : char) (s : pystr) : list pystr :=
match s with
| [] => [[]]
| c :: s' =>
    if (c =? ch)%N then [] :: split_on ch s'
    else match split_on ch s' with
         | x :: xs => (c :: x) :: xs
         | [] => [[c]]
         end
end.

(** [int(s)] for a [str] in base 10: surrounding whitespace, an optional
    sign, then decimal digits, single underscores allowed between two
    digits.  (An [int] is unbounded; the cap that recent interpreters
    put on the number of digits converted is left out.) *)
Section Int.
Context `{UnicodeDB}.

(** The whitespace that [int] skips: below U+0080 the space and
    U+0009..U+000D only, above it whatever [str.isspace] accepts. *)
Definition int_space (c : char) : bool :=
  if is_ascii c then (c =? 32)%N || ((9 <=? c)%N && (c <=? 13)%N)
  else uni_isspace c.

Fixpoint digits_value (acc : Z) (after_underscore : bool) (s : pystr) : option Z :=
match s with
| [] => if after_underscore then None else Some acc
| c :: s' =>
    if (c =? 95)%N then
      (if after_underscore then None else digits_value acc true s')
    else
      match decimal c with
      | Some d => digits_value (10 * acc + d)%Z false s'
      | None => None
      end
end.

Definition py_int (s : pystr) : option Z :=
  let body := strip_by int_space s in
  let '(negative, ds) :=
    match body with
    | c :: ds =>
        if (c =? 45)%N then (true, ds)
        else if (c =? 43)%N then (false, ds)
        else (false, body)
    | [] => (false, body)
    end in
  match digits_value 0 true ds with
  | Some n => Some (if negative : bool then (- n)%Z else n)
  | None => None
  end.

End Int.

(** [s.lstrip(ch)], [s.rstrip(ch)] and [s.strip(ch)] for a one-character
    argument *)
Fixpoint lstrip (ch : char) (s : pystr) : pystr :=
match s with
| [] => []
| c :: s' => if (c =? ch)%N then lstrip ch s' else s
end.

Definition rstrip (ch : char) (s : pystr) : pystr := rev (lstrip ch (rev s)).

Definition strip (ch : char) (s : pystr) : pystr := rstrip ch (lstrip ch s).

(** A fragment of the Unicode database, exact on the two code points
    above U+007F that the examples below use: U+0130 (LATIN CAPITAL
    LETTER I WITH DOT ABOVE, a letter whose lower case is the two
    characters U+0069 U+0307) and U+0307 (COMBINING DOT ABOVE, a mark,
    not alphanumeric).  Elsewhere above U+007F it answers "not
    alphanumeric, no case, no space, no digit", which is not the
    interpreter's answer; no example uses such a character, and the
    theorems hold for every database. *)
Definition dotted_I_fragment : UnicodeDB := {|
  uni_isalnum c := (c =? 0x130)%N;
  uni_lower c := if (c =? 0x130)%N then [0x69; 0x307]%N else [c];
  uni_isspace c := false;
  uni_decimal c := None;
|}.

End PyStr.
Export PyStr.

(** ** Exceptions *)

Module Py.

Inductive exn : Type :=
| ValueError
| KeyError
| TypeError
| JSONDecodeError
| ConnectionError    (* the network: message history, media download *)
| InferenceError     (* the detection model *)
| UnicodeEncodeError (* a lone surrogate in text written as UTF-8 *)
| ProgrammingError.  (* the driver cannot bind a parameter of the insert *)

Inductive res (A : Type) : Type :=
| Ok (a : A)
| Raise (e : exn).
Arguments Ok {A} a.
Arguments Raise {A} e.

#[export] Instance res_ret : MRet res := fun A a => Ok a.
#[export] Instance res_bind : MBind res := fun A B f m =>
  match m with
  | Ok a => f a
  | Raise e => Raise e
  end.

Definition is_ok {A} (r : res A) : bool :=
  match r with Ok _ => true | Raise _ => false end.

End Py.
Export Py.

(** ** Paths *)

Module PyPath.

(** A [pathlib.Path], as the list of its components. *)
Definition Path := list pystr.

(** [p / name], for a name without separator (an empty name changes
    nothing) *)
Definition div (p : Path) (name : pystr) : Path :=
  match name with
  | [] => p
  | _ => p ++ [name]
  end.

(** [p.name] *)
Definition name (p : Path) : pystr := default [] (last p).

(** [p.parent] *)
Definition parent (p : Path) : Path := removelast p.

(** [sep.join(parts)] *)
Fixpoint join (sep : pystr) (parts : list pystr) : pystr :=
match parts with
| [] => []
| [x] => x
| x :: rest => x ++ sep ++ join sep rest
end.

(** [str(p)] *)
Definition path_str (p : Path) : pystr := join (str "/") p.

(** [s.rfind(ch)]: the index of the last [ch] in [s] *)
Fixpoint rfind (ch : char) (s : pystr) : option nat :=
match s with
| [] => None
| c :: s' =>
    match rfind ch s' with
    | Some i => Some (S i)
    | None => if (c =? ch)%N then Some 0 else None
    end
end.

(** [p.stem]: the name without its last suffix; a dot that starts or
    ends the name starts no suffix. *)
Definition stem (p : Path) : pystr :=
  let nm := name p in
  match rfind 46%N nm with
  | Some i => if (0 <? i) && (i <? length nm - 1) then take i nm else nm
  | None => nm
  end.

(** [name.endswith(suffix)] *)
Definition endswith (suffix nm : pystr) : bool :=
  pystr_eqb (drop (length nm - length suffix) nm) suffix
  && (length suffix <=? length nm).

(** [base] is an ancestor of [p], or [p] itself. *)
Fixpoint is_under (base p : Path) : bool :=
match base, p with
| [], _ => true
| b :: base', c :: p' => pystr_eqb b c && is_under base' p'
| _ :: _, [] => false
end.

End PyPath.
Export PyPath.

(** ** Partition Key Resolver: [slugify] *)

Module Slug.

Definition sep : char := 95%N.   (* "_" *)

Section Slugify.
Context `{UnicodeDB}.

(** The generator expression of [slugify], joined:
    [char.lower() if char.isalnum() else "_"] for each [char]. *)
Definition slug_chars (value : pystr) : pystr :=
  concat (map (fun char => if isalnum char then lower char else str "_") value).

(** scraper.py, [slugify] *)
Definition slugify (value : pystr) : pystr := strip sep (slug_chars value).

(** The slug as the specification words it: lower-cased, every maximal
    run of non-alphanumeric characters collapsed to a single separator,
    leading and trailing separators trimmed. *)
Fixpoint collapse_runs (in_run : bool) (value : pystr) : pystr :=
match value with
| [] => []
| c :: rest =>
    if isalnum c then lower c ++ collapse_runs false rest
    else if in_run then collapse_runs true rest
    else sep :: collapse_runs true rest
end.

Definition slug_collapsed (value : pystr) : pystr :=
  strip sep (collapse_runs false value).

(** No two non-alphanumeric characters of [value] are adjacent
    ([after_one] tells that the character before [value] is one). *)
Fixpoint no_runs (after_one : bool) (value : pystr) : bool :=
match value with
| [] => true
| c :: rest =>
    if isalnum c then no_runs false rest
    else negb after_one && no_runs true rest
end.

(** Every alphanumeric character of [s] lower-cases to alphanumeric
    characters that are their own lower case. *)
Definition lower_is_stable (c : char) : bool :=
  forallb (fun d => isalnum d && pystr_eqb (lower d) [d]) (lower c).

Definition stable_lowering (s : pystr) : bool :=
  forallb (fun c => implb (isalnum c) (lower_is_stable c)) s.

End Slugify.

(** *** [strip] *)

Lemma lstrip_spec ch s :
  exists l, s = repeat ch l ++ lstrip ch s /\ head (lstrip ch s) <> Some ch.
Proof.
  induction s as [|c s IH]; simpl.
  - exists 0. split; [reflexivity | discriminate].
  - destruct (N.eqb_spec c ch) as [->|Hne].
    + destruct IH as (l & Hl & Hh). exists (S l). simpl. split; [congruence | exact Hh].
    + exists 0. simpl. split; [reflexivity | congruence].
Qed.

Lemma lstrip_id ch s : head s <> Some ch -> lstrip ch s = s.
Proof.
  destruct s as [|c s]; simpl; [reflexivity|].
  intros Hh. destruct (N.eqb_spec c ch) as [->|_]; [congruence | reflexivity].
Qed.

Lemma head_rev {A} (l : list A) : head (rev l) = last l.
Proof.
  induction l as [|a l IH] using rev_ind; [reflexivity|].
  rewrite rev_app_distr, last_snoc. reflexivity.
Qed.

Lemma rstrip_spec ch s :
  exists r, s = rstrip ch s ++ repeat ch r /\ last (rstrip ch s) <> Some ch.
Proof.
  unfold rstrip. destruct (lstrip_spec ch (rev s)) as (r & Hr & Hh).
  exists r. split.
  - rewrite <- (rev_involutive s), Hr at 1.
    rewrite rev_app_distr. f_equal.
    clear. induction r as [|r IH]; simpl; [reflexivity|].
    rewrite IH. symmetry. apply repeat_cons.
  - rewrite <- head_rev, rev_involutive. exact Hh.
Qed.

Lemma rstrip_id ch s : last s <> Some ch -> rstrip ch s = s.
Proof.
  intros Hl. unfold rstrip. rewrite lstrip_id, rev_involutive; [reflexivity|].
  rewrite head_rev. exact Hl.
Qed.

Lemma head_app_ne {A} (a b : list A) x :
  head (a ++ b) <> Some x -> head a <> Some x.
Proof. destruct a; simpl; [discriminate | trivial]. Qed.

Lemma strip_spec ch s :
  exists l r, s = repeat ch l ++ strip ch s ++ repeat ch r
    /\ head (strip ch s) <> Some ch /\ last (strip ch s) <> Some ch.
Proof.
  unfold strip.
  destruct (lstrip_spec ch s) as (l & Hl & Hh).
  destruct (rstrip_spec ch (lstrip ch s)) as (r & Hr & Hlast).
  exists l, r. split; [|split].
  - rewrite <- Hr. exact Hl.
  - rewrite Hr in Hh. eapply head_app_ne, Hh.
  - exact Hlast.
Qed.

Lemma strip_id ch s :
  head s <> Some ch -> last s <> Some ch -> strip ch s = s.
Proof.
  intros Hh Hl. unfold strip. rewrite lstrip_id by exact Hh. apply rstrip_id, Hl.
Qed.

Lemma strip_Forall (P : char -> Prop) ch s :
  Forall P s -> Forall P (strip ch s).
Proof.
  intros HP. destruct (strip_spec ch s) as (l & r & Hs & _).
  rewrite Hs in HP.
  apply Forall_app in HP as [_ HP]. apply Forall_app in HP as [HP _]. exact HP.
Qed.

(** *** The slug, character by character *)

Section SlugFacts.
Context `{UnicodeDB}.

Lemma slug_chars_one (c : char) :
  slug_chars [c] = if isalnum c then lower c else [sep].
Proof. unfold slug_chars. simpl. rewrite app_nil_r. reflexivity. Qed.

Lemma slug_chars_app (a b : pystr) :
  slug_chars (a ++ b) = slug_chars a ++ slug_chars b.
Proof. unfold slug_chars. rewrite map_app, concat_app. reflexivity. Qed.

Lemma isalnum_sep : isalnum sep = false.
Proof. reflexivity. Qed.

(** A character that [slugify] leaves alone: the separator, or an
    alphanumeric character that is its own lower case. *)
Definition settled (e : char) : Prop :=
  e = sep \/ (isalnum e = true /\ lower e = [e]).

Lemma slug_chars_settled (t : pystr) : Forall settled t -> slug_chars t = t.
Proof.
  induction 1 as [|e t He _ IH]; [reflexivity|].
  change (e :: t) with ([e] ++ t) at 1.
  rewrite slug_chars_app, slug_chars_one, IH.
  destruct He as [->|[Ha Hl]].
  - rewrite isalnum_sep. reflexivity.
  - rewrite Ha, Hl. reflexivity.
Qed.

Lemma lower_is_stable_settled (c : char) :
  lower_is_stable c = true -> Forall settled (lower c).
Proof.
  unfold lower_is_stable. rewrite forallb_forall, Forall_forall.
  intros Hall d Hd. apply list_elem_of_In in Hd. specialize (Hall d Hd).
  apply andb_true_iff in Hall as [Ha Hl]. right. split; [exact Ha|].
  unfold pystr_eqb in Hl. apply bool_decide_eq_true in Hl. exact Hl.
Qed.

Lemma slug_chars_stable (s : pystr) :
  stable_lowering s = true -> Forall settled (slug_chars s).
Proof.
  induction s as [|c s IH]; [constructor|].
  unfold stable_lowering. simpl. intros Hs.
  apply andb_true_iff in Hs as [Hc Hs].
  change (c :: s) with ([c] ++ s).
  rewrite slug_chars_app, slug_chars_one. apply Forall_app. split.
  - destruct (isalnum c) eqn:Ha.
    + apply lower_is_stable_settled. exact Hc.
    + repeat constructor.
  - apply IH. exact Hs.
Qed.

Lemma collapse_runs_no_runs (after_one : bool) (value : pystr) :
  no_runs after_one value = true -> collapse_runs after_one value = slug_chars value.
Proof.
  revert after_one. induction value as [|c rest IH]; intros after_one; [reflexivity|].
  change (c :: rest) with ([c] ++ rest) at 3.
  rewrite slug_chars_app, slug_chars_one. cbn [no_runs collapse_runs].
  destruct (isalnum c).
  - intros Hrest. rewrite (IH false Hrest). reflexivity.
  - destruct after_one; [discriminate|]. cbn [negb andb].
    intros Hrest. rewrite (IH true Hrest). reflexivity.
Qed.

(** C2 (amended): [slugify] lower-cases each alphanumeric character and
    replaces each non-alphanumeric character by one separator of its own
    (a run of k such characters gives k separators, nothing is
    collapsed), then removes the leading and the trailing separators:
    the per-character text is the slug between two runs of separators,
    and the slug neither starts nor ends with one.  It is the slug with
    runs collapsed when no two non-alphanumeric characters are
    adjacent. *)
Theorem slugify_per_character (value : pystr) :
  (forall c, slug_chars [c] = if isalnum c then lower c else [sep]) /\
  (forall a b, slug_chars (a ++ b) = slug_chars a ++ slug_chars b) /\
  (exists l r,
     slug_chars value = repeat sep l ++ slugify value ++ repeat sep r /\
     head (slugify value) <> Some sep /\ last (slugify value) <> Some sep) /\
  (no_runs false value = true -> slugify value = slug_collapsed value).
Proof.
  split; [exact slug_chars_one|]. split; [exact slug_chars_app|]. split.
  - unfold slugify. apply strip_spec.
  - intros Hno. unfold slugify, slug_collapsed.
    rewrite (collapse_runs_no_runs false value Hno). reflexivity.
Qed.

Lemma slugify_settles (s : pystr) :
  stable_lowering s = true -> slugify (slugify s) = slugify s.
Proof.
  intros Hs. unfold slugify at 1.
  rewrite slug_chars_settled.
  - unfold slugify. destruct (strip_spec sep (slug_chars s)) as (_ & _ & _ & Hh & Hl).
    apply strip_id; assumption.
  - unfold slugify. apply strip_Forall, slug_chars_stable, Hs.
Qed.

End SlugFacts.

(** Every ASCII string has a stable lowering, whatever the tables say
    above U+007F. *)
Lemma ascii_lower_settled (c : char) :
  ascii_isalnum c = true ->
  ascii_isalnum (ascii_lower c) = true /\ ascii_lower (ascii_lower c) = ascii_lower c
  /\ (ascii_lower c < 128)%N.
Proof.
  unfold ascii_lower, ascii_isalnum, ascii_isdigit, ascii_islower.
  destruct (ascii_isupper c) eqn:Hu; unfold ascii_isupper in *.
  - intros _. apply andb_true_iff in Hu as [H1 H2].
    apply N.leb_le in H1, H2.
    assert (E1 : (97 <=? c + 32)%N = true) by (apply N.leb_le; lia).
    assert (E2 : (c + 32 <=? 122)%N = true) by (apply N.leb_le; lia).
    assert (E3 : (c + 32 <=? 90)%N = false) by (apply N.leb_gt; lia).
    rewrite E1, E2, E3, andb_false_r. simpl. rewrite orb_true_r. split; [reflexivity|].
    split; [reflexivity | lia].
  - rewrite Hu. intros Ha. split; [exact Ha|]. split; [reflexivity|].
    rewrite orb_false_r in Ha. apply orb_true_iff in Ha as [Ha|Ha];
      apply andb_true_iff in Ha as [_ Ha]; apply N.leb_le in Ha; lia.
Qed.

Lemma ascii_stable_lowering `{UnicodeDB} (s : pystr) :
  forallb is_ascii s = true -> stable_lowering s = true.
Proof.
  unfold stable_lowering. rewrite !forallb_forall. intros Hs c Hc.
  specialize (Hs c Hc). unfold isalnum, lower_is_stable, lower. rewrite Hs.
  destruct (ascii_isalnum c) eqn:Ha; [|reflexivity]. simpl.
  rewrite andb_true_r.
  destruct (ascii_lower_settled c Ha) as (Ha' & Hl' & Hlt).
  unfold isalnum, lower, is_ascii.
  apply N.ltb_lt in Hlt. rewrite Hlt, Ha', Hl'. simpl.
  unfold pystr_eqb. apply bool_decide_eq_true. reflexivity.
Qed.

(** C9 (amended): on a string whose alphanumeric characters lower-case to
    alphanumeric characters that are their own lower case, and so on
    every ASCII string, a second [slugify] changes nothing. *)
Theorem slugify_idempotent_stable `{UnicodeDB} (s : pystr) :
  (stable_lowering s = true -> slugify (slugify s) = slugify s) /\
  (forallb is_ascii s = true -> slugify (slugify s) = slugify s).
Proof.
  split; [apply slugify_settles|].
  intros Hs. apply slugify_settles, ascii_stable_lowering, Hs.
Qed.

(** C2, as stated, fails: two spaces inside a name give two separators,
    ["a  b"] becomes ["a__b"], where collapsing runs would give ["a_b"]. *)
Lemma slugify_keeps_runs :
  @slugify dotted_I_fragment (str "a  b") = str "a__b" /\
  @slug_collapsed dotted_I_fragment (str "a  b") = str "a_b" /\
  @slugify dotted_I_fragment (str "a  b")
    <> @slug_collapsed dotted_I_fragment (str "a  b").
Proof. split; [reflexivity|]. split; [reflexivity|]. discriminate. Qed.

(** C9, as stated, fails on U+0130: its lower case is U+0069 U+0307, and
    the combining mark U+0307 is not alphanumeric, so the second
    [slugify] turns it into a separator and strips it. *)
Lemma slugify_not_idempotent_dotted_I :
  @slugify dotted_I_fragment [0x130%N] = [0x69; 0x307]%N /\
  @slugify dotted_I_fragment (@slugify dotted_I_fragment [0x130%N]) = [0x69%N] /\
  @slugify dotted_I_fragment (@slugify dotted_I_fragment [0x130%N])
    <> @slugify dotted_I_fragment [0x130%N].
Proof. split; [reflexivity|]. split; [reflexivity|]. discriminate. Qed.

(** The same for every database that agrees with the interpreter's on
    U+0130 and U+0307. *)
Lemma slugify_not_idempotent_any_db `{UnicodeDB} :
  uni_isalnum 0x130%N = true -> uni_lower 0x130%N = [0x69; 0x307]%N ->
  uni_isalnum 0x307%N = false ->
  slugify (slugify [0x130%N]) <> slugify [0x130%N].
Proof.
  intros Ha Hl Hm.
  assert (H1 : slugify [0x130%N] = [0x69; 0x307]%N).
  { unfold slugify, slug_chars, isalnum, lower. simpl. rewrite Ha, Hl.
    unfold strip, rstrip. simpl. reflexivity. }
  rewrite H1. unfold slugify, slug_chars, isalnum, lower. simpl. rewrite Hm.
  unfold strip, rstrip. simpl. discriminate.
Qed.

Lemma slugify_idempotent_stable_witness :
  @stable_lowering dotted_I_fragment (str "Tikvah Pharma!") = true /\
  @slugify dotted_I_fragment (@slugify dotted_I_fragment (str "Tikvah Pharma!"))
    = @slugify dotted_I_fragment (str "Tikvah Pharma!").
Proof.
  split; [reflexivity|].
  apply (proj1 (@slugify_idempotent_stable dotted_I_fragment (str "Tikvah Pharma!"))).
  reflexivity.
Defined.

End Slug.

(** ** Detection Categorizer and Image Enrichment Scanner *)

Module Detect.

(** yolo_detect.py, [extract_message_id]: [int(image_path.stem)] *)
Definition extract_message_id `{UnicodeDB} (image_path : Path) : res Z :=
  match py_int (stem image_path) with
  | Some n => Ok n
  | None => Raise ValueError
  end.

(** yolo_detect.py, [PRODUCT_CLASSES] *)
Definition PRODUCT_CLASSES : gset pystr :=
  {[ str "bottle"; str "cup"; str "bowl"; str "box"; str "container" ]}.

(** yolo_detect.py, [categorize_image] *)
Definition categorize_image (detected_classes : list pystr) : pystr :=
  let has_person := bool_decide (str "person" ∈ detected_classes) in
  let has_product :=
    existsb (fun cls => bool_decide (cls ∈ PRODUCT_CLASSES)) detected_classes in
  if has_person && has_product then str "promotional"
  else if has_product && negb has_person then str "product_display"
  else if has_person && negb has_product then str "lifestyle"
  else str "other".

(** What [model.predict(path)[0]] holds: the label of each class index
    and, for each box, its class index and its confidence. *)
Record Detections := {
  names : gmap Z pystr;
  boxes : list (Z * float);
}.

(** The detection model: a prediction for an image, or a failure. *)
Definition YOLO := Path -> res Detections.

(** [max(first, *rest)] as the interpreter computes it: the running
    maximum is replaced by an item that compares greater. *)
Definition py_max (first : float) (rest : list float) : float :=
  fold_left (fun m x => if (m <? x)%float then x else m) rest first.

Record DetectionResult := {
  image_path : pystr;
  detected_classes : pystr;
  confidence_score : float;
  image_category : pystr;
}.

Definition lookup_name (nm : gmap Z pystr) (cls : Z) : res pystr :=
  match nm !! cls with
  | Some label => Ok label
  | None => Raise KeyError
  end.

Fixpoint class_labels (nm : gmap Z pystr) (cls : list Z) : res (list pystr) :=
match cls with
| [] => Ok []
| c :: rest =>
    label ← lookup_name nm c;
    labels ← class_labels nm rest;
    Ok (label :: labels)
end.

Definition max_conf (confidences : list float) : float :=
  match confidences with
  | [] => 0%float
  | c :: cs => py_max c cs
  end.

(** yolo_detect.py, [run_detection] *)
Definition run_detection (model : YOLO) (path : Path) : res DetectionResult :=
  detections ← model path;
  classes ← class_labels (names detections) (map fst (boxes detections));
  let confidences :=
    if bool_decide (boxes detections = []) then [] else map snd (boxes detections) in
  Ok {| image_path := path_str path;
        detected_classes := join (str ",") classes;
        confidence_score := max_conf confidences;
        image_category := categorize_image classes |}.

(** One row of the tabular output: what [main] hands to
    [writer.writerow] for one image. *)
Record DetectionRow := {
  message_id : Z;
  result : DetectionResult;
}.

Definition main_row `{UnicodeDB} (model : YOLO) (path : Path) : res DetectionRow :=
  r ← run_detection model path;
  mid ← extract_message_id path;
  Ok {| message_id := mid; result := r |}.

(** The loop of [main] over the scanned images: the rows written so far,
    and whether the scan completed. *)
Fixpoint main_rows `{UnicodeDB} (model : YOLO) (images : list Path)
  : list DetectionRow * res unit :=
match images with
| [] => ([], Ok tt)
| p :: rest =>
    match main_row model p with
    | Ok row => let '(rows, r) := main_rows model rest in (row :: rows, r)
    | Raise e => ([], Raise e)
    end
end.

(** The scenario of the specification: image [42.jpg] of a channel, a
    person detected with confidence 0.4 and a bottle with 0.9. *)
Definition scenario_path : Path :=
  [str "data"; str "raw"; str "images"; str "chemed"; str "42.jpg"].

#[local] Set Warnings "-inexact-float".
Definition scenario_detections : Detections :=
  {| names := {[ 0%Z := str "person"; 39%Z := str "bottle" ]};
     boxes := [(0%Z, 0.4%float); (39%Z, 0.9%float)] |}.
Definition scenario_score : float := 0.9%float.
#[local] Set Warnings "+inexact-float".

Definition scenario_model : YOLO := fun _ => Ok scenario_detections.

(** *** The categorizer *)

(** Some label of the set is a product class. *)
Definition has_product_label (labels : gset pystr) : Prop :=
  exists cls, cls ∈ labels /\ cls ∈ PRODUCT_CLASSES.

Lemma has_person_spec (l : list pystr) :
  bool_decide (str "person" ∈ l) = true <-> str "person" ∈ (list_to_set l : gset pystr).
Proof. rewrite bool_decide_eq_true, elem_of_list_to_set. reflexivity. Qed.

Lemma has_product_spec (l : list pystr) :
  existsb (fun cls => bool_decide (cls ∈ PRODUCT_CLASSES)) l = true
  <-> has_product_label (list_to_set l).
Proof.
  rewrite existsb_exists. unfold has_product_label. split.
  - intros (cls & Hin & Hp). exists cls. split.
    + rewrite elem_of_list_to_set, list_elem_of_In. exact Hin.
    + apply bool_decide_eq_true in Hp. exact Hp.
  - intros (cls & Hin & Hp). exists cls. split.
    + rewrite elem_of_list_to_set, list_elem_of_In in Hin. exact Hin.
    + apply bool_decide_eq_true. exact Hp.
Qed.

Lemma categorize_image_by_set (l : list pystr) :
  categorize_image l =
    match bool_decide (str "person" ∈ l),
          existsb (fun cls => bool_decide (cls ∈ PRODUCT_CLASSES)) l with
    | true, true => str "promotional"
    | false, true => str "product_display"
    | true, false => str "lifestyle"
    | false, false => str "other"
    end.
Proof.
  unfold categorize_image.
  destruct (bool_decide _), (existsb _ _); reflexivity.
Qed.

Lemma class_labels_same_classes nm (b1 b2 : list (Z * float)) :
  map fst b1 = map fst b2 ->
  class_labels nm (map fst b1) = class_labels nm (map fst b2).
Proof. intros ->. reflexivity. Qed.

(** C3: the category is read off the four-quadrant table over "a person
    label is present" and "a product label is present"; the empty list
    gives [other]; two lists with the same set of labels get the same
    category, and so do two predictions that differ only in their
    confidences. *)
Theorem categorize_image_quadrants (detected : list pystr) :
  ((str "person" ∈ (list_to_set detected : gset pystr))
     /\ has_product_label (list_to_set detected) ->
   categorize_image detected = str "promotional") /\
  ((str "person" ∉ (list_to_set detected : gset pystr))
     /\ has_product_label (list_to_set detected) ->
   categorize_image detected = str "product_display") /\
  ((str "person" ∈ (list_to_set detected : gset pystr))
     /\ ~ has_product_label (list_to_set detected) ->
   categorize_image detected = str "lifestyle") /\
  ((str "person" ∉ (list_to_set detected : gset pystr))
     /\ ~ has_product_label (list_to_set detected) ->
   categorize_image detected = str "other") /\
  categorize_image [] = str "other" /\
  (forall other : list pystr,
     (list_to_set other : gset pystr) = list_to_set detected ->
     categorize_image other = categorize_image detected) /\
  (forall (m1 m2 : YOLO) (path : Path) d1 d2 r1 r2,
     m1 path = Ok d1 -> m2 path = Ok d2 ->
     names d1 = names d2 -> map fst (boxes d1) = map fst (boxes d2) ->
     run_detection m1 path = Ok r1 -> run_detection m2 path = Ok r2 ->
     image_category r1 = image_category r2).
Proof.
  pose proof (has_person_spec detected) as Hp.
  pose proof (has_product_spec detected) as Hq.
  repeat apply conj.
  - intros [H1 H2]. apply Hp in H1. apply Hq in H2.
    rewrite categorize_image_by_set, H1, H2. reflexivity.
  - intros [H1 H2]. apply Hq in H2.
    rewrite categorize_image_by_set, H2.
    destruct (bool_decide _); [|reflexivity].
    exfalso. apply H1, Hp. reflexivity.
  - intros [H1 H2]. apply Hp in H1.
    rewrite categorize_image_by_set, H1.
    destruct (existsb _ _); [|reflexivity].
    exfalso. apply H2, Hq. reflexivity.
  - intros [H1 H2]. rewrite categorize_image_by_set.
    destruct (bool_decide _); [exfalso; apply H1, Hp; reflexivity|].
    destruct (existsb _ _); [exfalso; apply H2, Hq; reflexivity|].
    reflexivity.
  - reflexivity.
  - intros other Hset.
    pose proof (has_person_spec other) as Hp'.
    pose proof (has_product_spec other) as Hq'.
    rewrite Hset in Hp', Hq'. rewrite <- Hp in Hp'. rewrite <- Hq in Hq'.
    rewrite (categorize_image_by_set other), (categorize_image_by_set detected).
    destruct (bool_decide (str "person" ∈ other)), (existsb _ other),
             (bool_decide (str "person" ∈ detected)), (existsb _ detected);
      try reflexivity;
      solve [ destruct Hp' as [Ha Hb]; first [specialize (Ha eq_refl) | specialize (Hb eq_refl)];
              discriminate
            | destruct Hq' as [Ha Hb]; first [specialize (Ha eq_refl) | specialize (Hb eq_refl)];
              discriminate ].
  - intros m1 m2 path d1 d2 r1 r2 E1 E2 Hn Hc.
    unfold run_detection. rewrite E1, E2. simpl. rewrite Hn, Hc.
    destruct (class_labels (names d2) (map fst (boxes d2))); simpl;
      [ intros [= <-] [= <-]; reflexivity | discriminate ].
Qed.

Lemma categorize_image_quadrants_witness :
  categorize_image [str "bottle"; str "person"; str "bottle"] = str "promotional" /\
  categorize_image [str "person"; str "bottle"]
    = categorize_image [str "bottle"; str "person"; str "bottle"].
Proof.
  destruct (categorize_image_quadrants [str "bottle"; str "person"; str "bottle"])
    as (Hpromo & _ & _ & _ & _ & Hset & _).
  split.
  - apply Hpromo. split.
    + apply (bool_decide_unpack _). vm_compute. exact I.
    + exists (str "bottle"). split; apply (bool_decide_unpack _); vm_compute; exact I.
  - apply Hset. apply (bool_decide_unpack _). vm_compute. exact I.
Defined.

(** *** The confidence score *)

Lemma SFltb_irrefl x : SFltb x x = false.
Proof.
  unfold SFltb, SFcompare.
  destruct x as [s|s| |s m e]; try destruct s; simpl; try reflexivity;
    change (Pos.compare_cont Eq m m) with (Pos.compare m m);
    rewrite Z.compare_refl, Pos.compare_refl; reflexivity.
Qed.

Lemma SFltb_step m x y :
  SFltb m x = false -> SFltb m y = true -> SFltb y x = false.
Proof.
  unfold SFltb, SFcompare.
  destruct m as [sm|sm| |sm mm em], x as [sx|sx| |sx mx ex], y as [sy|sy| |sy my ey];
    repeat match goal with s : bool |- _ => destruct s end;
    simpl; try congruence;
    change (Pos.compare_cont Eq ?a ?b) with (Pos.compare a b);
    repeat match goal with
    | |- context [Z.compare ?a ?b] => destruct (Z.compare_spec a b)
    | |- context [Pos.compare ?a ?b] => destruct (Pos.compare_spec a b)
    end; simpl; try congruence; try lia.
Qed.

Lemma SFleb_of_not_ltb x y :
  SFeqb x x = true -> SFeqb y y = true -> SFltb x y = false -> SFleb y x = true.
Proof.
  unfold SFeqb, SFltb, SFleb, SFcompare.
  destruct x as [sx|sx| |sx mx ex], y as [sy|sy| |sy my ey];
    repeat match goal with s : bool |- _ => destruct s end;
    simpl; try congruence;
    change (Pos.compare_cont Eq ?a ?b) with (Pos.compare a b);
    intros _ _;
    repeat match goal with
    | |- context [Z.compare ?a ?b] => destruct (Z.compare_spec a b)
    | |- context [Pos.compare ?a ?b] => destruct (Pos.compare_spec a b)
    end; simpl; try congruence; try lia.
Qed.

Lemma leb_of_not_ltb (x y : float) :
  (x =? x)%float = true -> (y =? y)%float = true ->
  (x <? y)%float = false -> (y <=? x)%float = true.
Proof.
  rewrite !FloatAxioms.eqb_spec, FloatAxioms.ltb_spec, FloatAxioms.leb_spec.
  apply SFleb_of_not_ltb.
Qed.

Lemma ltb_irrefl (x : float) : (x <? x)%float = false.
Proof. rewrite ltb_spec. apply SFltb_irrefl. Qed.

Lemma ltb_step (m x y : float) :
  (m <? x)%float = false -> (m <? y)%float = true -> (y <? x)%float = false.
Proof. rewrite !ltb_spec. apply SFltb_step. Qed.

(** The running maximum: it is one of the items seen, and none of them
    compares greater. *)
Lemma py_max_invariant (rest seen : list float) (m : float) :
  m ∈ seen -> (forall c, c ∈ seen -> (m <? c)%float = false) ->
  py_max m rest ∈ seen ++ rest /\
  forall c, c ∈ seen ++ rest -> (py_max m rest <? c)%float = false.
Proof.
  revert seen m. induction rest as [|x rest IH]; intros seen m Hin Hge.
  - rewrite app_nil_r. simpl. split; assumption.
  - change (py_max m (x :: rest))
      with (py_max (if (m <? x)%float then x else m) rest).
    replace (seen ++ x :: rest) with ((seen ++ [x]) ++ rest)
      by (rewrite <- app_assoc; reflexivity).
    apply IH.
    + apply elem_of_app. destruct (m <? x)%float; [right; constructor | left; exact Hin].
    + intros c Hc. apply elem_of_app in Hc as [Hc|Hc].
      * destruct (m <? x)%float eqn:E; [|apply Hge, Hc].
        apply (ltb_step m); [apply Hge, Hc | exact E].
      * apply list_elem_of_singleton in Hc as ->.
        destruct (m <? x)%float eqn:E; [apply ltb_irrefl | exact E].
Qed.

Lemma max_conf_spec (confidences : list float) :
  (confidences = [] -> max_conf confidences = 0%float) /\
  (confidences <> [] ->
   max_conf confidences ∈ confidences /\
   (forall c, c ∈ confidences -> (max_conf confidences <? c)%float = false) /\
   ((forall c, c ∈ confidences -> (c =? c)%float = true) ->
    forall c, c ∈ confidences -> (c <=? max_conf confidences)%float = true)).
Proof.
  split; [intros ->; reflexivity|].
  destruct confidences as [|c cs]; [congruence|]. intros _.
  assert (Hmax : max_conf (c :: cs) ∈ c :: cs /\
                 forall c', c' ∈ c :: cs -> (max_conf (c :: cs) <? c')%float = false).
  { simpl. apply (py_max_invariant cs [c] c).
    - constructor.
    - intros c' Hc'. apply list_elem_of_singleton in Hc' as ->. apply ltb_irrefl. }
  destruct Hmax as [Hin Hge]. split; [exact Hin|]. split; [exact Hge|].
  intros Hnum c' Hc'. apply leb_of_not_ltb; auto.
Qed.

(** C8: for an image the model predicts on, whose class indices have
    labels and whose base name parses as an integer, the row has that
    integer as message identifier, the category of the detected labels,
    and as confidence 0.0 when nothing was detected and otherwise a
    detected confidence that no other detected confidence exceeds (the
    greatest of them, when they are numbers).  On the scenario the row
    is (42, 0.9, promotional). *)
Theorem detection_record_derivation `{UnicodeDB} :
  (forall (model : YOLO) (path : Path) (d : Detections) (classes : list pystr) (mid : Z),
     model path = Ok d ->
     class_labels (names d) (map fst (boxes d)) = Ok classes ->
     py_int (stem path) = Some mid ->
     exists row,
       main_row model path = Ok row /\
       message_id row = mid /\
       image_category (result row) = categorize_image classes /\
       (boxes d = [] -> confidence_score (result row) = 0%float) /\
       (boxes d <> [] ->
        confidence_score (result row) ∈ map snd (boxes d) /\
        (forall c, c ∈ map snd (boxes d) ->
           (confidence_score (result row) <? c)%float = false) /\
        ((forall c, c ∈ map snd (boxes d) -> (c =? c)%float = true) ->
         forall c, c ∈ map snd (boxes d) ->
           (c <=? confidence_score (result row))%float = true))) /\
  (exists row,
     main_row scenario_model scenario_path = Ok row /\
     message_id row = 42%Z /\
     confidence_score (result row) = scenario_score /\
     image_category (result row) = str "promotional").
Proof.
  split.
  - intros model path d classes mid Hm Hc Hi.
    unfold main_row, run_detection, extract_message_id.
    rewrite Hm. simpl. rewrite Hc. simpl. rewrite Hi. simpl.
    eexists. split; [reflexivity|]. simpl.
    split; [reflexivity|]. split; [reflexivity|].
    destruct (max_conf_spec (map snd (boxes d))) as [_ Hmax].
    split.
    + intros ->. reflexivity.
    + intros Hne. rewrite bool_decide_eq_false_2 by exact Hne.
      apply Hmax. destruct (boxes d); [congruence | discriminate].
  - eexists. split; [vm_compute; reflexivity|].
    split; [reflexivity|]. split; reflexivity.
Qed.

Lemma detection_record_derivation_witness :
  exists row,
    @main_row dotted_I_fragment scenario_model scenario_path = Ok row /\
    message_id row = 42%Z /\
    image_category (result row) = str "promotional" /\
    confidence_score (result row) ∈ map snd (boxes scenario_detections).
Proof.
  destruct (proj1 (@detection_record_derivation dotted_I_fragment)
              scenario_model scenario_path scenario_detections
              [str "person"; str "bottle"] 42%Z)
    as (row & Hrow & Hid & Hcat & _ & Hconf).
  - reflexivity.
  - vm_compute. reflexivity.
  - vm_compute. reflexivity.
  - exists row. split; [exact Hrow|]. split; [exact Hid|]. split.
    + rewrite Hcat. vm_compute. reflexivity.
    + apply Hconf. discriminate.
Defined.

End Detect.

(** ** Partition file format: [json.dump] and [json.load] *)

Module Json.

(** What [json.load] returns and [json.dump] accepts.  An object is a
    [dict]: its members in insertion order, keys distinct.  A number
    with a fraction or an exponent is kept as its literal (the double
    that it denotes is not computed); a Message Record holds none. *)
#[local] Unset Elimination Schemes.
Inductive json : Type :=
| JNull
| JBool (b : bool)
| JInt (n : Z)
| JFloat (literal : pystr)
| JStr (s : pystr)
| JArr (items : list json)
| JObj (members : list (pystr * json)).
#[local] Set Elimination Schemes.

(** Induction over a value and the values nested in it. *)
Lemma json_induction (P : json -> Prop) :
  P JNull -> (forall b, P (JBool b)) -> (forall n, P (JInt n)) ->
  (forall literal, P (JFloat literal)) -> (forall s, P (JStr s)) ->
  (forall items, Forall P items -> P (JArr items)) ->
  (forall members, Forall (fun m => P (snd m)) members -> P (JObj members)) ->
  forall v, P v.
Proof.
  intros Hnull Hbool Hint Hfloat Hstr Harr Hobj.
  fix IH 1. intros [ |b|n|literal|s|items|members].
  - exact Hnull.
  - apply Hbool.
  - apply Hint.
  - apply Hfloat.
  - apply Hstr.
  - apply Harr. induction items as [|x items IHitems]; constructor.
    + apply IH.
    + exact IHitems.
  - apply Hobj. induction members as [|m members IHmembers]; constructor.
    + apply IH.
    + exact IHmembers.
Qed.

(** [d[k] = v] *)
Fixpoint dict_set (d : list (pystr * json)) (k : pystr) (v : json)
  : list (pystr * json) :=
match d with
| [] => [(k, v)]
| (k', v') :: d' =>
    if pystr_eqb k' k then (k', v) :: d' else (k', v') :: dict_set d' k v
end.

(** [d.get(k)] *)
Fixpoint dict_get (d : list (pystr * json)) (k : pystr) : option json :=
match d with
| [] => None
| (k', v') :: d' => if pystr_eqb k' k then Some v' else dict_get d' k
end.

(** *** Encoder: [json.dump(payload, file, ensure_ascii=False, indent=2)] *)

Definition quote : char := 34%N.
Definition backslash : char := 92%N.

Definition hex_digit (n : N) : char :=
  if (n <? 10)%N then (48 + n)%N else (87 + n)%N.

(** One character of a string: the short escapes, a four-digit escape
    for the other control characters, anything else as it is. *)
Definition escape_char (c : char) : pystr :=
  if (c =? quote)%N then [backslash; quote]
  else if (c =? backslash)%N then [backslash; backslash]
  else if (c =? 8)%N then [backslash; 98%N]
  else if (c =? 12)%N then [backslash; 102%N]
  else if (c =? 10)%N then [backslash; 110%N]
  else if (c =? 13)%N then [backslash; 114%N]
  else if (c =? 9)%N then [backslash; 116%N]
  else if (c <? 32)%N then
    [backslash; 117%N; 48%N; 48%N; hex_digit (c / 16); hex_digit (c mod 16)]
  else [c].

Definition encode_basestring (s : pystr) : pystr :=
  quote :: flat_map escape_char s ++ [quote].

(** The decimal digits of a natural number, most significant first. *)
Fixpoint digits_of (fuel : nat) (n : N) : pystr :=
match fuel with
| O => []
| S fuel' =>
    if (n <? 10)%N then [(48 + n)%N]
    else digits_of fuel' (n / 10) ++ [(48 + n mod 10)%N]
end.

Definition decimal_digits (n : N) : pystr := digits_of (S (N.to_nat (N.log2 n))) n.

(** [repr] of an [int] *)
Definition encode_int (n : Z) : pystr :=
  if (n <? 0)%Z then 45%N :: decimal_digits (Z.to_N (- n))
  else decimal_digits (Z.to_N n).

Definition newline_indent (level : nat) : pystr := 10%N :: repeat 32%N (2 * level).

Fixpoint encode (level : nat) (v : json) : pystr :=
match v with
| JNull => str "null"
| JBool true => str "true"
| JBool false => str "false"
| JInt n => encode_int n
| JFloat literal => literal
| JStr s => encode_basestring s
| JArr [] => str "[]"
| JArr (x :: xs) =>
    str "[" ++ newline_indent (S level) ++ encode (S level) x
    ++ flat_map (fun y => str "," ++ newline_indent (S level) ++ encode (S level) y) xs
    ++ newline_indent level ++ str "]"
| JObj [] => str "{}"
| JObj (m :: ms) =>
    str "{" ++ newline_indent (S level)
    ++ encode_basestring (fst m) ++ str ": " ++ encode (S level) (snd m)
    ++ flat_map (fun kv => str "," ++ newline_indent (S level)
                   ++ encode_basestring (fst kv) ++ str ": " ++ encode (S level) (snd kv)) ms
    ++ newline_indent level ++ str "}"
end.

Definition json_dumps (v : json) : pystr := encode 0 v.

(** [json.dump] hands the text to the file in pieces, those that the
    encoder yields.  In a list, a number, a string or a constant goes
    out with the bracket or the separator before it, a list or an object
    after it; in an object every key, separator and value is a piece of
    its own. *)
Definition is_scalar (v : json) : bool :=
  match v with JArr _ | JObj _ => false | _ => true end.

Definition item_chunks (buf : pystr) (v : json) (chunks : list pystr) : list pystr :=
  if is_scalar v then [buf ++ concat chunks] else buf :: chunks.

Fixpoint iterencode (level : nat) (v : json) : list pystr :=
match v with
| JNull => [str "null"]
| JBool true => [str "true"]
| JBool false => [str "false"]
| JInt n => [encode_int n]
| JFloat literal => [literal]
| JStr s => [encode_basestring s]
| JArr [] => [str "[]"]
| JArr (x :: xs) =>
    item_chunks (str "[" ++ newline_indent (S level)) x (iterencode (S level) x)
    ++ flat_map (fun y => item_chunks (str "," ++ newline_indent (S level)) y
                            (iterencode (S level) y)) xs
    ++ [newline_indent level; str "]"]
| JObj [] => [str "{}"]
| JObj (m :: ms) =>
    [str "{"; newline_indent (S level); encode_basestring (fst m); str ": "]
    ++ iterencode (S level) (snd m)
    ++ flat_map (fun kv => [str "," ++ newline_indent (S level);
                            encode_basestring (fst kv); str ": "]
                           ++ iterencode (S level) (snd kv)) ms
    ++ [newline_indent level; str "}"]
end.

(** A code point that UTF-8 has no bytes for: half of a surrogate pair. *)
Definition is_surrogate (c : char) : bool := (0xD800 <=? c)%N && (c <=? 0xDFFF)%N.

(** [text.encode("utf-8")] succeeds *)
Definition utf8_encodable (text : pystr) : bool := forallb (fun c => negb (is_surrogate c)) text.

(** [for chunk in iterable: fp.write(chunk)] on a file opened with
    [encoding="utf-8"]: each piece is encoded when it is written; a
    piece that does not encode raises, and the pieces written before it
    are what the file holds when it is closed. *)
Fixpoint write_chunks (chunks : list pystr) : res unit * pystr :=
match chunks with
| [] => (Ok tt, [])
| chunk :: rest =>
    if utf8_encodable chunk then
      let '(r, text) := write_chunks rest in (r, chunk ++ text)
    else (Raise UnicodeEncodeError, [])
end.

(** [json.dump(payload, file, ensure_ascii=False, indent=2)]: how it
    ends, and the text that the file then holds. *)
Definition json_dump (v : json) : res unit * pystr := write_chunks (iterencode 0 v).

(** The values a partition file can hold: no float, and the keys of an
    object distinct (as in any [dict]). *)
Fixpoint encodable (v : json) : bool :=
match v with
| JFloat _ => false
| JArr items => forallb encodable items
| JObj members =>
    bool_decide (NoDup (map fst members))
    && forallb (fun m => encodable (snd m)) members
| _ => true
end.

(** *** Decoder: [json.load(file)] *)

Definition is_ws (c : char) : bool :=
  (c =? 32)%N || (c =? 9)%N || (c =? 10)%N || (c =? 13)%N.

Fixpoint skip_ws (s : pystr) : pystr :=
match s with
| [] => []
| c :: s' => if is_ws c then skip_ws s' else s
end.

Definition hex_value (c : char) : option N :=
  if ascii_isdigit c then Some (c - 48)%N
  else if (97 <=? c)%N && (c <=? 102)%N then Some (c - 87)%N
  else if (65 <=? c)%N && (c <=? 70)%N then Some (c - 55)%N
  else None.

Definition hex4_value (a b c d : char) : option N :=
  xa ← hex_value a; xb ← hex_value b; xc ← hex_value c; xd ← hex_value d;
  Some (((xa * 16 + xb) * 16 + xc) * 16 + xd)%N.

Definition is_high_surrogate (u : N) : bool := (0xD800 <=? u)%N && (u <=? 0xDBFF)%N.
Definition is_low_surrogate (u : N) : bool := (0xDC00 <=? u)%N && (u <=? 0xDFFF)%N.
Definition join_surrogates (hi lo : N) : N :=
  (0x10000 + (hi - 0xD800) * 0x400 + (lo - 0xDC00))%N.

(** The character a one-letter escape stands for. *)
Definition unescape (e : char) : option char :=
  if (e =? quote)%N then Some quote
  else if (e =? backslash)%N then Some backslash
  else if (e =? 47)%N then Some 47%N
  else if (e =? 98)%N then Some 8%N
  else if (e =? 102)%N then Some 12%N
  else if (e =? 110)%N then Some 10%N
  else if (e =? 114)%N then Some 13%N
  else if (e =? 116)%N then Some 9%N
  else None.

Definition cons_char (c : char) (r : option (pystr * pystr)) : option (pystr * pystr) :=
  match r with
  | Some (x, rest) => Some (c :: x, rest)
  | None => None
  end.

(** The string that starts after an opening quote, and the text after
    its closing quote (strict mode: a raw control character is an
    error). *)
Fixpoint scanstring (s : pystr) : option (pystr * pystr) :=
match s with
| [] => None
| c :: rest =>
    if (c =? quote)%N then Some ([], rest)
    else if (c =? backslash)%N then
      match rest with
      | [] => None
      | e :: rest1 =>
          if (e =? 117)%N then
            match rest1 with
            | a :: b :: c' :: d :: rest2 =>
                match hex4_value a b c' d with
                | None => None
                | Some u =>
                    if is_high_surrogate u then
                      match rest2 with
                      | bs :: uu :: a2 :: b2 :: c2 :: d2 :: rest3 =>
                          if (bs =? backslash)%N && (uu =? 117)%N then
                            match hex4_value a2 b2 c2 d2 with
                            | None => None
                            | Some u2 =>
                                if is_low_surrogate u2
                                then cons_char (join_surrogates u u2) (scanstring rest3)
                                else cons_char u (scanstring rest2)
                            end
                          else cons_char u (scanstring rest2)
                      | _ => cons_char u (scanstring rest2)
                      end
                    else cons_char u (scanstring rest2)
                end
            | _ => None
            end
          else
            match unescape e with
            | Some ch => cons_char ch (scanstring rest1)
            | None => None
            end
      end
    else if (c <? 32)%N then None
    else cons_char c (scanstring rest)
end.

(** The longest prefix of ASCII digits, and the rest. *)
Fixpoint scan_digits (s : pystr) : pystr * pystr :=
match s with
| [] => ([], [])
| c :: rest =>
    if ascii_isdigit c
    then let '(ds, r) := scan_digits rest in (c :: ds, r)
    else ([], s)
end.

Definition digits_to_N (ds : pystr) : N :=
  fold_left (fun acc c => (10 * acc + (c - 48))%N) ds 0%N.

(** The fraction of a number, when a dot and a digit follow. *)
Definition scan_fraction (s : pystr) : pystr * pystr :=
  match s with
  | dot :: d :: r =>
      if (dot =? 46)%N && ascii_isdigit d
      then let '(fs, r1) := scan_digits r in (dot :: d :: fs, r1)
      else ([], s)
  | _ => ([], s)
  end.

(** The exponent of a number, when [e] or [E], an optional sign and a
    digit follow. *)
Definition scan_exponent (s : pystr) : pystr * pystr :=
  match s with
  | e :: r =>
      if (e =? 101)%N || (e =? 69)%N then
        let '(sign, r1) :=
          match r with
          | sg :: r1 => if (sg =? 45)%N || (sg =? 43)%N then ([sg], r1) else ([], r)
          | [] => ([], r)
          end in
        let '(es, r2) := scan_digits r1 in
        match es with
        | [] => ([], s)
        | _ => (e :: sign ++ es, r2)
        end
      else ([], s)
  | [] => ([], s)
  end.

(** The integer part of a number: a zero, or a non-zero digit and the
    digits after it. *)
Definition scan_int_part (s : pystr) : option (pystr * pystr) :=
  match s with
  | [] => None
  | c :: r =>
      if (49 <=? c)%N && (c <=? 57)%N
      then let '(ds, r1) := scan_digits r in Some (c :: ds, r1)
      else if (c =? 48)%N then Some ([c], r) else None
  end.

(** A number: an optional minus, an integer part, an optional fraction,
    an optional exponent. *)
Definition match_number (s : pystr) : option (json * pystr) :=
  let '(negative, s1) :=
    match s with
    | c :: r => if (c =? 45)%N then (true, r) else (false, s)
    | [] => (false, s)
    end in
  match scan_int_part s1 with
  | None => None
  | Some (ip, r1) =>
      let '(frac, r2) := scan_fraction r1 in
      let '(expo, r3) := scan_exponent r2 in
      match frac, expo with
      | [], [] =>
          let n := Z.of_N (digits_to_N ip) in
          Some (JInt (if negative : bool then (- n)%Z else n), r3)
      | _, _ =>
          Some (JFloat ((if negative : bool then [45%N] else []) ++ ip ++ frac ++ expo), r3)
      end
  end.

(** [s] without the prefix [p], when it starts with [p]. *)
Fixpoint after_prefix (p s : pystr) : option pystr :=
match p, s with
| [], _ => Some s
| a :: p', b :: s' => if (a =? b)%N then after_prefix p' s' else None
| _ :: _, [] => None
end.

Definition scan_literal (s : pystr) : option (json * pystr) :=
  match after_prefix (str "null") s with
  | Some r => Some (JNull, r)
  | None =>
  match after_prefix (str "true") s with
  | Some r => Some (JBool true, r)
  | None =>
  match after_prefix (str "false") s with
  | Some r => Some (JBool false, r)
  | None =>
  match after_prefix (str "NaN") s with
  | Some r => Some (JFloat (str "NaN"), r)
  | None =>
  match after_prefix (str "Infinity") s with
  | Some r => Some (JFloat (str "Infinity"), r)
  | None =>
  match after_prefix (str "-Infinity") s with
  | Some r => Some (JFloat (str "-Infinity"), r)
  | None => match_number s
  end end end end end end.

(** The scanner.  [fuel] bounds the depth of the calls; [json_loads]
    gives it twice the length of the text. *)
Fixpoint scan_once (fuel : nat) (s : pystr) : option (json * pystr) :=
match fuel with
| O => None
| S fuel' =>
    match s with
    | [] => None
    | c :: rest =>
        if (c =? quote)%N then
          match scanstring rest with
          | Some (x, r) => Some (JStr x, r)
          | None => None
          end
        else if (c =? 123)%N then
          match skip_ws rest with
          | [] => None
          | c' :: r' =>
              if (c' =? 125)%N then Some (JObj [], r')
              else parse_members fuel' (c' :: r') []
          end
        else if (c =? 91)%N then
          match skip_ws rest with
          | [] => None
          | c' :: r' =>
              if (c' =? 93)%N then Some (JArr [], r')
              else parse_items fuel' (c' :: r') []
          end
        else scan_literal s
    end
end
with parse_items (fuel : nat) (s : pystr) (acc : list json) : option (json * pystr) :=
match fuel with
| O => None
| S fuel' =>
    match scan_once fuel' s with
    | None => None
    | Some (v, r) =>
        match skip_ws r with
        | [] => None
        | c :: r' =>
            if (c =? 93)%N then Some (JArr (acc ++ [v]), r')
            else if (c =? 44)%N then parse_items fuel' (skip_ws r') (acc ++ [v])
            else None
        end
    end
end
with parse_members (fuel : nat) (s : pystr) (acc : list (pystr * json))
  : option (json * pystr) :=
match fuel with
| O => None
| S fuel' =>
    match s with
    | [] => None
    | q :: r0 =>
        if (q =? quote)%N then
          match scanstring r0 with
          | None => None
          | Some (k, r1) =>
              match skip_ws r1 with
              | [] => None
              | colon :: r2 =>
                  if (colon =? 58)%N then
                    match scan_once fuel' (skip_ws r2) with
                    | None => None
                    | Some (v, r3) =>
                        match skip_ws r3 with
                        | [] => None
                        | c :: r4 =>
                            if (c =? 125)%N then Some (JObj (dict_set acc k v), r4)
                            else if (c =? 44)%N
                            then parse_members fuel' (skip_ws r4) (dict_set acc k v)
                            else None
                        end
                    end
                  else None
              end
          end
        else None
    end
end.

(** [json.loads]: one value, whitespace around it, nothing after. *)
Definition json_loads (s : pystr) : option json :=
  match scan_once (S (2 * length s)) (skip_ws s) with
  | Some (v, r) => match skip_ws r with [] => Some v | _ => None end
  | None => None
  end.

(** *** Truth value *)

(** Whether the literal of a float denotes the double zero: its digits
    are all zero, or the number is at most 2^-1075, half the smallest
    positive double, and rounds to zero. *)
Definition float_is_zero (literal : pystr) : bool :=
  let body :=
    match literal with
    | c :: r => if (c =? 45)%N then r else literal
    | [] => literal
    end in
  match body with
  | [] => false
  | c :: _ =>
      if ascii_isdigit c then
        let '(ip, r1) := scan_digits body in
        let '(frac, r2) :=
          match r1 with
          | dot :: r => if (dot =? 46)%N then scan_digits r else ([], r1)
          | [] => ([], r1)
          end in
        let expo : Z :=
          match r2 with
          | [] => 0%Z
          | _ :: r =>
              match r with
              | sg :: r' =>
                  if (sg =? 45)%N then (- Z.of_N (digits_to_N (fst (scan_digits r'))))%Z
                  else if (sg =? 43)%N then Z.of_N (digits_to_N (fst (scan_digits r')))
                  else Z.of_N (digits_to_N (fst (scan_digits r)))
              | [] => 0%Z
              end
          end in
        let m := Z.of_N (digits_to_N (ip ++ frac)) in
        let e10 := (expo - Z.of_nat (length frac))%Z in
        if (m =? 0)%Z then true
        else if (0 <=? e10)%Z then false
        else (m * 2 ^ 1075 <=? 10 ^ (- e10))%Z
      else false
  end.

(** [bool(v)]: the values that [if not records] skips are the false ones *)
Definition truthy (v : json) : bool :=
  match v with
  | JNull => false
  | JBool b => b
  | JInt n => negb (n =? 0)%Z
  | JFloat literal => negb (float_is_zero literal)
  | JStr s => negb (pystr_eqb s [])
  | JArr items => match items with [] => false | _ => true end
  | JObj members => match members with [] => false | _ => true end
  end.

(** *** Whitespace *)

Lemma skip_ws_newline_indent level rest :
  skip_ws (newline_indent level ++ rest) = skip_ws rest.
Proof.
  unfold newline_indent. generalize (2 * level). intros n.
  change (skip_ws (repeat 32%N n ++ rest) = skip_ws rest).
  induction n as [|n IH]; simpl; [reflexivity | exact IH].
Qed.

Lemma skip_ws_head c r : is_ws c = false -> skip_ws (c :: r) = c :: r.
Proof. intros E. simpl. rewrite E. reflexivity. Qed.

(** *** Decoding an encoded string *)

Lemma scanstring_quote r : scanstring (quote :: r) = Some ([], r).
Proof. reflexivity. Qed.

Lemma scanstring_short e ch r :
  (e =? 117)%N = false -> unescape e = Some ch ->
  scanstring (backslash :: e :: r) = cons_char ch (scanstring r).
Proof. intros E U. simpl. rewrite E, U. reflexivity. Qed.

Lemma scanstring_hex a b c d u r :
  hex4_value a b c d = Some u -> is_high_surrogate u = false ->
  scanstring (backslash :: 117%N :: a :: b :: c :: d :: r) = cons_char u (scanstring r).
Proof. intros E U. simpl. rewrite E, U. reflexivity. Qed.

Lemma scanstring_plain c r :
  (c =? quote)%N = false -> (c =? backslash)%N = false -> (c <? 32)%N = false ->
  scanstring (c :: r) = cons_char c (scanstring r).
Proof. intros E1 E2 E3. simpl. rewrite E1, E2, E3. reflexivity. Qed.

Lemma control_escape c :
  (c < 32)%N ->
  hex4_value 48%N 48%N (hex_digit (c / 16)) (hex_digit (c mod 16)) = Some c
  /\ is_high_surrogate c = false.
Proof.
  intros Hc.
  assert (Hall : forallb (fun n =>
            match hex4_value 48%N 48%N (hex_digit (n / 16)) (hex_digit (n mod 16)) with
            | Some u => (u =? n)%N && negb (is_high_surrogate n)
            | None => false
            end) (map N.of_nat (seq 0 32)) = true) by (vm_compute; reflexivity).
  rewrite forallb_forall in Hall.
  specialize (Hall c).
  assert (Hin : In c (map N.of_nat (seq 0 32))).
  { apply in_map_iff. exists (N.to_nat c). split; [apply N2Nat.id|].
    apply in_seq. lia. }
  specialize (Hall Hin).
  destruct (hex4_value _ _ _ _) as [u|]; [|discriminate].
  apply andb_true_iff in Hall as [Hu Hs]. apply N.eqb_eq in Hu. subst u.
  split; [reflexivity|]. apply negb_true_iff in Hs. exact Hs.
Qed.

Lemma scanstring_escape_char c r :
  scanstring (escape_char c ++ r) = cons_char c (scanstring r).
Proof.
  unfold escape_char.
  destruct (N.eqb_spec c quote) as [->|Hq]; [reflexivity|].
  destruct (N.eqb_spec c backslash) as [->|Hb]; [reflexivity|].
  destruct (N.eqb_spec c 8) as [->|H8]; [reflexivity|].
  destruct (N.eqb_spec c 12) as [->|H12]; [reflexivity|].
  destruct (N.eqb_spec c 10) as [->|H10]; [reflexivity|].
  destruct (N.eqb_spec c 13) as [->|H13]; [reflexivity|].
  destruct (N.eqb_spec c 9) as [->|H9]; [reflexivity|].
  destruct (N.ltb_spec c 32) as [Hlt|Hge].
  - destruct (control_escape c Hlt) as [Hhex Hsur].
    apply (scanstring_hex _ _ _ _ _ _ Hhex Hsur).
  - apply scanstring_plain.
    + apply N.eqb_neq, Hq.
    + apply N.eqb_neq, Hb.
    + apply N.ltb_ge, Hge.
Qed.

Lemma scanstring_encode s r :
  scanstring (flat_map escape_char s ++ quote :: r) = Some (s, r).
Proof.
  induction s as [|c s IH]; [reflexivity|].
  simpl flat_map. rewrite <- app_assoc, scanstring_escape_char, IH. reflexivity.
Qed.

(** *** Decoding an encoded integer *)

Definition is_digit (c : char) : Prop := ascii_isdigit c = true.

Definition no_digit_ahead (r : pystr) : Prop :=
  match r with [] => True | c :: _ => ascii_isdigit c = false end.

(** What follows a value in an encoded text: the end, a comma or a new
    line. *)
Definition delimited (r : pystr) : Prop :=
  match r with [] => True | c :: _ => c = 44%N \/ c = 10%N end.

Lemma delimited_no_digit r : delimited r -> no_digit_ahead r.
Proof. destruct r as [|c r]; [trivial|]. intros [->| ->]; reflexivity. Qed.

Lemma scan_digits_app ds r :
  Forall is_digit ds -> no_digit_ahead r -> scan_digits (ds ++ r) = (ds, r).
Proof.
  intros Hds Hr. induction Hds as [|c ds Hc _ IH]; cbn [app scan_digits].
  - destruct r as [|c r]; [reflexivity|]. cbn [scan_digits]. cbn in Hr. rewrite Hr. reflexivity.
  - unfold is_digit in Hc. rewrite Hc, IH. reflexivity.
Qed.

Lemma digits_to_N_snoc ds d :
  digits_to_N (ds ++ [d]) = (10 * digits_to_N ds + (d - 48))%N.
Proof. unfold digits_to_N. rewrite fold_left_app. reflexivity. Qed.

Lemma is_digit_range c : is_digit c <-> (48 <= c <= 57)%N.
Proof.
  unfold is_digit, ascii_isdigit. rewrite andb_true_iff, !N.leb_le. reflexivity.
Qed.

Lemma digits_of_S fuel n :
  digits_of (S fuel) n =
    if (n <? 10)%N then [(48 + n)%N]
    else digits_of fuel (n / 10) ++ [(48 + n mod 10)%N].
Proof. reflexivity. Qed.

Lemma digits_of_spec fuel n :
  (n < 2 ^ N.of_nat (S fuel))%N ->
  Forall is_digit (digits_of (S fuel) n) /\
  digits_to_N (digits_of (S fuel) n) = n /\
  exists c r, digits_of (S fuel) n = c :: r /\
    (n = 0%N -> c = 48%N /\ r = []) /\ (0 < n -> 49 <= c <= 57)%N.
Proof.
  revert n. induction fuel as [|fuel IH]; intros n Hn;
    rewrite (digits_of_S _ n); destruct (N.ltb_spec n 10) as [Hlt|Hge].
  - split; [|split].
    + constructor; [|constructor]. apply is_digit_range. lia.
    + unfold digits_to_N. simpl. lia.
    + exists (48 + n)%N, []. split; [reflexivity|]. split.
      * intros ->. split; reflexivity.
      * lia.
  - change (2 ^ N.of_nat 1)%N with 2%N in Hn. lia.
  - split; [|split].
    + constructor; [|constructor]. apply is_digit_range. lia.
    + unfold digits_to_N. simpl. lia.
    + exists (48 + n)%N, []. split; [reflexivity|]. split.
      * intros ->. split; reflexivity.
      * lia.
  - assert (Hdiv : (n / 10 < 2 ^ N.of_nat (S fuel))%N).
    { apply N.Div0.div_lt_upper_bound.
      rewrite (Nat2N.inj_succ (S fuel)), N.pow_succ_r' in Hn.
      clear - Hn. revert Hn. generalize (2 ^ N.of_nat (S fuel))%N. intros p Hn. lia. }
    destruct (IH _ Hdiv) as (Hall & Hval & c & r & Hcr & _ & Hpos).
    assert (Hmod : (n mod 10 < 10)%N) by (apply N.mod_lt; discriminate).
    split; [|split].
    + apply Forall_app. split; [exact Hall|].
      constructor; [|constructor]. apply is_digit_range.
      clear - Hmod. revert Hmod. generalize (n mod 10)%N. intros m Hm. lia.
    + rewrite digits_to_N_snoc, Hval.
      replace (48 + n mod 10 - 48)%N with (n mod 10)%N
        by (clear; generalize (n mod 10)%N; intros m; lia).
      symmetry. apply N.div_mod. discriminate.
    + exists c, (r ++ [(48 + n mod 10)%N]). split; [rewrite Hcr; reflexivity|].
      split; [clear - Hge; lia|]. intros _. apply Hpos.
      apply N.div_str_pos. clear - Hge. lia.
Qed.

Lemma decimal_digits_spec n :
  Forall is_digit (decimal_digits n) /\
  digits_to_N (decimal_digits n) = n /\
  exists c r, decimal_digits n = c :: r /\
    (n = 0%N -> c = 48%N /\ r = []) /\ (0 < n -> 49 <= c <= 57)%N.
Proof.
  apply digits_of_spec.
  rewrite Nat2N.inj_succ, N2Nat.id.
  destruct n as [|p]; [reflexivity|].
  apply N.log2_spec. lia.
Qed.

Lemma scan_int_part_decimal n r :
  no_digit_ahead r ->
  scan_int_part (decimal_digits n ++ r) = Some (decimal_digits n, r).
Proof.
  intros Hr. destruct (decimal_digits_spec n) as (Hall & _ & c & ds & Hcd & Hzero & Hpos).
  rewrite Hcd in *. simpl app. unfold scan_int_part.
  destruct (N.eq_dec n 0%N) as [Hn|Hn].
  - destruct (Hzero Hn) as [-> ->]. reflexivity.
  - assert (Hc : (49 <= c <= 57)%N) by (apply Hpos; lia).
    replace ((49 <=? c)%N && (c <=? 57)%N) with true
      by (symmetry; apply andb_true_iff; rewrite !N.leb_le; exact Hc).
    rewrite scan_digits_app; [reflexivity | | exact Hr].
    apply Forall_cons in Hall as [_ Hall]. exact Hall.
Qed.

Lemma scan_fraction_delimited r : delimited r -> scan_fraction r = ([], r).
Proof.
  destruct r as [|c [|d r]]; try reflexivity; intros [->| ->]; reflexivity.
Qed.

Lemma scan_exponent_delimited r : delimited r -> scan_exponent r = ([], r).
Proof.
  destruct r as [|c r]; [reflexivity|]. intros [->| ->]; reflexivity.
Qed.

Lemma match_number_natural n r :
  delimited r ->
  match_number (decimal_digits n ++ r) = Some (JInt (Z.of_N n), r).
Proof.
  intros Hr. unfold match_number.
  destruct (decimal_digits_spec n) as (_ & Hval & c & ds & Hcd & _ & _).
  pose proof (scan_int_part_decimal n r (delimited_no_digit r Hr)) as Hip.
  pose proof (proj1 (decimal_digits_spec n)) as Hall.
  rewrite Hcd in Hip, Hall |- *. simpl app in *.
  apply Forall_cons in Hall as [Hc _]. apply is_digit_range in Hc.
  destruct (N.eqb_spec c 45%N) as [->|_]; [lia|].
  rewrite Hip, (scan_fraction_delimited r Hr), (scan_exponent_delimited r Hr).
  rewrite <- Hcd, Hval. reflexivity.
Qed.

Lemma match_number_encode_int z r :
  delimited r -> match_number (encode_int z ++ r) = Some (JInt z, r).
Proof.
  intros Hr. unfold encode_int. destruct (Z.ltb_spec z 0) as [Hneg|Hpos].
  - unfold match_number. cbn [app]. change (45 =? 45)%N with true. cbv iota beta.
    rewrite (scan_int_part_decimal _ r (delimited_no_digit r Hr)).
    rewrite (scan_fraction_delimited r Hr), (scan_exponent_delimited r Hr).
    destruct (decimal_digits_spec (Z.to_N (- z))) as (_ & Hval & _).
    rewrite Hval. f_equal. f_equal. f_equal. lia.
  - rewrite match_number_natural by exact Hr. rewrite Z2N.id by lia. reflexivity.
Qed.

Lemma after_prefix_other a p c r :
  a <> c -> after_prefix (a :: p) (c :: r) = None.
Proof. intros Hne. cbn [after_prefix]. apply N.eqb_neq in Hne. rewrite Hne. reflexivity. Qed.

Lemma after_prefix_same a p r : after_prefix (a :: p) (a :: r) = after_prefix p r.
Proof. cbn [after_prefix]. rewrite N.eqb_refl. reflexivity. Qed.

Lemma scan_literal_digit c r :
  is_digit c -> scan_literal (c :: r) = match_number (c :: r).
Proof.
  intros Hc. apply is_digit_range in Hc. unfold scan_literal.
  change (str "null") with (110%N :: str "ull").
  change (str "true") with (116%N :: str "rue").
  change (str "false") with (102%N :: str "alse").
  change (str "NaN") with (78%N :: str "aN").
  change (str "Infinity") with (73%N :: str "nfinity").
  change (str "-Infinity") with (45%N :: str "Infinity").
  rewrite !after_prefix_other by lia. reflexivity.
Qed.

Lemma scan_literal_minus_digit c r :
  is_digit c -> scan_literal (45%N :: c :: r) = match_number (45%N :: c :: r).
Proof.
  intros Hc. apply is_digit_range in Hc. unfold scan_literal.
  change (str "null") with (110%N :: str "ull").
  change (str "true") with (116%N :: str "rue").
  change (str "false") with (102%N :: str "alse").
  change (str "NaN") with (78%N :: str "aN").
  change (str "Infinity") with (73%N :: str "nfinity").
  change (str "-Infinity") with (45%N :: 73%N :: str "nfinity").
  rewrite after_prefix_same.
  rewrite !after_prefix_other by lia. reflexivity.
Qed.

Lemma encode_int_head z :
  exists c r, encode_int z = c :: r /\ (is_digit c \/ (c = 45%N /\ exists d r', r = d :: r' /\ is_digit d)).
Proof.
  unfold encode_int. destruct (z <? 0)%Z.
  - destruct (decimal_digits_spec (Z.to_N (- z))) as (Hall & _ & c & ds & Hcd & _).
    rewrite Hcd in *. apply Forall_cons in Hall as [Hc _].
    exists 45%N, (c :: ds). split; [reflexivity|]. right. split; [reflexivity|].
    exists c, ds. split; [reflexivity | exact Hc].
  - destruct (decimal_digits_spec (Z.to_N z)) as (Hall & _ & c & ds & Hcd & _).
    rewrite Hcd in *. apply Forall_cons in Hall as [Hc _].
    exists c, ds. split; [reflexivity|]. left. exact Hc.
Qed.

Lemma scan_once_other fuel c r :
  c <> quote -> c <> 123%N -> c <> 91%N ->
  scan_once (S fuel) (c :: r) = scan_literal (c :: r).
Proof.
  intros H1 H2 H3. cbn [scan_once].
  apply N.eqb_neq in H1, H2, H3. rewrite H1, H2, H3. reflexivity.
Qed.

Lemma scan_once_encode_int fuel z r :
  delimited r -> scan_once (S fuel) (encode_int z ++ r) = Some (JInt z, r).
Proof.
  intros Hr. rewrite <- (match_number_encode_int z r Hr).
  destruct (encode_int_head z) as (c & ds & Hcd & Hhead). rewrite Hcd.
  cbn [app].
  destruct Hhead as [Hc|(-> & d & ds' & -> & Hd)].
  - rewrite <- (scan_literal_digit c _ Hc). apply is_digit_range in Hc.
    apply scan_once_other; unfold quote; lia.
  - cbn [app]. rewrite <- (scan_literal_minus_digit d _ Hd).
    apply scan_once_other; unfold quote; lia.
Qed.

(** *** Decoding an encoded value *)

Fixpoint weight (v : json) : nat :=
match v with
| JArr items => S (list_sum (map (fun x => S (weight x)) items))
| JObj members => S (list_sum (map (fun m => S (weight (snd m))) members))
| _ => 1
end.

(** What [scan_once] does on the encoding of [v], followed by [rest]. *)
Definition decodes (v : json) : Prop :=
  forall level fuel rest,
    encodable v = true -> delimited rest -> weight v <= fuel ->
    scan_once fuel (encode level v ++ rest) = Some (v, rest).

Lemma encode_head level v :
  encodable v = true ->
  exists c r, encode level v = c :: r /\ is_ws c = false /\ c <> 93%N /\ c <> 125%N.
Proof.
  destruct v as [ |[|]|n|literal|s|[|x xs]|[|m ms]]; intros He;
    try discriminate He;
    try (eexists _, _; split; [reflexivity|]; split; [reflexivity|]; split; discriminate).
  destruct (encode_int_head n) as (c & r & Hcr & Hhead).
  exists c, r. split; [exact Hcr|].
  destruct Hhead as [Hc|[-> _]].
  - apply is_digit_range in Hc. unfold is_ws.
    repeat match goal with
    | |- context [(c =? ?a)%N] => destruct (N.eqb_spec c a); [lia|]
    end.
    split; [reflexivity|]. split; lia.
  - split; [reflexivity|]. split; discriminate.
Qed.

Lemma skip_ws_encode level v rest :
  encodable v = true -> skip_ws (encode level v ++ rest) = encode level v ++ rest.
Proof.
  intros He. destruct (encode_head level v He) as (c & r & -> & Hws & _).
  apply skip_ws_head, Hws.
Qed.

Lemma scan_once_string fuel s rest :
  scan_once (S fuel) (encode_basestring s ++ rest) = Some (JStr s, rest).
Proof.
  unfold encode_basestring. cbn [app scan_once]. rewrite N.eqb_refl.
  rewrite <- app_assoc. cbn [app]. rewrite scanstring_encode. reflexivity.
Qed.

Lemma scan_once_open_array fuel level c r :
  is_ws c = false -> c <> 93%N ->
  scan_once (S fuel) (str "[" ++ newline_indent level ++ c :: r)
  = parse_items fuel (c :: r) [].
Proof.
  intros Hws Hc. change (str "[") with [91%N]. cbn [app scan_once].
  change (91 =? quote)%N with false. change (91 =? 123)%N with false.
  change (91 =? 91)%N with true. cbv iota.
  change (10%N :: repeat 32%N (2 * level) ++ c :: r) with (newline_indent level ++ c :: r).
  rewrite skip_ws_newline_indent, (skip_ws_head c r Hws).
  apply N.eqb_neq in Hc. rewrite Hc. reflexivity.
Qed.

Lemma scan_once_open_object fuel level r :
  scan_once (S fuel) (str "{" ++ newline_indent level ++ quote :: r)
  = parse_members fuel (quote :: r) [].
Proof.
  change (str "{") with [123%N]. cbn [app scan_once].
  change (123 =? quote)%N with false. change (123 =? 123)%N with true. cbv iota.
  change (10%N :: repeat 32%N (2 * level) ++ quote :: r)
    with (newline_indent level ++ quote :: r).
  rewrite skip_ws_newline_indent. reflexivity.
Qed.

Lemma scan_once_open_members fuel level k z :
  scan_once (S fuel) (str "{" ++ newline_indent level ++ encode_basestring k ++ z)
  = parse_members fuel (encode_basestring k ++ z) [].
Proof. unfold encode_basestring. cbn [app]. apply scan_once_open_object. Qed.

Definition item_text (level : nat) (y : json) : pystr :=
  str "," ++ newline_indent level ++ encode level y.

Lemma parse_items_encode level rest xs :
  Forall decodes xs -> forallb encodable xs = true ->
  forall x acc fuel,
    decodes x -> encodable x = true ->
    S (weight x) + list_sum (map (fun y => S (weight y)) xs) <= fuel ->
    parse_items fuel
      (encode (S level) x ++ flat_map (item_text (S level)) xs
         ++ newline_indent level ++ str "]" ++ rest) acc
    = Some (JArr (acc ++ x :: xs), rest).
Proof.
  induction 1 as [|y ys Hy _ IH]; intros Hall x acc fuel Hx Hex Hfuel.
  - destruct fuel as [|fuel]; [simpl in Hfuel; lia|].
    cbn [flat_map app parse_items].
    rewrite Hx; [|exact Hex|right; reflexivity| simpl in Hfuel; lia].
    rewrite skip_ws_newline_indent. reflexivity.
  - destruct fuel as [|fuel]; [simpl in Hfuel; lia|].
    cbn [forallb] in Hall. apply andb_true_iff in Hall as [Hey Hall].
    cbn [flat_map parse_items]. unfold item_text at 1.
    rewrite <- !app_assoc. cbn [map] in Hfuel; change (list_sum (?a :: ?l)) with (a + list_sum l) in Hfuel.
    rewrite Hx; [|exact Hex|left; reflexivity|lia].
    change (str "," ++ ?z) with (44%N :: z).
    rewrite (skip_ws_head 44%N) by reflexivity.
    change (44 =? 93)%N with false. change (44 =? 44)%N with true. cbv iota.
    rewrite skip_ws_newline_indent, skip_ws_encode by exact Hey.
    rewrite (IH Hall y (acc ++ [x]) fuel Hy Hey) by lia.
    rewrite <- app_assoc. reflexivity.
Qed.

Lemma dict_set_fresh acc k v :
  k ∉ map fst acc -> dict_set acc k v = acc ++ [(k, v)].
Proof.
  induction acc as [|[k' v'] acc IH]; intros Hk; [reflexivity|].
  cbn [dict_set]. unfold pystr_eqb.
  rewrite bool_decide_eq_false_2 by (intros ->; apply Hk; left).
  rewrite IH; [reflexivity|]. intros Hin. apply Hk. right. exact Hin.
Qed.

Definition member_text (level : nat) (m : pystr * json) : pystr :=
  str "," ++ newline_indent level ++ encode_basestring (fst m) ++ str ": "
  ++ encode level (snd m).

Lemma parse_members_encode level rest ms :
  Forall (fun m => decodes (snd m)) ms ->
  forallb (fun m => encodable (snd m)) ms = true ->
  forall m acc fuel,
    decodes (snd m) -> encodable (snd m) = true ->
    NoDup (map fst acc ++ fst m :: map fst ms) ->
    S (weight (snd m)) + list_sum (map (fun m => S (weight (snd m))) ms) <= fuel ->
    parse_members fuel
      (encode_basestring (fst m) ++ str ": " ++ encode (S level) (snd m)
         ++ flat_map (member_text (S level)) ms
         ++ newline_indent level ++ str "}" ++ rest) acc
    = Some (JObj (acc ++ m :: ms), rest).
Proof.
  induction 1 as [|m' ms Hm' _ IH]; intros Hall [k v] acc fuel Hv Hev Hnd Hfuel;
    cbn [fst snd] in *.
  - destruct fuel as [|fuel]; [simpl in Hfuel; lia|].
    unfold encode_basestring. cbn [flat_map app parse_members].
    rewrite N.eqb_refl. rewrite <- app_assoc. cbn [app].
    rewrite scanstring_encode.
    change (str ": " ++ ?z) with (58%N :: 32%N :: z).
    rewrite (skip_ws_head 58%N) by reflexivity.
    change (58 =? 58)%N with true. cbv iota.
    change (skip_ws (32%N :: ?z)) with (skip_ws z).
    rewrite skip_ws_encode by exact Hev.
    rewrite Hv; [|exact Hev|right; reflexivity|simpl in Hfuel; lia].
    rewrite skip_ws_newline_indent.
    change (skip_ws (str "}" ++ rest)) with (125%N :: rest).
    change (125 =? 125)%N with true. cbv iota.
    rewrite dict_set_fresh; [reflexivity|].
    apply NoDup_app in Hnd as (_ & Hnd & _). intros Hin. apply (Hnd k Hin). left.
  - destruct fuel as [|fuel]; [simpl in Hfuel; lia|].
    cbn [forallb] in Hall. apply andb_true_iff in Hall as [Hem' Hall].
    cbn [map] in Hfuel; change (list_sum (?a :: ?l)) with (a + list_sum l) in Hfuel.
    unfold encode_basestring at 1. cbn [flat_map app parse_members].
    rewrite N.eqb_refl. rewrite <- !app_assoc. cbn [app].
    rewrite scanstring_encode.
    change (str ": " ++ ?z) with (58%N :: 32%N :: z).
    rewrite (skip_ws_head 58%N) by reflexivity.
    change (58 =? 58)%N with true. cbv iota.
    change (skip_ws (32%N :: ?z)) with (skip_ws z).
    rewrite skip_ws_encode by exact Hev.
    unfold member_text at 1. rewrite <- !app_assoc.
    rewrite Hv; [|exact Hev|left; reflexivity|lia].
    change (str "," ++ ?z) with (44%N :: z).
    rewrite (skip_ws_head 44%N) by reflexivity.
    change (44 =? 125)%N with false. change (44 =? 44)%N with true. cbv iota.
    rewrite skip_ws_newline_indent.
    assert (Hfresh : k ∉ map fst acc).
    { apply NoDup_app in Hnd as (_ & Hnd & _). intros Hin. apply (Hnd k Hin). left. }
    rewrite dict_set_fresh by exact Hfresh.
    unfold encode_basestring at 1. cbn [app].
    rewrite (skip_ws_head quote) by reflexivity.
    change (quote :: (flat_map escape_char (fst m') ++ [quote]) ++ ?z)
      with (encode_basestring (fst m') ++ z).
    rewrite (IH Hall m' (acc ++ [(k, v)]) fuel Hm' Hem').
    + rewrite <- app_assoc. reflexivity.
    + rewrite map_app. cbn [map fst]. rewrite <- app_assoc. exact Hnd.
    + lia.
Qed.

Lemma encode_array level x xs :
  encode level (JArr (x :: xs)) =
    str "[" ++ newline_indent (S level) ++ encode (S level) x
    ++ flat_map (item_text (S level)) xs ++ newline_indent level ++ str "]".
Proof. reflexivity. Qed.

Lemma encode_object level m ms :
  encode level (JObj (m :: ms)) =
    str "{" ++ newline_indent (S level)
    ++ encode_basestring (fst m) ++ str ": " ++ encode (S level) (snd m)
    ++ flat_map (member_text (S level)) ms ++ newline_indent level ++ str "}".
Proof. reflexivity. Qed.

Lemma scan_once_encode v : decodes v.
Proof.
  induction v as [ |b|n|literal|s|items IH|members IH] using json_induction;
    intros level fuel rest He Hrest Hfuel;
    (destruct fuel as [|fuel]; [simpl in Hfuel; lia|]).
  - reflexivity.
  - destruct b; reflexivity.
  - apply scan_once_encode_int, Hrest.
  - discriminate He.
  - apply scan_once_string.
  - destruct items as [|x xs]; [reflexivity|].
    rewrite encode_array. rewrite <- !app_assoc.
    cbn [encodable forallb] in He. apply andb_true_iff in He as [Hex Hexs].
    apply Forall_cons in IH as [IHx IHxs].
    destruct (encode_head (S level) x Hex) as (c & r & Hcr & Hws & Hc & _).
    rewrite Hcr. cbn [app]. rewrite scan_once_open_array by assumption.
    change (c :: r ++ ?z) with ((c :: r) ++ z). rewrite <- Hcr.
    rewrite (parse_items_encode level rest xs IHxs Hexs x [] fuel IHx Hex).
    + reflexivity.
    + cbn [weight map] in Hfuel.
      change (list_sum (?a :: ?l)) with (a + list_sum l) in Hfuel. lia.
  - destruct members as [|m ms]; [reflexivity|].
    rewrite encode_object. rewrite <- !app_assoc.
    cbn [encodable forallb map] in He.
    apply andb_true_iff in He as [Hnd He].
    apply andb_true_iff in He as [Hem Hems].
    apply bool_decide_eq_true in Hnd.
    apply Forall_cons in IH as [IHm IHms].
    rewrite scan_once_open_members.
    rewrite (parse_members_encode level rest ms IHms Hems m [] fuel IHm Hem).
    + reflexivity.
    + exact Hnd.
    + cbn [weight map] in Hfuel.
      change (list_sum (?a :: ?l)) with (a + list_sum l) in Hfuel. lia.
Qed.

Lemma length_newline_indent level : 1 <= length (newline_indent level).
Proof. unfold newline_indent. cbn [length]. lia. Qed.

Lemma weight_le_length v :
  forall level, encodable v = true -> weight v <= length (encode level v).
Proof.
  induction v as [ |b|n|literal|s|items IH|members IH] using json_induction; intros level He.
  - cbn. lia.
  - destruct b; cbn; lia.
  - destruct (encode_int_head n) as (c & r & Hcr & _).
    cbn [weight encode]. rewrite Hcr. cbn [length]. lia.
  - discriminate He.
  - cbn [weight encode]. unfold encode_basestring. cbn [length]. lia.
  - destruct items as [|x xs]; [cbn; lia|].
    rewrite encode_array. cbn [encodable forallb] in He.
    apply andb_true_iff in He as [Hex Hexs].
    apply Forall_cons in IH as [IHx IHxs].
    specialize (IHx (S level) Hex).
    assert (Hxs : list_sum (map (fun y => S (weight y)) xs)
                  <= length (flat_map (item_text (S level)) xs)).
    { clear - IHxs Hexs. induction IHxs as [|y ys Hy _ IH]; [cbn; lia|].
      cbn [forallb] in Hexs. apply andb_true_iff in Hexs as [Hey Heys].
      cbn [map flat_map]. change (list_sum (?a :: ?l)) with (a + list_sum l).
      rewrite length_app. unfold item_text at 1. rewrite !length_app.
      specialize (Hy (S level) Hey). specialize (IH Heys).
      pose proof (length_newline_indent (S level)). cbn [length str]. lia. }
    rewrite !length_app. cbn [weight map].
    change (list_sum (?a :: ?l)) with (a + list_sum l).
    pose proof (length_newline_indent (S level)).
    pose proof (length_newline_indent level). cbn [length str]. lia.
  - destruct members as [|m ms]; [cbn; lia|].
    rewrite encode_object. cbn [encodable forallb] in He.
    apply andb_true_iff in He as [_ He].
    apply andb_true_iff in He as [Hem Hems].
    apply Forall_cons in IH as [IHm IHms].
    specialize (IHm (S level) Hem).
    assert (Hms : list_sum (map (fun m => S (weight (snd m))) ms)
                  <= length (flat_map (member_text (S level)) ms)).
    { clear - IHms Hems. induction IHms as [|y ys Hy _ IH]; [cbn; lia|].
      cbn [forallb] in Hems. apply andb_true_iff in Hems as [Hey Heys].
      cbn [map flat_map]. change (list_sum (?a :: ?l)) with (a + list_sum l).
      rewrite length_app. unfold member_text at 1. rewrite !length_app.
      specialize (Hy (S level) Hey). specialize (IH Heys).
      pose proof (length_newline_indent (S level)). cbn [length str]. lia. }
    rewrite !length_app. cbn [weight map].
    change (list_sum (?a :: ?l)) with (a + list_sum l).
    pose proof (length_newline_indent (S level)).
    pose proof (length_newline_indent level). cbn [length str]. lia.
Qed.

(** Decoding the encoding of a value gives the value back. *)
Lemma json_loads_dumps v : encodable v = true -> json_loads (json_dumps v) = Some v.
Proof.
  intros He. unfold json_loads, json_dumps.
  rewrite <- (app_nil_r (encode 0 v)) at 2.
  rewrite skip_ws_encode by exact He.
  rewrite scan_once_encode; [reflexivity | exact He | exact I |].
  pose proof (weight_le_length v 0 He). lia.
Qed.

(** *** The fuel of the scanner *)

Lemma length_skip_ws s : length (skip_ws s) <= length s.
Proof.
  induction s as [|c s IH]; [reflexivity|]. cbn [skip_ws].
  destruct (is_ws c); cbn [length]; lia.
Qed.

Lemma cons_char_length c o x r :
  cons_char c o = Some (x, r) -> exists x', o = Some (x', r).
Proof. destruct o as [[x' r']|]; cbn; [intros [= <- <-]; eauto | discriminate]. Qed.

Lemma scanstring_shorter s x r : scanstring s = Some (x, r) -> length r < length s.
Proof.
  remember (length s) as n eqn:Hn. revert s x r Hn.
  induction n as [n IH] using lt_wf_ind. intros s x r Hn Hscan.
  assert (Hrec : forall s' x' c, length s' < n ->
            cons_char c (scanstring s') = Some (x', r) -> length r < n).
  { intros s' x' c Hlt Hc. apply cons_char_length in Hc as (x'' & Hc).
    pose proof (IH (length s') Hlt s' x'' r eq_refl Hc). lia. }
  destruct s as [|c rest]; [discriminate|]. cbn [scanstring] in Hscan. cbn [length] in Hn.
  destruct (c =? quote)%N; [injection Hscan as <- <-; lia|].
  destruct (c =? backslash)%N.
  - destruct rest as [|e rest1]; [discriminate|]. cbn [length] in Hn.
    destruct (e =? 117)%N.
    + destruct rest1 as [|a [|b [|c' [|d rest2]]]]; try discriminate. cbn [length] in Hn.
      destruct (hex4_value a b c' d) as [u|]; [|discriminate].
      destruct (is_high_surrogate u).
      * destruct rest2 as [|bs [|uu [|a2 [|b2 [|c2 [|d2 rest3]]]]]];
          try ((eapply Hrec; [|exact Hscan]; cbn [length] in *; lia)).
        destruct ((bs =? backslash)%N && (uu =? 117)%N);
          [|(eapply Hrec; [|exact Hscan]; cbn [length] in *; lia)].
        destruct (hex4_value a2 b2 c2 d2) as [u2|]; [|discriminate].
        destruct (is_low_surrogate u2);
          (eapply Hrec; [|exact Hscan]; cbn [length] in *; lia).
      * (eapply Hrec; [|exact Hscan]; cbn [length] in *; lia).
    + destruct (unescape e) as [ch|]; [|discriminate].
      (eapply Hrec; [|exact Hscan]; cbn [length] in *; lia).
  - destruct (c <? 32)%N; [discriminate|].
    (eapply Hrec; [|exact Hscan]; cbn [length] in *; lia).
Qed.

Lemma scan_digits_split s ds r : scan_digits s = (ds, r) -> s = ds ++ r.
Proof.
  revert ds r. induction s as [|c s IH]; intros ds r; cbn [scan_digits].
  - intros [= <- <-]. reflexivity.
  - destruct (ascii_isdigit c); [|intros [= <- <-]; reflexivity].
    destruct (scan_digits s) as [ds' r'] eqn:E. intros [= <- <-].
    rewrite (IH ds' r' eq_refl). reflexivity.
Qed.

Lemma scan_fraction_split s f r : scan_fraction s = (f, r) -> s = f ++ r.
Proof.
  unfold scan_fraction. destruct s as [|dot [|d s]]; try (intros [= <- <-]; reflexivity).
  destruct ((dot =? 46)%N && ascii_isdigit d); [|intros [= <- <-]; reflexivity].
  destruct (scan_digits s) as [fs r1] eqn:E. intros [= <- <-].
  rewrite (scan_digits_split s fs r1 E). reflexivity.
Qed.

Lemma scan_exponent_split s e r : scan_exponent s = (e, r) -> s = e ++ r.
Proof.
  unfold scan_exponent. destruct s as [|c s]; [intros [= <- <-]; reflexivity|].
  destruct ((c =? 101)%N || (c =? 69)%N); [|intros [= <- <-]; reflexivity].
  destruct s as [|sg s1].
  - cbn. intros [= <- <-]. reflexivity.
  - destruct ((sg =? 45)%N || (sg =? 43)%N).
    + destruct (scan_digits s1) as [es r2] eqn:E.
      destruct es as [|e0 es]; intros [= <- <-]; [reflexivity|].
      rewrite (scan_digits_split s1 _ r2 E). reflexivity.
    + destruct (scan_digits (sg :: s1)) as [es r2] eqn:E.
      destruct es as [|e0 es]; intros [= <- <-]; [reflexivity|].
      rewrite (scan_digits_split (sg :: s1) _ r2 E). reflexivity.
Qed.

Lemma scan_int_part_split s ip r :
  scan_int_part s = Some (ip, r) -> s = ip ++ r /\ ip <> [].
Proof.
  unfold scan_int_part. destruct s as [|c s]; [discriminate|].
  destruct ((49 <=? c)%N && (c <=? 57)%N).
  - destruct (scan_digits s) as [ds r1] eqn:E. intros [= <- <-].
    rewrite (scan_digits_split s ds r1 E). split; [reflexivity | discriminate].
  - destruct (c =? 48)%N; [|discriminate]. intros [= <- <-].
    split; [reflexivity | discriminate].
Qed.

Lemma match_number_shorter s v r : match_number s = Some (v, r) -> length r < length s.
Proof.
  unfold match_number.
  set (first := match s with
                | c :: r0 => if (c =? 45)%N then (true, r0) else (false, s)
                | [] => (false, s)
                end).
  assert (Hfirst : length (snd first) <= length s).
  { subst first. destruct s as [|c s0]; [reflexivity|].
    destruct (c =? 45)%N; cbn [snd length]; lia. }
  destruct first as [negative s1]. cbn [snd] in Hfirst.
  destruct (scan_int_part s1) as [[ip r1]|] eqn:Eip; [|discriminate].
  destruct (scan_fraction r1) as [frac r2] eqn:Ef.
  destruct (scan_exponent r2) as [expo r3] eqn:Ee.
  apply scan_int_part_split in Eip as [-> Hip].
  apply scan_fraction_split in Ef as ->.
  apply scan_exponent_split in Ee as ->.
  rewrite !length_app in Hfirst.
  assert (0 < length ip) by (destruct ip; [congruence | cbn; lia]).
  destruct frac, expo; intros [= _ <-]; lia.
Qed.

Lemma after_prefix_split p s r : after_prefix p s = Some r -> s = p ++ r.
Proof.
  revert s. induction p as [|a p IH]; intros s; cbn [after_prefix].
  - intros [= <-]. reflexivity.
  - destruct s as [|b s]; [discriminate|].
    destruct (N.eqb_spec a b) as [->|_]; [|discriminate].
    intros Hp. rewrite (IH s Hp). reflexivity.
Qed.

Lemma scan_literal_shorter s v r : scan_literal s = Some (v, r) -> length r < length s.
Proof.
  unfold scan_literal.
  repeat match goal with
  | |- context [after_prefix ?p s] =>
      let E := fresh "E" in
      destruct (after_prefix p s) as [?r|] eqn:E;
      [apply after_prefix_split in E; intros [= _ <-]; subst s;
       rewrite length_app; cbn; lia|]
  end.
  apply match_number_shorter.
Qed.

Lemma skip_ws_cons_length s c r : skip_ws s = c :: r -> length r < length s.
Proof. intros E. pose proof (length_skip_ws s) as Hle. rewrite E in Hle. cbn [length] in Hle. lia. Qed.

(** Each scanner consumes something. *)
Lemma scanner_shorter fuel :
  (forall s v r, scan_once fuel s = Some (v, r) -> length r < length s) /\
  (forall s acc v r, parse_items fuel s acc = Some (v, r) -> length r < length s) /\
  (forall s acc v r, parse_members fuel s acc = Some (v, r) -> length r < length s).
Proof.
  induction fuel as [|fuel (IHscan & IHitems & IHmembers)];
    [repeat split; intros; discriminate|].
  repeat apply conj.
  - intros s v r. cbn [scan_once]. destruct s as [|c rest]; [discriminate|]. cbn [length].
    destruct (c =? quote)%N.
    { destruct (scanstring rest) as [[x r1]|] eqn:E; [|discriminate].
      intros [= _ <-]. apply scanstring_shorter in E. lia. }
    destruct (c =? 123)%N.
    { destruct (skip_ws rest) as [|c' r'] eqn:E; [discriminate|].
      apply skip_ws_cons_length in E.
      destruct (c' =? 125)%N; [intros [= _ <-]; lia|].
      intros Hm. apply IHmembers in Hm. cbn [length] in Hm. lia. }
    destruct (c =? 91)%N.
    { destruct (skip_ws rest) as [|c' r'] eqn:E; [discriminate|].
      apply skip_ws_cons_length in E.
      destruct (c' =? 93)%N; [intros [= _ <-]; lia|].
      intros Hi. apply IHitems in Hi. cbn [length] in Hi. lia. }
    intros Hl. apply scan_literal_shorter in Hl. cbn [length] in Hl. exact Hl.
  - intros s acc v r. cbn [parse_items].
    destruct (scan_once fuel s) as [[v1 r1]|] eqn:E1; [|discriminate].
    apply IHscan in E1.
    destruct (skip_ws r1) as [|c r'] eqn:E2; [discriminate|].
    apply skip_ws_cons_length in E2.
    destruct (c =? 93)%N; [intros [= _ <-]; lia|].
    destruct (c =? 44)%N; [|discriminate].
    intros Hi. apply IHitems in Hi. pose proof (length_skip_ws r'). lia.
  - intros s acc v r. cbn [parse_members]. destruct s as [|q r0]; [discriminate|].
    cbn [length]. destruct (q =? quote)%N; [|discriminate].
    destruct (scanstring r0) as [[k r1]|] eqn:E1; [|discriminate].
    apply scanstring_shorter in E1.
    destruct (skip_ws r1) as [|colon r2] eqn:E2; [discriminate|].
    apply skip_ws_cons_length in E2.
    destruct (colon =? 58)%N; [|discriminate].
    destruct (scan_once fuel (skip_ws r2)) as [[v1 r3]|] eqn:E3; [|discriminate].
    apply IHscan in E3. pose proof (length_skip_ws r2).
    destruct (skip_ws r3) as [|c r4] eqn:E4; [discriminate|].
    apply skip_ws_cons_length in E4.
    destruct (c =? 125)%N; [intros [= _ <-]; lia|].
    destruct (c =? 44)%N; [|discriminate].
    intros Hm. apply IHmembers in Hm. pose proof (length_skip_ws r4). lia.
Qed.

(** Past twice the length of the text, more fuel changes nothing. *)
Lemma scanner_fuel f1 :
  (forall f2 s, 2 * length s < f1 -> 2 * length s < f2 ->
     scan_once f1 s = scan_once f2 s) /\
  (forall f2 s acc, 2 * length s + 1 < f1 -> 2 * length s + 1 < f2 ->
     parse_items f1 s acc = parse_items f2 s acc) /\
  (forall f2 s acc, 2 * length s + 1 < f1 -> 2 * length s + 1 < f2 ->
     parse_members f1 s acc = parse_members f2 s acc).
Proof.
  induction f1 as [|f1 (IHscan & IHitems & IHmembers)]; [repeat split; intros; lia|].
  repeat apply conj.
  - intros [|f2] s H1 H2; [lia|]. cbn [scan_once].
    destruct s as [|c rest]; [reflexivity|]. cbn [length] in H1, H2.
    destruct (c =? quote)%N; [reflexivity|].
    destruct (c =? 123)%N.
    { destruct (skip_ws rest) as [|c' r'] eqn:E; [reflexivity|].
      pose proof (length_skip_ws rest) as Hle. rewrite E in Hle.
      destruct (c' =? 125)%N; [reflexivity|]. apply IHmembers; lia. }
    destruct (c =? 91)%N; [|reflexivity].
    destruct (skip_ws rest) as [|c' r'] eqn:E; [reflexivity|].
    pose proof (length_skip_ws rest) as Hle. rewrite E in Hle.
    destruct (c' =? 93)%N; [reflexivity|]. apply IHitems; lia.
  - intros [|f2] s acc H1 H2; [lia|]. cbn [parse_items].
    rewrite (IHscan f2 s) by lia.
    destruct (scan_once f2 s) as [[v1 r1]|] eqn:E1; [|reflexivity].
    apply (proj1 (scanner_shorter f2)) in E1.
    destruct (skip_ws r1) as [|c r'] eqn:E2; [reflexivity|].
    apply skip_ws_cons_length in E2.
    destruct (c =? 93)%N; [reflexivity|]. destruct (c =? 44)%N; [|reflexivity].
    pose proof (length_skip_ws r'). apply IHitems; lia.
  - intros [|f2] s acc H1 H2; [lia|]. cbn [parse_members].
    destruct s as [|q r0]; [reflexivity|]. cbn [length] in H1, H2.
    destruct (q =? quote)%N; [|reflexivity].
    destruct (scanstring r0) as [[k r1]|] eqn:E1; [|reflexivity].
    apply scanstring_shorter in E1.
    destruct (skip_ws r1) as [|colon r2] eqn:E2; [reflexivity|].
    apply skip_ws_cons_length in E2.
    destruct (colon =? 58)%N; [|reflexivity].
    pose proof (length_skip_ws r2).
    rewrite (IHscan f2 (skip_ws r2)) by lia.
    destruct (scan_once f2 (skip_ws r2)) as [[v1 r3]|] eqn:E3; [|reflexivity].
    apply (proj1 (scanner_shorter f2)) in E3.
    destruct (skip_ws r3) as [|c r4] eqn:E4; [reflexivity|].
    apply skip_ws_cons_length in E4.
    destruct (c =? 125)%N; [reflexivity|]. destruct (c =? 44)%N; [|reflexivity].
    pose proof (length_skip_ws r4). apply IHmembers; lia.
Qed.

(** [json_loads] does not depend on the fuel it gives the scanner: any
    larger amount gives the same answer. *)
Lemma json_loads_any_fuel s fuel :
  2 * length s < fuel ->
  json_loads s =
    match scan_once fuel (skip_ws s) with
    | Some (v, r) => match skip_ws r with [] => Some v | _ => None end
    | None => None
    end.
Proof.
  intros Hfuel. unfold json_loads. pose proof (length_skip_ws s).
  rewrite (proj1 (scanner_fuel (S (2 * length s))) fuel (skip_ws s)) by lia.
  reflexivity.
Qed.

(** *** The text in pieces *)

Lemma item_chunks_concat buf v chunks :
  concat (item_chunks buf v chunks) = buf ++ concat chunks.
Proof.
  unfold item_chunks. destruct (is_scalar v); cbn [concat]; [apply app_nil_r | reflexivity].
Qed.

(** The pieces, put together, are the text of the dump. *)
Lemma iterencode_concat v : forall level, concat (iterencode level v) = encode level v.
Proof.
  induction v as [ |b|n|literal|s|items IH|members IH] using json_induction; intros level.
  - reflexivity.
  - destruct b; reflexivity.
  - cbn. apply app_nil_r.
  - cbn. apply app_nil_r.
  - cbn [iterencode concat encode]. apply app_nil_r.
  - destruct items as [|x xs]; [reflexivity|].
    apply Forall_cons in IH as [Hx Hxs].
    cbn [iterencode encode]. rewrite !concat_app, item_chunks_concat, Hx.
    rewrite <- !app_assoc. do 2 f_equal.
    assert (Hrest : concat (flat_map (fun y => item_chunks (str "," ++ newline_indent (S level)) y
                                      (iterencode (S level) y)) xs)
                    = flat_map (fun y => str "," ++ newline_indent (S level)
                                         ++ encode (S level) y) xs).
    { clear Hx. induction xs as [|y ys IHys]; [reflexivity|].
      apply Forall_cons in Hxs as [Hy Hys].
      cbn [flat_map]. rewrite concat_app, item_chunks_concat, Hy, (IHys Hys).
      rewrite <- !app_assoc. reflexivity. }
    rewrite Hrest. cbn [concat app]. rewrite ?app_nil_r. reflexivity.
  - destruct members as [|m ms]; [reflexivity|].
    apply Forall_cons in IH as [Hm Hms].
    cbn [iterencode encode]. rewrite !concat_app, Hm.
    assert (Hrest : concat (flat_map (fun kv => [str "," ++ newline_indent (S level);
                                                 encode_basestring (fst kv); str ": "]
                                                ++ iterencode (S level) (snd kv)) ms)
                    = flat_map (fun kv => str "," ++ newline_indent (S level)
                                   ++ encode_basestring (fst kv) ++ str ": "
                                   ++ encode (S level) (snd kv)) ms).
    { clear Hm. induction ms as [|kv kvs IHkvs]; [reflexivity|].
      apply Forall_cons in Hms as [Hkv Hkvs].
      cbn [flat_map]. rewrite !concat_app, Hkv, (IHkvs Hkvs).
      cbn [concat]. rewrite <- !app_assoc. reflexivity. }
    rewrite Hrest. cbn [concat]. rewrite <- !app_assoc. cbn [app].
    rewrite app_nil_r. reflexivity.
Qed.

Lemma utf8_encodable_app a b :
  utf8_encodable (a ++ b) = utf8_encodable a && utf8_encodable b.
Proof. apply forallb_app. Qed.

Lemma utf8_encodable_concat chunks :
  utf8_encodable (concat chunks) = forallb utf8_encodable chunks.
Proof.
  induction chunks as [|c chunks IH]; [reflexivity|].
  cbn [concat forallb]. rewrite utf8_encodable_app, IH. reflexivity.
Qed.

(** Writing ends well exactly when every piece encodes, and the file
    then holds the whole text. *)
Lemma write_chunks_ok chunks :
  utf8_encodable (concat chunks) = true -> write_chunks chunks = (Ok tt, concat chunks).
Proof.
  rewrite utf8_encodable_concat.
  induction chunks as [|c chunks IH]; [reflexivity|].
  cbn [forallb write_chunks concat]. intros [Hc Hrest]%andb_prop.
  rewrite Hc, (IH Hrest). reflexivity.
Qed.

Lemma write_chunks_inv chunks u text :
  write_chunks chunks = (Ok u, text) ->
  text = concat chunks /\ utf8_encodable text = true.
Proof.
  revert text. induction chunks as [|c chunks IH]; intros text.
  - intros [= _ <-]. split; reflexivity.
  - cbn [write_chunks concat]. destruct (utf8_encodable c) eqn:Hc; [|discriminate].
    destruct (write_chunks chunks) as [r rest] eqn:Hw. intros [= -> <-].
    destruct (IH rest eq_refl) as [-> Hrest].
    split; [reflexivity|]. rewrite utf8_encodable_app, Hc, Hrest. reflexivity.
Qed.

(** Writing that fails has failed to encode, and leaves a beginning of
    the text that is not all of it. *)
Lemma write_chunks_raise chunks e text :
  write_chunks chunks = (Raise e, text) ->
  e = UnicodeEncodeError /\ utf8_encodable (concat chunks) = false /\
  exists rest, concat chunks = text ++ rest /\ rest <> [].
Proof.
  revert text. induction chunks as [|c chunks IH]; intros text; [discriminate|].
  cbn [write_chunks concat]. rewrite utf8_encodable_app.
  destruct (utf8_encodable c) eqn:Hc.
  - destruct (write_chunks chunks) as [r rest] eqn:Hw. intros [= -> <-].
    destruct (IH rest eq_refl) as (-> & Hbad & tail & Htail & Hne).
    split; [reflexivity|]. split; [exact Hbad|].
    exists tail. split; [|exact Hne]. rewrite Htail, app_assoc. reflexivity.
  - intros [= <- <-]. split; [reflexivity|]. split; [reflexivity|].
    exists (c ++ concat chunks). split; [reflexivity|].
    destruct c; [discriminate Hc | discriminate].
Qed.

Lemma json_dump_ok v :
  utf8_encodable (json_dumps v) = true -> json_dump v = (Ok tt, json_dumps v).
Proof.
  unfold json_dump, json_dumps. rewrite <- (iterencode_concat v 0). apply write_chunks_ok.
Qed.

Lemma json_dump_inv v u text :
  json_dump v = (Ok u, text) -> text = json_dumps v /\ utf8_encodable (json_dumps v) = true.
Proof.
  unfold json_dump, json_dumps. intros [-> Hok]%write_chunks_inv.
  rewrite <- (iterencode_concat v 0). split; [reflexivity | exact Hok].
Qed.

Lemma json_dump_raise v e text :
  json_dump v = (Raise e, text) ->
  e = UnicodeEncodeError /\ utf8_encodable (json_dumps v) = false /\
  exists rest, json_dumps v = text ++ rest /\ rest <> [].
Proof.
  unfold json_dump, json_dumps. rewrite <- (iterencode_concat v 0). apply write_chunks_raise.
Qed.

(** *** Values whose strings encode *)

(** Every string of the value, keys included, is free of lone
    surrogates. *)
Fixpoint well_formed (v : json) : bool :=
match v with
| JFloat literal => utf8_encodable literal
| JStr s => utf8_encodable s
| JArr items => forallb well_formed items
| JObj members => forallb (fun m => utf8_encodable (fst m) && well_formed (snd m)) members
| _ => true
end.

Lemma utf8_escape_char c : is_surrogate c = false -> utf8_encodable (escape_char c) = true.
Proof.
  intros Hc. unfold escape_char.
  repeat match goal with
         | |- context [if ?b then _ else _] => destruct b eqn:?; [reflexivity|]
         end.
  destruct (c <? 32)%N eqn:Hlow.
  - assert (Hhex : forall n, (n < 16)%N -> is_surrogate (hex_digit n) = false).
    { intros n Hn. unfold hex_digit, is_surrogate. destruct (n <? 10)%N eqn:E.
      - apply andb_false_intro1, N.leb_gt. apply N.ltb_lt in E. lia.
      - apply andb_false_intro1, N.leb_gt. lia. }
    apply N.ltb_lt in Hlow.
    cbn [utf8_encodable forallb]. rewrite !Hhex; [reflexivity| |].
    + apply N.mod_lt. discriminate.
    + apply N.Div0.div_lt_upper_bound. lia.
  - cbn. rewrite Hc. reflexivity.
Qed.

Lemma utf8_encode_basestring s :
  utf8_encodable s = true -> utf8_encodable (encode_basestring s) = true.
Proof.
  intros Hs. unfold encode_basestring. change (quote :: ?r) with ([quote] ++ r).
  rewrite !utf8_encodable_app. cbn [andb]. rewrite andb_true_r.
  change (utf8_encodable [quote]) with true. cbn [andb].
  induction s as [|c s IH]; [reflexivity|].
  cbn [utf8_encodable forallb] in Hs. apply andb_prop in Hs as [Hc Hs].
  cbn [flat_map]. rewrite utf8_encodable_app, (IH Hs), andb_true_r.
  apply utf8_escape_char. destruct (is_surrogate c); [discriminate | reflexivity].
Qed.

Lemma utf8_digits ds : Forall is_digit ds -> utf8_encodable ds = true.
Proof.
  induction 1 as [|c ds Hc _ IH]; [reflexivity|].
  cbn [utf8_encodable forallb]. fold (utf8_encodable ds). rewrite IH, andb_true_r.
  apply is_digit_range in Hc. unfold is_surrogate.
  rewrite (proj2 (N.leb_gt 0xD800 c)) by lia. reflexivity.
Qed.

Lemma utf8_encode_int n : utf8_encodable (encode_int n) = true.
Proof.
  unfold encode_int. destruct (n <? 0)%Z.
  - cbn [utf8_encodable forallb]. apply (utf8_digits _ (proj1 (decimal_digits_spec _))).
  - apply (utf8_digits _ (proj1 (decimal_digits_spec _))).
Qed.

Lemma utf8_newline_indent level : utf8_encodable (newline_indent level) = true.
Proof.
  unfold newline_indent. cbn [utf8_encodable forallb].
  induction (2 * level) as [|k IH]; [reflexivity | exact IH].
Qed.

(** The dump of a value whose strings encode is text that encodes. *)
Lemma utf8_encode v : forall level, well_formed v = true -> utf8_encodable (encode level v) = true.
Proof.
  induction v as [ |b|n|literal|s|items IH|members IH] using json_induction; intros level Hv.
  - reflexivity.
  - destruct b; reflexivity.
  - apply utf8_encode_int.
  - exact Hv.
  - apply utf8_encode_basestring, Hv.
  - destruct items as [|x xs]; [reflexivity|].
    apply Forall_cons in IH as [Hx Hxs].
    cbn [well_formed forallb] in Hv. apply andb_prop in Hv as [Hvx Hvxs].
    cbn [encode]. rewrite !utf8_encodable_app, utf8_newline_indent, (Hx _ Hvx),
      utf8_newline_indent.
    cbn [andb]. rewrite andb_true_r. change (utf8_encodable (str "[")) with true.
    cbn [andb]. clear Hx Hvx.
    induction xs as [|y ys IHys]; [reflexivity|].
    apply Forall_cons in Hxs as [Hy Hys].
    cbn [forallb] in Hvxs. apply andb_prop in Hvxs as [Hvy Hvys].
    cbn [flat_map]. rewrite !utf8_encodable_app, utf8_newline_indent, (Hy _ Hvy),
      (IHys Hys Hvys). reflexivity.
  - destruct members as [|m ms]; [reflexivity|].
    apply Forall_cons in IH as [Hm Hms].
    cbn [well_formed forallb] in Hv. apply andb_prop in Hv as [Hvm Hvms].
    apply andb_prop in Hvm as [Hkey Hval].
    cbn [encode]. rewrite !utf8_encodable_app, utf8_newline_indent,
      (utf8_encode_basestring _ Hkey), (Hm _ Hval), utf8_newline_indent.
    cbn [andb]. rewrite andb_true_r. change (utf8_encodable (str "{")) with true.
    change (utf8_encodable (str ": ")) with true. cbn [andb]. clear Hm Hkey Hval.
    induction ms as [|kv kvs IHkvs]; [reflexivity|].
    apply Forall_cons in Hms as [Hkv Hkvs].
    cbn [forallb] in Hvms. apply andb_prop in Hvms as [Hvkv Hvkvs].
    apply andb_prop in Hvkv as [Hk Hv'].
    cbn [flat_map]. rewrite !utf8_encodable_app, utf8_newline_indent,
      (utf8_encode_basestring _ Hk), (Hkv _ Hv'), (IHkvs Hkvs Hvkvs). reflexivity.
Qed.

End Json.

(** ** The data lake on disk *)

Module Disk.

(** The text files of the data lake, by path; and the image files, which
    the pipeline only creates.  The files are a list: its order is the
    order in which a directory walk reports them. *)
Record disk := {
  files : list (Path * pystr);
  images : gset Path;
}.

(** Where a walk will report a file that is created, among those that
    are there: the file system decides, not the program.  [slot p names]
    is the number of files reported before [p]. *)
Class DirectoryOrder := slot : Path -> list Path -> nat.

(** A file system that reports files in the order of their creation,
    and one that reports the newest first. *)
Definition creation_order : DirectoryOrder := fun _ names => length names.
Definition newest_first : DirectoryOrder := fun _ _ => 0.

Definition path_eqb (p q : Path) : bool := bool_decide (p = q).

(** [path.open("r").read()] *)
Fixpoint read_file (fs : list (Path * pystr)) (p : Path) : option pystr :=
match fs with
| [] => None
| (q, text) :: fs' => if path_eqb q p then Some text else read_file fs' p
end.

(** The file [p], which is there, with [text] in place of what it held. *)
Fixpoint replace_file (fs : list (Path * pystr)) (p : Path) (text : pystr)
  : list (Path * pystr) :=
match fs with
| [] => []
| (q, old) :: fs' =>
    if path_eqb q p then (q, text) :: fs' else (q, old) :: replace_file fs' p text
end.

(** [path.open("w").write(text)]: the file is replaced where it is, or
    created where the file system puts it. *)
Definition write_file `{DirectoryOrder} (fs : list (Path * pystr)) (p : Path) (text : pystr)
  : list (Path * pystr) :=
  match read_file fs p with
  | Some _ => replace_file fs p text
  | None =>
      let n := slot p (map fst fs) in
      take n fs ++ (p, text) :: drop n fs
  end.

(** [list(base.rglob("*.json"))]: the files below [base] whose name ends
    in [.json], in the order of the walk. *)
Definition rglob_json (fs : list (Path * pystr)) (base : Path) : list Path :=
  map fst
    (filter (fun f => Is_true (is_under base (fst f)
                               && negb (path_eqb (fst f) base)
                               && endswith (str ".json") (name (fst f)))) fs).

Lemma path_eqb_refl p : path_eqb p p = true.
Proof. apply bool_decide_eq_true_2. reflexivity. Qed.

Lemma path_eqb_ne p q : p <> q -> path_eqb p q = false.
Proof. apply bool_decide_eq_false_2. Qed.

Lemma read_file_app fs fs' p :
  read_file (fs ++ fs') p =
    match read_file fs p with Some text => Some text | None => read_file fs' p end.
Proof.
  induction fs as [|[q old] fs IH]; [reflexivity|].
  cbn [app read_file]. destruct (path_eqb q p); [reflexivity | exact IH].
Qed.

Lemma read_file_None fs p : read_file fs p = None <-> p ∉ map fst fs.
Proof.
  induction fs as [|[q old] fs IH]; cbn [read_file map fst].
  - split; [intros _ Hin; inversion Hin | reflexivity].
  - rewrite not_elem_of_cons. unfold path_eqb. case_bool_decide as E.
    + split; [discriminate | intros [Hne _]; congruence].
    + rewrite IH. split; [intros Hn; split; [congruence | exact Hn] | intros [_ Hn]; exact Hn].
Qed.

Lemma read_file_take_drop fs n p :
  read_file fs p = None -> read_file (take n fs) p = None /\ read_file (drop n fs) p = None.
Proof.
  rewrite <- (take_drop n fs) at 1. rewrite read_file_app.
  destruct (read_file (take n fs) p); [discriminate | intros ->; split; reflexivity].
Qed.

Lemma read_replace_same fs p text old :
  read_file fs p = Some old -> read_file (replace_file fs p text) p = Some text.
Proof.
  induction fs as [|[q o] fs IH]; cbn [replace_file read_file]; [discriminate|].
  destruct (path_eqb q p) eqn:E; cbn [read_file]; rewrite E; [reflexivity | exact IH].
Qed.

Lemma read_replace_other fs p q text :
  p <> q -> read_file (replace_file fs p text) q = read_file fs q.
Proof.
  intros Hne. induction fs as [|[k o] fs IH]; [reflexivity|]. cbn [replace_file read_file].
  destruct (path_eqb k p) eqn:E; cbn [read_file].
  - apply bool_decide_eq_true_1 in E. subst k.
    rewrite (path_eqb_ne p q Hne). reflexivity.
  - destruct (path_eqb k q); [reflexivity | exact IH].
Qed.

Lemma replace_file_same fs p text : read_file fs p = Some text -> replace_file fs p text = fs.
Proof.
  induction fs as [|[k o] fs IH]; cbn [replace_file read_file]; [reflexivity|].
  destruct (path_eqb k p); [intros [= ->]; reflexivity | intros Hr; rewrite (IH Hr); reflexivity].
Qed.

Lemma map_fst_replace_file fs p text : map fst (replace_file fs p text) = map fst fs.
Proof.
  induction fs as [|[k o] fs IH]; [reflexivity|]. cbn [replace_file].
  destruct (path_eqb k p); cbn [map fst]; [reflexivity | rewrite IH; reflexivity].
Qed.

Lemma names_take_drop (fs : list (Path * pystr)) n q :
  q ∈ map fst fs <-> q ∈ map fst (take n fs) \/ q ∈ map fst (drop n fs).
Proof. rewrite <- elem_of_app, <- map_app, take_drop. reflexivity. Qed.

Section Writing.
Context `{DirectoryOrder}.

Lemma read_write_same fs p text : read_file (write_file fs p text) p = Some text.
Proof.
  unfold write_file. destruct (read_file fs p) as [old|] eqn:Hr.
  - apply (read_replace_same _ _ _ _ Hr).
  - destruct (read_file_take_drop fs (slot p (map fst fs)) p Hr) as [Ht _].
    rewrite read_file_app, Ht. cbn [read_file]. rewrite path_eqb_refl. reflexivity.
Qed.

Lemma read_write_other fs p q text :
  p <> q -> read_file (write_file fs p text) q = read_file fs q.
Proof.
  intros Hne. unfold write_file. destruct (read_file fs p) as [old|] eqn:Hr.
  - apply read_replace_other, Hne.
  - rewrite read_file_app. cbn [read_file]. rewrite (path_eqb_ne p q Hne).
    rewrite <- read_file_app, take_drop. reflexivity.
Qed.

(** Writing to a file the text that it holds changes nothing. *)
Lemma write_file_same fs p text : read_file fs p = Some text -> write_file fs p text = fs.
Proof. intros Hr. unfold write_file. rewrite Hr. apply replace_file_same, Hr. Qed.

(** The files after a write: those that were there, and the one
    written, whatever the order. *)
Lemma write_file_names fs p text q :
  q ∈ map fst (write_file fs p text) <-> q = p \/ q ∈ map fst fs.
Proof.
  unfold write_file. destruct (read_file fs p) as [old|] eqn:Hr.
  - rewrite map_fst_replace_file. split; [right; assumption|].
    intros [->|Hin]; [|exact Hin].
    destruct (decide (p ∈ map fst fs)) as [Hin|Hn]; [exact Hin|].
    apply read_file_None in Hn. congruence.
  - rewrite map_app. cbn [map fst]. rewrite elem_of_app, elem_of_cons.
    rewrite (names_take_drop fs (slot p (map fst fs)) q). tauto.
Qed.

Lemma write_file_NoDup fs p text :
  NoDup (map fst fs) -> NoDup (map fst (write_file fs p text)).
Proof.
  intros Hnd. unfold write_file. destruct (read_file fs p) as [old|] eqn:Hr.
  - rewrite map_fst_replace_file. exact Hnd.
  - apply read_file_None in Hr.
    remember (slot p (map fst fs)) as n eqn:Hn. clear Hn.
    rewrite (names_take_drop fs n p) in Hr.
    rewrite <- (take_drop n fs), map_app in Hnd. rewrite map_app. cbn [map fst].
    apply NoDup_app in Hnd as (Ht & Hdisj & Hd).
    assert (Hpt : p ∉ map fst (take n fs)) by tauto.
    assert (Hpd : p ∉ map fst (drop n fs)) by tauto.
    apply NoDup_app. split; [exact Ht|]. split.
    + intros x Hx. rewrite not_elem_of_cons. split; [congruence | apply Hdisj, Hx].
    + apply NoDup_cons. split; assumption.
Qed.

End Writing.

End Disk.
Export Disk.

(** ** Timestamps *)

Module PyDatetime.

(** A [datetime]: its calendar fields, and its offset from UTC in
    seconds when it is timezone-aware. *)
Record datetime := {
  year : Z; month : Z; day : Z;
  hour : Z; minute : Z; second : Z; microsecond : Z;
  utcoffset : option Z;
}.

Definition is_leap (y : Z) : bool :=
  ((y mod 4 =? 0) && (negb (y mod 100 =? 0) || (y mod 400 =? 0)))%Z.

Definition days_before_year (y : Z) : Z :=
  let p := (y - 1)%Z in (p * 365 + p / 4 - p / 100 + p / 400)%Z.

Definition days_in_month (y m : Z) : Z :=
  if (m =? 2)%Z then (if is_leap y then 29 else 28)%Z
  else if ((m =? 4) || (m =? 6) || (m =? 9) || (m =? 11))%Z then 30%Z
  else 31%Z.

Definition days_before_month (y m : Z) : Z :=
  fold_left (fun acc k => (acc + days_in_month y (Z.of_nat k))%Z)
            (seq 1 (Z.to_nat (m - 1))) 0%Z.

(** [date.toordinal()] *)
Definition ymd2ord (y m d : Z) : Z :=
  (days_before_year y + days_before_month y m + d)%Z.

(** The microseconds from the start of year 1 to [dt], read at the
    offset [off]. *)
Definition instant (dt : datetime) (off : Z) : Z :=
  (((ymd2ord (year dt) (month dt) (day dt) * 86400
     + hour dt * 3600 + minute dt * 60 + second dt - off) * 1000000)
   + microsecond dt)%Z.

(** The order of two datetimes.  Two naive ones compare by their fields,
    two aware ones by the instants they denote; a naive one and an aware
    one do not compare. *)
Definition dt_compare (a b : datetime) : res comparison :=
  match utcoffset a, utcoffset b with
  | None, None => Ok (instant a 0 ?= instant b 0)%Z
  | Some oa, Some ob => Ok (instant a oa ?= instant b ob)%Z
  | _, _ => Raise TypeError
  end.

(** [a < b] *)
Definition dt_lt (a b : datetime) : res bool :=
  c ← dt_compare a b; Ok (match c with Lt => true | _ => false end).

(** [a > b] *)
Definition dt_gt (a b : datetime) : res bool :=
  c ← dt_compare a b; Ok (match c with Gt => true | _ => false end).

(** [n] in decimal, zero-padded to [width] digits *)
Definition zfill (width : nat) (n : Z) : pystr :=
  let ds := Json.decimal_digits (Z.to_N n) in
  repeat 48%N (width - length ds) ++ ds.

(** [dt.date().isoformat()] *)
Definition date_isoformat (dt : datetime) : pystr :=
  zfill 4 (year dt) ++ str "-" ++ zfill 2 (month dt) ++ str "-" ++ zfill 2 (day dt).

Definition offset_isoformat (off : Z) : pystr :=
  let a := Z.abs off in
  (if (off <? 0)%Z then str "-" else str "+")
  ++ zfill 2 (a / 3600) ++ str ":" ++ zfill 2 ((a mod 3600) / 60)
  ++ (if (a mod 60 =? 0)%Z then [] else str ":" ++ zfill 2 (a mod 60)).

(** [dt.isoformat()] *)
Definition isoformat (dt : datetime) : pystr :=
  date_isoformat dt ++ str "T"
  ++ zfill 2 (hour dt) ++ str ":" ++ zfill 2 (minute dt) ++ str ":" ++ zfill 2 (second dt)
  ++ (if (microsecond dt =? 0)%Z then [] else str "." ++ zfill 6 (microsecond dt))
  ++ match utcoffset dt with
     | Some off => offset_isoformat off
     | None => []
     end.

End PyDatetime.
Export PyDatetime.

(** ** Channel Scraper and Partition Writer *)

Module Scraper.

Import Json Slug.

(** What the platform hands over for one post ([telethon]'s [Message]). *)
Module Tl.
Record Message := {
  id : Z;
  date : option datetime;
  message : option pystr;
  media : bool;             (* [bool(message.media)] *)
  photo : bool;             (* [message.photo] is there *)
  views : option Z;
  forwards : option Z;
}.
End Tl.
Abbreviation Message := Tl.Message.

(** One step of [client.iter_messages]: the next message, or the
    connection failing. *)
Inductive fetch : Type :=
| Fetched (m : Message)
| Dropped.

(** The client: the history each channel serves, in the platform's
    order, and whether the media of a message downloads. *)
Record TelegramClient := {
  history : pystr -> list fetch;
  download_media : pystr -> Message -> bool;
}.

(** scraper.py, [TelegramMessageRecord] *)
Record TelegramMessageRecord := {
  message_id : Z;
  channel_name : pystr;
  message_date : pystr;
  message_text : option pystr;
  has_media : bool;
  image_path : option pystr;
  views : option Z;
  forwards : option Z;
}.

(** scraper.py, [build_message_record]; [message.date], which the caller
    has checked is there, is passed alongside. *)
Definition build_message_record (message : Message) (channel_name : pystr)
    (image_path : option Path) (message_date : datetime) : TelegramMessageRecord :=
  {| message_id := Tl.id message;
     channel_name := channel_name;
     message_date := isoformat message_date;
     message_text := Tl.message message;
     has_media := Tl.media message;
     image_path := path_str <$> image_path;
     views := Tl.views message;
     forwards := Tl.forwards message |}.

Definition opt_str (o : option pystr) : json :=
  match o with Some s => JStr s | None => JNull end.

Definition opt_int (o : option Z) : json :=
  match o with Some n => JInt n | None => JNull end.

(** [dataclasses.asdict(record)] *)
Definition asdict (r : TelegramMessageRecord) : json :=
  JObj [ (str "message_id", JInt (message_id r));
         (str "channel_name", JStr (channel_name r));
         (str "message_date", JStr (message_date r));
         (str "message_text", opt_str (message_text r));
         (str "has_media", JBool (has_media r));
         (str "image_path", opt_str (image_path r));
         (str "views", opt_int (views r));
         (str "forwards", opt_int (forwards r)) ].

(** [records_by_day[key].append(record)] on a [defaultdict(list)] *)
Fixpoint bucket_append (buckets : list (Path * list TelegramMessageRecord))
    (key : Path) (record : TelegramMessageRecord)
  : list (Path * list TelegramMessageRecord) :=
match buckets with
| [] => [(key, [record])]
| (k, rs) :: rest =>
    if path_eqb k key then (k, rs ++ [record]) :: rest
    else (k, rs) :: bucket_append rest key record
end.

Section Scrape.
Context `{UnicodeDB} `{DirectoryOrder}.

(** scraper.py, [get_partition_path] *)
Definition get_partition_path (base_path : Path) (message_date : datetime)
    (channel_name : pystr) : Path :=
  div (div (div base_path (str "telegram_messages")) (date_isoformat message_date))
      (slugify channel_name ++ str ".json").

(** [since and message.date < since] *)
Definition before (since : option datetime) (d : datetime) : res bool :=
  match since with
  | Some s => dt_lt d s
  | None => Ok false
  end.

(** [until and message.date > until] *)
Definition after (until : option datetime) (d : datetime) : res bool :=
  match until with
  | Some u => dt_gt d u
  | None => Ok false
  end.

(** The state of one channel's iteration: the records bucketed so far
    and the images on disk. *)
Record scrape_state := {
  records_by_day : list (Path * list TelegramMessageRecord);
  downloaded : gset Path;
}.

(** The body of the loop of [scrape_channel], for one message.  It
    fails on a comparison that raises or on a download that fails, both
    before anything is added to the state. *)
Definition scrape_message (client : TelegramClient) (channel : pystr)
    (raw_path image_dir : Path) (since until : option datetime)
    (message : Message) (st : scrape_state) : res scrape_state :=
  match Tl.date message with
  | None => Ok st
  | Some d =>
      too_early ← before since d;
      if too_early : bool then Ok st else
      too_late ← after until d;
      if too_late : bool then Ok st else
      '(image_path, imgs) ←
        (if Tl.photo message then
           let image_path := div image_dir (encode_int (Tl.id message) ++ str ".jpg") in
           if download_media client channel message
           then Ok (Some image_path, {[ image_path ]} ∪ downloaded st)
           else Raise ConnectionError
         else Ok (None, downloaded st));
      let record := build_message_record message channel image_path d in
      let partition_path := get_partition_path raw_path d channel in
      Ok {| records_by_day := bucket_append (records_by_day st) partition_path record;
            downloaded := imgs |}
  end.

(** [async for message in client.iter_messages(channel, limit=limit)]:
    the state when the iteration ends, or the failure and the images
    that were on disk when it struck. *)
Fixpoint scrape_loop (client : TelegramClient) (channel : pystr)
    (raw_path image_dir : Path) (since until : option datetime)
    (limit : option nat) (feed : list fetch) (st : scrape_state)
  : res scrape_state * gset Path :=
match limit with
| Some O => (Ok st, downloaded st)
| _ =>
    match feed with
    | [] => (Ok st, downloaded st)
    | Dropped :: _ => (Raise ConnectionError, downloaded st)
    | Fetched message :: rest =>
        match scrape_message client channel raw_path image_dir since until message st with
        | Ok st' =>
            scrape_loop client channel raw_path image_dir since until
              (pred <$> limit) rest st'
        | Raise e => (Raise e, downloaded st)
        end
    end
end.

(** The body of the flush: one partition file, opened for writing and
    filled by [json.dump].  When the dump raises, the file stays with
    what was written of it. *)
Definition write_partition (fs : list (Path * pystr)) (partition_path : Path)
    (records : list TelegramMessageRecord) : res unit * list (Path * pystr) :=
  let '(r, text) := json_dump (JArr (map asdict records)) in
  (r, write_file fs partition_path text).

(** [for partition_path, records in records_by_day.items(): ...]: the
    files one after the other, up to the first that fails. *)
Fixpoint flush (buckets : list (Path * list TelegramMessageRecord))
    (fs : list (Path * pystr)) : res unit * list (Path * pystr) :=
match buckets with
| [] => (Ok tt, fs)
| (partition_path, records) :: rest =>
    match write_partition fs partition_path records with
    | (Ok _, fs') => flush rest fs'
    | (Raise e, fs') => (Raise e, fs')
    end
end.

(** scraper.py, [scrape_channel] *)
Definition scrape_channel (client : TelegramClient) (channel : pystr)
    (raw_path images_path : Path) (limit : option nat)
    (since until : option datetime) (d : disk) : res unit * disk :=
  let channel_slug := slugify channel in
  let image_dir := div images_path channel_slug in
  match scrape_loop client channel raw_path image_dir since until limit
          (history client channel)
          {| records_by_day := []; downloaded := images d |} with
  | (Ok st, imgs) =>
      let '(r, fs) := flush (records_by_day st) (files d) in
      (r, {| files := fs; images := imgs |})
  | (Raise e, imgs) =>
      (Raise e, {| files := files d; images := imgs |})
  end.

(** The loop of [run_scraper] over the channels. *)
Fixpoint scrape_channels (client : TelegramClient) (channels : list pystr)
    (raw_path images_path : Path) (limit : option nat)
    (since until : option datetime) (d : disk) : res unit * disk :=
match channels with
| [] => (Ok tt, d)
| channel :: rest =>
    match scrape_channel client channel raw_path images_path limit since until d with
    | (Ok _, d') => scrape_channels client rest raw_path images_path limit since until d'
    | (Raise e, d') => (Raise e, d')
    end
end.

(** scraper.py, [parse_channels] *)
Definition parse_channels (channels_raw : pystr) : list pystr :=
  filter (fun c => c <> []) (map (strip_by isspace) (split_on 44%N channels_raw)).

(** What [run_scraper] takes from the environment and the command line
    (the bounds already parsed). *)
Record settings := {
  api_id : option pystr;
  api_hash : option pystr;
  channels_raw : pystr;
  data_lake_path : Path;
  images_root : Path;
  limit_arg : option nat;
  since_arg : option datetime;
  until_arg : option datetime;
}.

(** [not value] for a variable of the environment *)
Definition unset (value : option pystr) : bool :=
  match value with
  | None | Some [] => true
  | Some _ => false
  end.

(** scraper.py, [run_scraper] *)
Definition run_scraper (args : settings) (client : TelegramClient) (d : disk)
  : res unit * disk :=
  if unset (api_id args) || unset (api_hash args) then (Raise ValueError, d)
  else
    match py_int (default [] (api_id args)) with
    | None => (Raise ValueError, d)
    | Some _ =>
        scrape_channels client (parse_channels (channels_raw args))
          (data_lake_path args) (images_root args)
          (limit_arg args) (since_arg args) (until_arg args) d
    end.

End Scrape.

(** *** Buckets *)

(** The records of the buckets, each with the path of its bucket. *)
Definition bucketed (buckets : list (Path * list TelegramMessageRecord))
  : list (Path * TelegramMessageRecord) :=
  flat_map (fun b => map (fun r => (fst b, r)) (snd b)) buckets.

Lemma bucketed_append buckets key record q x :
  (q, x) ∈ bucketed (bucket_append buckets key record)
  <-> (q, x) ∈ bucketed buckets \/ (q, x) = (key, record).
Proof.
  induction buckets as [|[k rs] rest IH]; cbn [bucket_append].
  - unfold bucketed. cbn. rewrite list_elem_of_singleton.
    split; [intros ->; right; reflexivity | intros [Hin| ->]; [inversion Hin | reflexivity]].
  - unfold path_eqb. destruct (bool_decide_reflect (k = key)) as [->|Hne].
    + unfold bucketed. cbn [flat_map fst snd]. rewrite !elem_of_app, map_app, elem_of_app.
      cbn [map]. rewrite list_elem_of_singleton. tauto.
    + unfold bucketed in *. cbn [flat_map fst snd]. rewrite !elem_of_app, IH. tauto.
Qed.

Lemma length_bucketed_append buckets key record :
  length (bucketed (bucket_append buckets key record)) = S (length (bucketed buckets)).
Proof.
  induction buckets as [|[k rs] rest IH]; cbn [bucket_append]; [reflexivity|].
  unfold path_eqb. destruct (bool_decide (k = key)).
  - unfold bucketed. cbn [flat_map fst snd]. rewrite !length_app, !length_map, length_app.
    cbn [length]. lia.
  - unfold bucketed in *. cbn [flat_map fst snd]. rewrite !length_app, IH. lia.
Qed.

Section ScrapeFacts.
Context `{UnicodeDB}.
Variables (client : TelegramClient) (channel : pystr) (raw_path image_dir : Path).
Variables (since until : option datetime).

(** The messages that the iteration hands to the loop body. *)
Fixpoint iterated (limit : option nat) (feed : list fetch) : list Message :=
match limit with
| Some O => []
| _ =>
    match feed with
    | Fetched m :: rest => m :: iterated (pred <$> limit) rest
    | _ => []
    end
end.

(** [d] is not strictly before [since], and not strictly after [until]. *)
Definition within_bounds (d : datetime) : Prop :=
  before since d = Ok false /\ after until d = Ok false.

(** [d] is strictly outside the interval. *)
Definition outside_bounds (d : datetime) : Prop :=
  before since d = Ok true \/ (before since d = Ok false /\ after until d = Ok true).

(** Where the image of a message goes, when it has one. *)
Definition image_of (m : Message) : option Path :=
  if Tl.photo m then Some (div image_dir (encode_int (Tl.id m) ++ str ".jpg")) else None.

#[local] Abbreviation body := (scrape_message client channel raw_path image_dir since until).
#[local] Abbreviation loop := (scrape_loop client channel raw_path image_dir since until).

Lemma scrape_message_undated m st : Tl.date m = None -> body m st = Ok st.
Proof. intros E. unfold scrape_message. rewrite E. reflexivity. Qed.

Lemma scrape_message_outside m d st :
  Tl.date m = Some d -> outside_bounds d -> body m st = Ok st.
Proof.
  intros E [Hb|[Hb Ha]]; unfold scrape_message; rewrite E, Hb; cbn; [reflexivity|].
  rewrite Ha. reflexivity.
Qed.

Lemma scrape_message_kept m d st st' :
  Tl.date m = Some d -> within_bounds d -> body m st = Ok st' ->
  records_by_day st' =
    bucket_append (records_by_day st) (get_partition_path raw_path d channel)
      (build_message_record m channel (image_of m) d).
Proof.
  intros E [Hb Ha]. unfold scrape_message, image_of. rewrite E, Hb. cbn. rewrite Ha. cbn.
  destruct (Tl.photo m); cbn.
  - destruct (download_media client channel m); cbn; [|discriminate].
    intros [= <-]. reflexivity.
  - intros [= <-]. reflexivity.
Qed.

(** What the body did when it returned: nothing, for a message without
    date or outside the bounds; one record more, otherwise. *)
Lemma scrape_message_ok m st st' :
  body m st = Ok st' ->
  (records_by_day st' = records_by_day st /\
   (Tl.date m = None \/ exists d, Tl.date m = Some d /\ outside_bounds d))
  \/ exists d, Tl.date m = Some d /\ within_bounds d /\
       records_by_day st' =
         bucket_append (records_by_day st) (get_partition_path raw_path d channel)
           (build_message_record m channel (image_of m) d).
Proof.
  intros Hbody. destruct (Tl.date m) as [d|] eqn:E.
  - pose proof Hbody as Hb. unfold scrape_message in Hb. rewrite E in Hb.
    destruct (before since d) as [[|]|e] eqn:Eb; cbn in Hb; [| |discriminate].
    + injection Hb as <-. left. split; [reflexivity|]. right. exists d.
      split; [reflexivity|]. left. exact Eb.
    + destruct (after until d) as [[|]|e] eqn:Ea; cbn in Hb; [| |discriminate].
      * injection Hb as <-. left. split; [reflexivity|]. right. exists d.
        split; [reflexivity|]. right. split; assumption.
      * right. exists d. split; [reflexivity|]. split; [split; assumption|].
        apply (scrape_message_kept m d st st' E); [split; assumption | exact Hbody].
  - rewrite (scrape_message_undated m st E) in Hbody. injection Hbody as <-.
    left. split; [reflexivity|]. left. reflexivity.
Qed.

Lemma scrape_loop_records limit feed st st' imgs :
  loop limit feed st = (Ok st', imgs) ->
  (forall p r, (p, r) ∈ bucketed (records_by_day st') ->
     (p, r) ∈ bucketed (records_by_day st) \/
     exists m d, m ∈ iterated limit feed /\ Tl.date m = Some d /\ within_bounds d /\
       p = get_partition_path raw_path d channel /\
       r = build_message_record m channel (image_of m) d) /\
  (forall p r, (p, r) ∈ bucketed (records_by_day st) ->
     (p, r) ∈ bucketed (records_by_day st')) /\
  (forall m d, m ∈ iterated limit feed -> Tl.date m = Some d -> within_bounds d ->
     (get_partition_path raw_path d channel,
      build_message_record m channel (image_of m) d) ∈ bucketed (records_by_day st')).
Proof.
  revert limit st. induction feed as [|[m|] rest IH]; intros limit st Hloop.
  - assert (Hst : st' = st) by (destruct limit as [[|n]|]; cbn in Hloop; congruence).
    assert (Hit : iterated limit [] = []) by (destruct limit as [[|n]|]; reflexivity).
    subst st'. rewrite Hit. split; [auto|]. split; [auto|]. intros m d Hin. inversion Hin.
  - destruct (decide (limit = Some O)) as [->|Hlim].
    { cbn in Hloop. injection Hloop as <- _. cbn [iterated].
      split; [auto|]. split; [auto|]. intros m' d Hin. inversion Hin. }
    assert (Hstep : loop limit (Fetched m :: rest) st =
              match body m st with
              | Ok st1 => loop (pred <$> limit) rest st1
              | Raise e => (Raise e, downloaded st)
              end) by (destruct limit as [[|n]|]; [congruence|reflexivity..]).
    assert (Hit : iterated limit (Fetched m :: rest) = m :: iterated (pred <$> limit) rest)
      by (destruct limit as [[|n]|]; [congruence|reflexivity..]).
    rewrite Hstep in Hloop. rewrite Hit.
    destruct (body m st) as [st1|e] eqn:Hbody; [|discriminate].
    destruct (IH _ _ Hloop) as (Hfrom & Hkeep & Hto).
    destruct (scrape_message_ok m st st1 Hbody) as [[Hsame Hwhy]|(d & Hd & Hin & Happ)].
    + rewrite Hsame in *. split; [|split].
      * intros p r Hpr. destruct (Hfrom p r Hpr) as [Hold|(m' & d & Hm' & Hrest)];
          [left; exact Hold|].
        right. exists m', d. split; [right; exact Hm' | exact Hrest].
      * exact Hkeep.
      * intros m' d Hm' Hd Hw. apply elem_of_cons in Hm' as [->|Hm']; [|eauto].
        exfalso. destruct Hwhy as [Hnone|(d' & Hd' & Hout)]; [congruence|].
        assert (d' = d) by congruence. subst d'.
        destruct Hw as [Hb Ha]. destruct Hout as [Hb'|[_ Ha']]; congruence.
    + split; [|split].
      * intros p r Hpr. destruct (Hfrom p r Hpr) as [Hold|(m' & d' & Hm' & Hrest)].
        -- rewrite Happ in Hold. apply bucketed_append in Hold as [Hold|Heq];
             [left; exact Hold|].
           injection Heq as -> ->. right. exists m, d.
           split; [left|]. repeat split; try assumption; apply Hin.
        -- right. exists m', d'. split; [right; exact Hm' | exact Hrest].
      * intros p r Hpr. apply Hkeep. rewrite Happ. apply bucketed_append. left. exact Hpr.
      * intros m' d' Hm' Hd' Hw. apply elem_of_cons in Hm' as [->|Hm']; [|eauto].
        assert (d' = d) by congruence. subst d'.
        apply Hkeep. rewrite Happ. apply bucketed_append. right. reflexivity.
  - destruct limit as [[|n]|]; cbn in Hloop; [|discriminate..].
    injection Hloop as <- _. cbn [iterated].
    split; [auto|]. split; [auto|]. intros m' d Hin. inversion Hin.
Qed.

Lemma before_spec d :
  before since d = Ok false <->
  forall s, since = Some s -> exists c, dt_compare d s = Ok c /\ c <> Lt.
Proof.
  unfold before, dt_lt. destruct since as [s|]; [|split; [intros _ s' [=] | reflexivity]].
  destruct (dt_compare d s) as [c|e] eqn:E; cbn.
  - split.
    + intros Hc s' [= <-]. exists c. split; [exact E|]. destruct c; congruence.
    + intros Hs. destruct (Hs s eq_refl) as (c' & Hc' & Hne).
      rewrite E in Hc'. injection Hc' as <-. destruct c; congruence.
  - split; [discriminate|]. intros Hs. destruct (Hs s eq_refl) as (c' & Hc' & _).
    rewrite E in Hc'. discriminate.
Qed.

Lemma after_spec d :
  after until d = Ok false <->
  forall u, until = Some u -> exists c, dt_compare d u = Ok c /\ c <> Gt.
Proof.
  unfold after, dt_gt. destruct until as [u|]; [|split; [intros _ u' [=] | reflexivity]].
  destruct (dt_compare d u) as [c|e] eqn:E; cbn.
  - split.
    + intros Hc u' [= <-]. exists c. split; [exact E|]. destruct c; congruence.
    + intros Hu. destruct (Hu u eq_refl) as (c' & Hc' & Hne).
      rewrite E in Hc'. injection Hc' as <-. destruct c; congruence.
  - split; [discriminate|]. intros Hu. destruct (Hu u eq_refl) as (c' & Hc' & _).
    rewrite E in Hc'. discriminate.
Qed.

(** C4: when the iteration of a channel completes, every record it
    bucketed comes from an iterated message whose timestamp is neither
    before [since] nor after [until], and every iterated message with
    such a timestamp has its record in the bucket of its day; a
    timestamp equal to a bound is inside; the loop body leaves the state
    as it was for a message without timestamp and for one strictly
    outside the bounds. *)
Theorem time_bound_filtering limit feed imgs0 st imgs :
  loop limit feed {| records_by_day := []; downloaded := imgs0 |} = (Ok st, imgs) ->
  (forall p r, (p, r) ∈ bucketed (records_by_day st) ->
     exists m d, m ∈ iterated limit feed /\ Tl.date m = Some d /\
       (forall s, since = Some s -> exists c, dt_compare d s = Ok c /\ c <> Lt) /\
       (forall u, until = Some u -> exists c, dt_compare d u = Ok c /\ c <> Gt) /\
       p = get_partition_path raw_path d channel /\
       r = build_message_record m channel (image_of m) d) /\
  (forall m d, m ∈ iterated limit feed -> Tl.date m = Some d ->
     (forall s, since = Some s -> exists c, dt_compare d s = Ok c /\ (c = Eq \/ c = Gt)) ->
     (forall u, until = Some u -> exists c, dt_compare d u = Ok c /\ (c = Eq \/ c = Lt)) ->
     (get_partition_path raw_path d channel,
      build_message_record m channel (image_of m) d) ∈ bucketed (records_by_day st)) /\
  (forall m st1, Tl.date m = None -> body m st1 = Ok st1) /\
  (forall m d st1, Tl.date m = Some d ->
     (exists s, since = Some s /\ dt_compare d s = Ok Lt) -> body m st1 = Ok st1) /\
  (forall m d st1, Tl.date m = Some d -> before since d = Ok false ->
     (exists u, until = Some u /\ dt_compare d u = Ok Gt) -> body m st1 = Ok st1).
Proof.
  intros Hloop.
  destruct (scrape_loop_records limit feed _ st imgs Hloop) as (Hfrom & _ & Hto).
  repeat apply conj.
  - intros p r Hpr. destruct (Hfrom p r Hpr) as [Hold|(m & d & Hm & Hd & [Hb Ha] & Hp & Hr)].
    + inversion Hold.
    + exists m, d. split; [exact Hm|]. split; [exact Hd|].
      split; [apply before_spec, Hb|]. split; [apply after_spec, Ha|]. split; assumption.
  - intros m d Hm Hd Hs Hu. apply (Hto m d Hm Hd). split.
    + apply before_spec. intros s Es. destruct (Hs s Es) as (c & Hc & Hcase).
      exists c. split; [exact Hc|]. destruct Hcase as [->| ->]; discriminate.
    + apply after_spec. intros u Eu. destruct (Hu u Eu) as (c & Hc & Hcase).
      exists c. split; [exact Hc|]. destruct Hcase as [->| ->]; discriminate.
  - exact scrape_message_undated.
  - intros m d st1 Hd (s & Es & Hc). apply (scrape_message_outside m d st1 Hd).
    left. unfold before, dt_lt. rewrite Es, Hc. reflexivity.
  - intros m d st1 Hd Hb (u & Eu & Hc). apply (scrape_message_outside m d st1 Hd).
    right. split; [exact Hb|]. unfold after, dt_gt. rewrite Eu, Hc. reflexivity.
Qed.

(** A connection that drops, with no limit on the iteration, aborts it. *)
Lemma scrape_loop_dropped feed st :
  Dropped ∈ feed -> exists e imgs, loop None feed st = (Raise e, imgs).
Proof.
  revert st. induction feed as [|[m|] rest IH]; intros st Hin.
  - inversion Hin.
  - apply elem_of_cons in Hin as [Heq|Hin]; [discriminate|].
    cbn [scrape_loop fmap option_fmap option_map].
    destruct (body m st) as [st1|e]; [apply IH, Hin | eauto].
  - cbn. eauto.
Qed.

(** So does a photo that fails to download, on a message within the
    bounds. *)
Lemma scrape_loop_download_fails feed st m d :
  Fetched m ∈ feed -> Tl.date m = Some d -> within_bounds d ->
  Tl.photo m = true -> download_media client channel m = false ->
  exists e imgs, loop None feed st = (Raise e, imgs).
Proof.
  intros Hin Hd [Hb Ha] Hp Hdl. revert st.
  induction feed as [|[m'|] rest IH]; intros st.
  - inversion Hin.
  - cbn [scrape_loop fmap option_fmap option_map].
    apply elem_of_cons in Hin as [[= <-]|Hin].
    + unfold scrape_message. rewrite Hd, Hb. cbn. rewrite Ha. cbn. rewrite Hp, Hdl. cbn. eauto.
    + destruct (body m' st) as [st1|e]; [apply (IH Hin) | eauto].
  - cbn. eauto.
Qed.

End ScrapeFacts.

(** *** One channel after another *)

Section ChannelFacts.
Context `{UnicodeDB} `{DirectoryOrder}.
Variables (client : TelegramClient) (raw_path images_path : Path).
Variables (limit : option nat) (since until : option datetime).

#[local] Abbreviation scrape1 :=
  (fun channel => scrape_channel client channel raw_path images_path limit since until).
#[local] Abbreviation scrape_all :=
  (fun channels => scrape_channels client channels raw_path images_path limit since until).
#[local] Abbreviation iteration :=
  (fun channel (d : disk) =>
     scrape_loop client channel raw_path (div images_path (slugify channel)) since until
       limit (history client channel)
       {| records_by_day := []; downloaded := images d |}).

(** The text of a partition file that is written whole. *)
Definition partition_dump (records : list TelegramMessageRecord) : pystr :=
  json_dumps (JArr (map asdict records)).

(** What a flush that ends well has written. *)
Definition flushed (buckets : list (Path * list TelegramMessageRecord))
    (fs : list (Path * pystr)) : list (Path * pystr) :=
  fold_left (fun fs b => write_file fs (fst b) (partition_dump (snd b))) buckets fs.

Lemma write_partition_ok fs p records :
  utf8_encodable (partition_dump records) = true ->
  write_partition fs p records = (Ok tt, write_file fs p (partition_dump records)).
Proof.
  intros Hok. unfold write_partition, partition_dump in *. rewrite (json_dump_ok _ Hok).
  reflexivity.
Qed.

Lemma write_partition_inv fs p records u fs' :
  write_partition fs p records = (Ok u, fs') ->
  fs' = write_file fs p (partition_dump records) /\
  utf8_encodable (partition_dump records) = true.
Proof.
  unfold write_partition, partition_dump.
  destruct (json_dump _) as [r text] eqn:Hdump. intros [= -> <-].
  apply json_dump_inv in Hdump as [-> Hok]. split; [reflexivity | exact Hok].
Qed.

Lemma flush_ok buckets fs u fs' :
  flush buckets fs = (Ok u, fs') ->
  fs' = flushed buckets fs /\
  Forall (fun b => utf8_encodable (partition_dump (snd b)) = true) buckets.
Proof.
  revert fs. induction buckets as [|[p rs] buckets IH]; intros fs.
  - intros [= _ <-]. split; [reflexivity | constructor].
  - cbn [flush]. destruct (write_partition fs p rs) as [[[]|e] fs1] eqn:Hw; [|discriminate].
    apply write_partition_inv in Hw as [-> Hok]. intros Hrest.
    destruct (IH _ Hrest) as [-> Hall]. split; [reflexivity|].
    constructor; [exact Hok | exact Hall].
Qed.

Lemma flush_encodable buckets fs :
  Forall (fun b => utf8_encodable (partition_dump (snd b)) = true) buckets ->
  flush buckets fs = (Ok tt, flushed buckets fs).
Proof.
  intros Hall. revert fs. induction Hall as [|[p rs] buckets Hok _ IH]; intros fs; [reflexivity|].
  cbn [flush]. rewrite (write_partition_ok fs p rs Hok). apply IH.
Qed.

Lemma scrape_channel_aborted channel d e imgs :
  iteration channel d = (Raise e, imgs) ->
  scrape1 channel d = (Raise e, {| files := files d; images := imgs |}).
Proof. intros Hloop. unfold scrape_channel. rewrite Hloop. reflexivity. Qed.

Lemma scrape_channel_ok channel d d' :
  scrape1 channel d = (Ok tt, d') ->
  exists st imgs,
    iteration channel d = (Ok st, imgs) /\
    flush (records_by_day st) (files d) = (Ok tt, files d') /\
    images d' = imgs.
Proof.
  unfold scrape_channel. destruct (scrape_loop _ _ _ _ _ _ _ _ _) as [[st|e'] imgs].
  - destruct (flush _ _) as [r fs] eqn:Hflush. intros [= -> <-].
    exists st, imgs. split; [reflexivity|]. split; [exact Hflush | reflexivity].
  - discriminate.
Qed.

Lemma scrape_channel_written channel d d' :
  scrape1 channel d = (Ok tt, d') ->
  exists st imgs,
    iteration channel d = (Ok st, imgs) /\
    files d' = flushed (records_by_day st) (files d) /\
    Forall (fun b => utf8_encodable (partition_dump (snd b)) = true) (records_by_day st) /\
    images d' = imgs.
Proof.
  intros (st & imgs & Hloop & Hflush & Himgs)%scrape_channel_ok.
  apply flush_ok in Hflush as [Hfiles Hall]. exists st, imgs. repeat split; assumption.
Qed.

Lemma scrape_channels_app done rest d :
  scrape_all (done ++ rest) d =
    match scrape_all done d with
    | (Ok _, d1) => scrape_all rest d1
    | (Raise e, d1) => (Raise e, d1)
    end.
Proof.
  revert d. induction done as [|c done IH]; intros d; [reflexivity|].
  cbn [app scrape_channels].
  destruct (scrape_channel _ _ _ _ _ _ _ _) as [[[]|e] d1]; [apply IH | reflexivity].
Qed.

(** C6: a channel whose iteration aborts raises what the iteration
    raised and leaves the partition files as they were; the files of a
    channel are written by the flush of the buckets that its completed
    iteration filled, not before; the channels done before a channel
    whose iteration aborts keep what they wrote; and a dropped
    connection or a failed photo download (no limit set) does abort the
    iteration, and with it the channel. *)
Theorem all_or_nothing_flush :
  (forall channel d e imgs,
     iteration channel d = (Raise e, imgs) ->
     scrape1 channel d = (Raise e, {| files := files d; images := imgs |})) /\
  (forall channel d d',
     scrape1 channel d = (Ok tt, d') ->
     exists st imgs,
       iteration channel d = (Ok st, imgs) /\
       flush (records_by_day st) (files d) = (Ok tt, files d')) /\
  (forall done channel rest d d1 e imgs,
     scrape_all done d = (Ok tt, d1) ->
     iteration channel d1 = (Raise e, imgs) ->
     exists d2,
       scrape_all (done ++ channel :: rest) d = (Raise e, d2) /\ files d2 = files d1) /\
  (forall channel d,
     limit = None -> Dropped ∈ history client channel ->
     exists e d', scrape1 channel d = (Raise e, d') /\ files d' = files d) /\
  (forall channel d m dt,
     limit = None -> Fetched m ∈ history client channel ->
     Tl.date m = Some dt -> within_bounds since until dt ->
     Tl.photo m = true -> download_media client channel m = false ->
     exists e d', scrape1 channel d = (Raise e, d') /\ files d' = files d).
Proof.
  repeat apply conj.
  - exact scrape_channel_aborted.
  - intros channel d d' (st & imgs & Hloop & Hflush & _)%scrape_channel_ok. eauto.
  - intros done channel rest d d1 e imgs Hdone Hfail.
    exists {| files := files d1; images := imgs |}. split; [|reflexivity].
    rewrite scrape_channels_app, Hdone. cbn [scrape_channels].
    rewrite (scrape_channel_aborted channel d1 e imgs Hfail). reflexivity.
  - intros channel d Hlimit Hin.
    destruct (scrape_loop_dropped client channel raw_path
                (div images_path (slugify channel)) since until
                (history client channel)
                {| records_by_day := []; downloaded := images d |} Hin) as (e & imgs & Hloop).
    assert (Haborts : iteration channel d = (Raise e, imgs)) by (rewrite Hlimit; exact Hloop).
    rewrite (scrape_channel_aborted channel d e imgs Haborts). eauto.
  - intros channel d m dt Hlimit Hin Hd Hw Hp Hdl.
    destruct (scrape_loop_download_fails client channel raw_path
                (div images_path (slugify channel)) since until
                (history client channel)
                {| records_by_day := []; downloaded := images d |} m dt Hin Hd Hw Hp Hdl)
      as (e & imgs & Hloop).
    assert (Haborts : iteration channel d = (Raise e, imgs)) by (rewrite Hlimit; exact Hloop).
    rewrite (scrape_channel_aborted channel d e imgs Haborts). eauto.
Qed.

End ChannelFacts.

Lemma run_scraper_channels `{UnicodeDB} `{DirectoryOrder} (args : settings)
    (client : TelegramClient) (d : disk) (n : Z) :
  unset (api_id args) = false -> unset (api_hash args) = false ->
  py_int (default [] (api_id args)) = Some n ->
  run_scraper args client d =
    scrape_channels client (parse_channels (channels_raw args))
      (data_lake_path args) (images_root args)
      (limit_arg args) (since_arg args) (until_arg args) d.
Proof. intros Hid Hhash Hint. unfold run_scraper. rewrite Hid, Hhash, Hint. reflexivity. Qed.

(** *** A January of two channels *)

Definition utc (y mo d h mi s : Z) : datetime :=
  {| year := y; month := mo; day := d; hour := h; minute := mi; second := s;
     microsecond := 0; utcoffset := Some 0%Z |}.

Definition post (i : Z) (when : option datetime) (with_photo : bool) : Message :=
  {| Tl.id := i; Tl.date := when; Tl.message := Some (str "stock update");
     Tl.media := with_photo; Tl.photo := with_photo;
     Tl.views := Some 12%Z; Tl.forwards := None |}.

Definition january_first : datetime := utc 2024 1 1 0 0 0.
Definition january_last : datetime := utc 2024 1 31 23 59 59.

(** Newest first: a post of February, one at the very end of January,
    one without timestamp, one at the very start of January, one of
    December. *)
Definition chemed_feed : list fetch :=
  [ Fetched (post 5 (Some (utc 2024 2 1 0 0 0)) false);
    Fetched (post 4 (Some january_last) true);
    Fetched (post 3 None true);
    Fetched (post 2 (Some january_first) false);
    Fetched (post 1 (Some (utc 2023 12 31 23 59 59)) false) ].

(** The media of the second channel do not download. *)
Definition january_client : TelegramClient :=
  {| history := fun channel =>
       if pystr_eqb channel (str "chemed") then chemed_feed
       else [ Fetched (post 9 (Some january_first) true) ];
     download_media := fun channel _ => pystr_eqb channel (str "chemed") |}.

Definition lake : Path := [str "data"; str "raw"].
Definition image_root : Path := [str "data"; str "raw"; str "images"].
Definition empty_disk : disk := {| files := []; images := ∅ |}.

(** The platform's timestamps are aware; a bound given without offset,
    as in the help of the command line ([2024-01-01T00:00:00]), is
    naive, and the first comparison with it raises. *)
Definition naive_january_first : datetime :=
  {| year := 2024; month := 1; day := 1; hour := 0; minute := 0; second := 0;
     microsecond := 0; utcoffset := None |}.

Lemma naive_bound_raises :
  fst (@scrape_loop dotted_I_fragment january_client (str "chemed") lake
         (div image_root (str "chemed")) (Some naive_january_first) None
         None chemed_feed {| records_by_day := []; downloaded := ∅ |})
  = Raise TypeError.
Proof. vm_compute. reflexivity. Qed.

(** The iteration of the first channel, bounded by January. *)
Definition chemed_run : res scrape_state * gset Path :=
  @scrape_loop dotted_I_fragment january_client (str "chemed") lake
    (div image_root (str "chemed")) (Some january_first) (Some january_last)
    None chemed_feed {| records_by_day := []; downloaded := ∅ |}.

Lemma chemed_run_completes : is_ok (fst chemed_run) = true.
Proof. vm_compute. reflexivity. Qed.

Lemma chemed_run_keeps_two :
  match fst chemed_run with
  | Ok st => length (bucketed (records_by_day st))
  | Raise _ => 0
  end = 2.
Proof. vm_compute. reflexivity. Qed.

Lemma time_bound_filtering_witness :
  exists st imgs,
    chemed_run = (Ok st, imgs) /\
    (@get_partition_path dotted_I_fragment lake january_first (str "chemed"),
     build_message_record (post 2 (Some january_first) false) (str "chemed") None january_first)
      ∈ bucketed (records_by_day st) /\
    length (bucketed (records_by_day st)) = 2.
Proof.
  pose proof chemed_run_completes as Hok. pose proof chemed_run_keeps_two as Htwo.
  destruct chemed_run as [[st|e] imgs] eqn:Hrun; [|discriminate Hok].
  exists st, imgs. split; [reflexivity|]. split; [|exact Htwo].
  pose proof (@time_bound_filtering dotted_I_fragment january_client (str "chemed") lake
    (div image_root (str "chemed")) (Some january_first) (Some january_last)
    None chemed_feed ∅ st imgs Hrun) as (_ & Hkept & _).
  apply (Hkept (post 2 (Some january_first) false) january_first).
  - do 3 apply list_elem_of_further. apply list_elem_of_here.
  - reflexivity.
  - intros s [= <-]. exists Eq. split; [reflexivity | left; reflexivity].
  - intros u [= <-]. exists Lt. split; [reflexivity | right; reflexivity].
Defined.

(** The run over the first channel alone, and the second channel run on
    the disk that it leaves. *)
Definition chemed_done : res unit * disk :=
  @scrape_channels dotted_I_fragment newest_first january_client [str "chemed"] lake
    image_root None (Some january_first) (Some january_last) empty_disk.

(** The iteration of the second channel, on the disk that the first
    left. *)
Definition lobelia_after_chemed : res scrape_state * gset Path :=
  @scrape_loop dotted_I_fragment january_client (str "lobelia4cosmetics") lake
    (div image_root (@slugify dotted_I_fragment (str "lobelia4cosmetics")))
    (Some january_first) (Some january_last) None
    (history january_client (str "lobelia4cosmetics"))
    {| records_by_day := []; downloaded := images (snd chemed_done) |}.

Lemma chemed_done_ok : fst chemed_done = Ok tt.
Proof. vm_compute. reflexivity. Qed.

Lemma chemed_done_two_files : length (files (snd chemed_done)) = 2.
Proof. vm_compute. reflexivity. Qed.

Lemma lobelia_fails : fst lobelia_after_chemed = Raise ConnectionError.
Proof. vm_compute. reflexivity. Qed.

(** The run of January over the three channels that the scraper takes by
    default. *)
Definition january_args : settings :=
  {| api_id := Some (str "2040");
     api_hash := Some (str "0123456789abcdef0123456789abcdef");
     channels_raw := str "chemed,lobelia4cosmetics,tikvahpharma";
     data_lake_path := lake;
     images_root := image_root;
     limit_arg := None;
     since_arg := Some january_first;
     until_arg := Some january_last |}.

Lemma january_channels :
  @parse_channels dotted_I_fragment (channels_raw january_args)
  = [str "chemed"; str "lobelia4cosmetics"; str "tikvahpharma"].
Proof. vm_compute. reflexivity. Qed.

Lemma all_or_nothing_flush_witness :
  exists d1 d2,
    chemed_done = (Ok tt, d1) /\
    @run_scraper dotted_I_fragment newest_first january_args january_client empty_disk
      = (Raise ConnectionError, d2) /\
    files d2 = files d1 /\ length (files d1) = 2.
Proof.
  rewrite (@run_scraper_channels dotted_I_fragment newest_first january_args january_client
             empty_disk 2040%Z eq_refl eq_refl eq_refl).
  rewrite january_channels.
  change (data_lake_path january_args) with lake.
  change (images_root january_args) with image_root.
  change (limit_arg january_args) with (@None nat).
  change (since_arg january_args) with (Some january_first).
  change (until_arg january_args) with (Some january_last).
  pose proof chemed_done_ok as Hok. pose proof chemed_done_two_files as Htwo.
  pose proof lobelia_fails as Hfail. unfold lobelia_after_chemed in Hfail.
  destruct chemed_done as [r1 d1] eqn:Hdone. cbn [fst snd] in Hok, Htwo, Hfail. subst r1.
  destruct (@scrape_loop dotted_I_fragment january_client (str "lobelia4cosmetics") lake
      (div image_root (@slugify dotted_I_fragment (str "lobelia4cosmetics")))
      (Some january_first) (Some january_last) None
      (history january_client (str "lobelia4cosmetics"))
      {| records_by_day := []; downloaded := images d1 |})
    as [r2 imgs] eqn:Hloop.
  cbn [fst] in Hfail. subst r2.
  pose proof (@all_or_nothing_flush dotted_I_fragment newest_first january_client lake
    image_root None (Some january_first) (Some january_last)) as (_ & _ & Hkeep & _).
  destruct (Hkeep [str "chemed"] (str "lobelia4cosmetics") [str "tikvahpharma"]
              empty_disk d1 ConnectionError imgs Hdone Hloop) as (d2 & Hrun & Hfiles).
  exists d1, d2. split; [reflexivity|].
  split; [exact Hrun|]. split; [exact Hfiles | exact Htwo].
Defined.

End Scraper.

(** ** Raw Loader *)

Module Loader.

Import Json.

(** One row of [raw.telegram_messages]: the columns of [ensure_table]
    ([message_date] as the text of the timestamp). *)
Record row := {
  message_id : Z;
  channel_name : pystr;
  message_date : pystr;
  message_text : option pystr;
  has_media : bool;
  image_path : option pystr;
  views : option Z;
  forwards : option Z;
  raw_json : json;
  loaded_at : Z;
}.

(** The warehouse: whether the [raw] schema and the table exist, and the
    rows of the table. *)
Record database := {
  schema_exists : bool;
  table_exists : bool;
  rows : list row;
}.

(** What a run of the loader does that can be seen from outside. *)
Inductive event : Type :=
| Printed (text : pystr)
| Connected
| Executed (statement : pystr)
| CreatedAll
| Inserted (n : nat)
| Committed
| RolledBack.

(** load_raw_to_postgres.py, [collect_json_files] *)
Definition collect_json_files (fs : list (Path * pystr)) (base_path : Path) : list Path :=
  rglob_json fs base_path.

(** load_raw_to_postgres.py, [load_messages] *)
Definition load_messages (fs : list (Path * pystr)) (file_path : Path) : res json :=
  match read_file fs file_path with
  | None => Raise ValueError
  | Some text =>
      match json_loads text with
      | Some v => Ok v
      | None => Raise JSONDecodeError
      end
  end.

(** A frame, as far as the loader looks at it: the names of its
    columns, its [raw_json] column, which holds the records themselves
    (the other cells of a row are the values of its record), and the
    load time. *)
Record DataFrame := {
  columns : list pystr;
  raw_json_column : list (list (pystr * json));
  loaded_at_column : Z;
}.

(** [df[name] = ...]: the column is replaced, or added last. *)
Definition set_column (name : pystr) (names : list pystr) : list pystr :=
  if bool_decide (name ∈ names) then names else names ++ [name].

(** The columns of [pd.DataFrame(records)]: the keys of the records,
    each once, as they first appear. *)
Definition frame_columns (records : list (list (pystr * json))) : list pystr :=
  fold_left (fun names key => set_column key names) (flat_map (map fst) records) [].

(** load_raw_to_postgres.py, [normalize_records], for a list of [dict]s
    as its annotation has it.  [df["message_date"]] raises when no
    record has the key. *)
Definition normalize_records (now : Z) (records : list (list (pystr * json)))
  : res DataFrame :=
  let names := frame_columns records in
  if bool_decide (str "message_date" ∈ names) then
    Ok {| columns := set_column (str "loaded_at") (set_column (str "raw_json") names);
          raw_json_column := records;
          loaded_at_column := now |}
  else Raise KeyError.

(** [df.to_sql(name, connection, schema=..., if_exists="append",
    index=False, method="multi")]: nothing to do for a frame without
    rows; otherwise one insert whose parameters the driver binds.  The
    cells of [raw_json] are the [dict]s of the records, [to_sql] is
    given no [dtype] for them, and the driver has no adapter for a
    [dict]: the insert raises before any row is in the table.  (A
    string that the driver refuses earlier in the row raises in its
    place; the insert fails either way.) *)
Definition to_sql (df : DataFrame) : res (list row) :=
  match raw_json_column df with
  | [] => Ok []
  | _ :: _ => Raise ProgrammingError
  end.

(** What pandas and the database make of a payload that is true as a
    condition and is not a list of objects (a number, a string, an
    object, a list with other items) the source does not decide: the
    rows inserted, or the exception. *)
Class Pandas := other_payload : json -> res (list row).

Definition as_dict (v : json) : option (list (pystr * json)) :=
  match v with JObj members => Some members | _ => None end.

(** The payload as a list of [dict]s, when it is one. *)
Definition as_records (v : json) : option (list (list (pystr * json))) :=
  match v with
  | JArr items => mapM as_dict items
  | _ => None
  end.

Definition loaded_text (n : nat) (json_file : Path) : pystr :=
  str "Loaded " ++ decimal_digits (N.of_nat n) ++ str " records from " ++ path_str json_file.

(** The body of the loop of [main] for one file: the rows it inserts and
    what it prints. *)
Definition load_file `{Pandas} (fs : list (Path * pystr)) (clock : Path -> Z)
    (json_file : Path) : res (list row * list event) :=
  records ← load_messages fs json_file;
  if negb (truthy records) then Ok ([], [])
  else
    inserted ← match as_records records with
               | Some dicts => df ← normalize_records (clock json_file) dicts; to_sql df
               | None => other_payload records
               end;
    Ok (inserted,
        [Inserted (length inserted); Printed (loaded_text (length inserted) json_file)]).

(** [for json_file in json_files: ...], inside the transaction: the rows
    inserted and not yet committed, the trace, and how the loop ended. *)
Fixpoint load_files `{Pandas} (fs : list (Path * pystr)) (clock : Path -> Z)
    (json_files : list Path) (pending : list row) (trace : list event)
  : res unit * list row * list event :=
match json_files with
| [] => (Ok tt, pending, trace)
| json_file :: rest =>
    match load_file fs clock json_file with
    | Ok (df, out) => load_files fs clock rest (pending ++ df) (trace ++ out)
    | Raise e => (Raise e, pending, trace)
    end
end.

Definition no_files_text : pystr := str "No JSON files found in data lake.".
Definition create_schema : pystr := str "CREATE SCHEMA IF NOT EXISTS raw".

(** The run of [main] once the files are discovered: nothing but a
    report when there is none; otherwise one transaction
    ([with engine.begin() as connection]) around the schema, the table
    and every insert, committed when the block ends and rolled back when
    an exception leaves it. *)
Definition load_discovered `{Pandas} (fs : list (Path * pystr)) (clock : Path -> Z)
    (json_files : list Path) (db : database) : res unit * database * list event :=
  match json_files with
  | [] => (Ok tt, db, [Printed no_files_text])
  | _ =>
      let opened := [Connected; Executed create_schema; CreatedAll] in
      match load_files fs clock json_files [] opened with
      | (Ok _, pending, trace) =>
          (Ok tt,
           {| schema_exists := true; table_exists := true; rows := rows db ++ pending |},
           trace ++ [Committed])
      | (Raise e, _, trace) => (Raise e, db, trace ++ [RolledBack])
      end
  end.

(** load_raw_to_postgres.py, [main] *)
Definition main `{Pandas} (database_url : option pystr) (data_lake_path : Path)
    (fs : list (Path * pystr)) (clock : Path -> Z) (db : database)
  : res unit * database * list event :=
  match database_url with
  | None | Some [] => (Raise ValueError, db, [])
  | Some _ =>
      let base_path := div data_lake_path (str "telegram_messages") in
      let json_files := collect_json_files fs base_path in
      load_discovered fs clock json_files db
  end.

(** *** The loop over the files *)

Section Loading.
Context `{Pandas}.

Lemma load_files_app fs clock pre post pending trace :
  load_files fs clock (pre ++ post) pending trace =
    match load_files fs clock pre pending trace with
    | (Ok _, pending', trace') => load_files fs clock post pending' trace'
    | (Raise e, pending', trace') => (Raise e, pending', trace')
    end.
Proof.
  revert pending trace. induction pre as [|f pre IH]; intros pending trace; [reflexivity|].
  cbn [app load_files]. destruct (load_file fs clock f) as [[df out]|e]; [apply IH | reflexivity].
Qed.

Lemma load_file_empty_array fs clock f :
  load_messages fs f = Ok (JArr []) -> load_file fs clock f = Ok ([], []).
Proof. intros E. unfold load_file. rewrite E. reflexivity. Qed.

Lemma load_files_raises fs clock json_files f pending trace :
  f ∈ json_files -> is_ok (load_file fs clock f) = false ->
  exists e pending' trace',
    load_files fs clock json_files pending trace = (Raise e, pending', trace').
Proof.
  intros Hin Hbad. revert pending trace.
  induction json_files as [|g rest IH]; intros pending trace; [inversion Hin|].
  cbn [load_files]. apply elem_of_cons in Hin as [<-|Hin].
  - destruct (load_file fs clock f) as [[df out]|e]; [discriminate | eauto].
  - destruct (load_file fs clock g) as [[df out]|e]; [apply (IH Hin) | eauto].
Qed.

(** A file whose text is not JSON makes [load_file] raise. *)
Lemma load_file_not_json fs clock f text :
  read_file fs f = Some text -> json_loads text = None ->
  load_file fs clock f = Raise JSONDecodeError.
Proof. intros Hr Hp. unfold load_file, load_messages. rewrite Hr, Hp. reflexivity. Qed.

(** A list of objects *)
Lemma as_records_objects dicts : as_records (JArr (map JObj dicts)) = Some dicts.
Proof.
  cbn [as_records]. apply mapM_Some_2.
  induction dicts as [|m dicts IH]; constructor; [reflexivity | exact IH].
Qed.

Lemma as_records_inv v dicts : as_records v = Some dicts -> v = JArr (map JObj dicts).
Proof.
  destruct v as [ | | | | |items|]; try discriminate. cbn [as_records].
  intros Hall%mapM_Some_1. f_equal.
  induction Hall as [|x m items dicts Hx _ IH]; [reflexivity|].
  cbn [map]. rewrite IH. destruct x; try discriminate. injection Hx as <-. reflexivity.
Qed.

Lemma to_sql_raises now records df :
  records <> [] -> normalize_records now records = Ok df -> to_sql df = Raise ProgrammingError.
Proof.
  intros Hne. unfold normalize_records. case_bool_decide; [|discriminate].
  intros [= <-]. unfold to_sql. cbn [raw_json_column].
  destruct records; [congruence | reflexivity].
Qed.

(** A file that holds records, one at least, never loads: the frame has
    no [message_date] column, or the insert of its rows raises. *)
Lemma load_file_records fs clock f dicts :
  load_messages fs f = Ok (JArr (map JObj dicts)) -> dicts <> [] ->
  load_file fs clock f = Raise KeyError \/ load_file fs clock f = Raise ProgrammingError.
Proof.
  intros Hload Hne. unfold load_file. rewrite Hload. cbn [mbind res_bind].
  assert (Htruthy : truthy (JArr (map JObj dicts)) = true)
    by (destruct dicts; [congruence | reflexivity]).
  rewrite Htruthy, as_records_objects. cbn [negb].
  destruct (normalize_records (clock f) dicts) as [df|e] eqn:Hframe.
  - right. cbn [mbind res_bind]. rewrite (to_sql_raises _ _ _ Hne Hframe). reflexivity.
  - left. unfold normalize_records in Hframe. case_bool_decide; [discriminate|].
    injection Hframe as <-. reflexivity.
Qed.

(** When the load of some discovered file raises, the run raises, and
    the whole transaction is rolled back: the database is what it was
    before the run. *)
Lemma failing_file_rolls_back (url : pystr) (data_lake_path : Path)
    (fs : list (Path * pystr)) (clock : Path -> Z) (db : database) (f : Path) :
  url <> [] ->
  f ∈ collect_json_files fs (div data_lake_path (str "telegram_messages")) ->
  is_ok (load_file fs clock f) = false ->
  exists e trace,
    main (Some url) data_lake_path fs clock db = (Raise e, db, trace ++ [RolledBack]).
Proof.
  intros Hurl Hin Hbad. unfold main.
  destruct url as [|c url]; [congruence|].
  unfold load_discovered.
  destruct (collect_json_files fs _) as [|g rest] eqn:Hfiles; [inversion Hin|].
  destruct (load_files_raises fs clock (g :: rest) f []
              [Connected; Executed create_schema; CreatedAll] Hin Hbad)
    as (e & pending & trace & ->).
  exists e, trace. reflexivity.
Qed.

End Loading.

(** C7: with the connection string set and no file discovered, [main]
    returns normally, only prints its report, and leaves the database
    untouched: no connection, no schema, no table. *)
Theorem empty_discovery_is_a_no_op `{Pandas} (url : pystr) (data_lake_path : Path)
    (fs : list (Path * pystr)) (clock : Path -> Z) (db : database) :
  url <> [] ->
  collect_json_files fs (div data_lake_path (str "telegram_messages")) = [] ->
  main (Some url) data_lake_path fs clock db = (Ok tt, db, [Printed no_files_text]).
Proof.
  intros Hurl Hnone. unfold main. destruct url as [|c url]; [congruence|].
  rewrite Hnone. reflexivity.
Qed.

(** C10: a file that parses to an empty array inserts nothing, prints
    nothing and raises nothing; the loop goes on with the files after
    it, and ends as it would without that file. *)
Theorem empty_partition_is_skipped `{Pandas} (fs : list (Path * pystr)) (clock : Path -> Z)
    (pre post : list Path) (f : Path) (pending : list row) (trace : list event) :
  load_messages fs f = Ok (JArr []) ->
  load_file fs clock f = Ok ([], []) /\
  load_files fs clock (pre ++ f :: post) pending trace
  = load_files fs clock (pre ++ post) pending trace.
Proof.
  intros Hempty. pose proof (load_file_empty_array fs clock f Hempty) as Hfile.
  split; [exact Hfile|].
  rewrite !load_files_app.
  destruct (load_files fs clock pre pending trace) as [[[[]|e] pending'] trace'];
    [|reflexivity].
  cbn [load_files]. rewrite Hfile, !app_nil_r. reflexivity.
Qed.

End Loader.

(** ** From the Partition Writer to the Raw Loader *)

Module Pipeline.

Import Json Scraper Loader.

(** The members of the dictionary of a record. *)
Definition fields (r : TelegramMessageRecord) : list (pystr * json) :=
  match asdict r with JObj members => members | _ => [] end.

Lemma asdict_fields r : asdict r = JObj (fields r).
Proof. reflexivity. Qed.

Lemma asdict_encodable r : encodable (asdict r) = true.
Proof.
  destruct r as [mid chan date [text|] media [img|] [vw|] [fw|]]; vm_compute; reflexivity.
Qed.

Lemma payload_encodable records : encodable (JArr (map asdict records)) = true.
Proof.
  cbn [encodable]. induction records as [|r rs IH]; [reflexivity|].
  cbn [map forallb]. rewrite asdict_encodable, IH. reflexivity.
Qed.

Lemma asdict_inj r r' : asdict r = asdict r' -> r = r'.
Proof.
  destruct r as [mid chan date text media img vw fw],
           r' as [mid' chan' date' text' media' img' vw' fw'].
  unfold asdict. cbn [Scraper.message_id Scraper.channel_name Scraper.message_date
    Scraper.message_text Scraper.has_media Scraper.image_path Scraper.views Scraper.forwards].
  intros Heq. injection Heq as -> -> -> Htext -> Himg Hvw Hfw.
  f_equal.
  - destruct text, text'; cbn in Htext; congruence.
  - destruct img, img'; cbn in Himg; congruence.
  - destruct vw, vw'; cbn in Hvw; congruence.
  - destruct fw, fw'; cbn in Hfw; congruence.
Qed.

(** A record whose strings are text that UTF-8 can encode: none holds a
    lone surrogate. *)
Definition encodable_record (r : TelegramMessageRecord) : Prop :=
  utf8_encodable (Scraper.channel_name r) = true /\
  utf8_encodable (Scraper.message_date r) = true /\
  (forall text, Scraper.message_text r = Some text -> utf8_encodable text = true) /\
  (forall path, Scraper.image_path r = Some path -> utf8_encodable path = true).

Lemma asdict_well_formed r : encodable_record r -> well_formed (asdict r) = true.
Proof.
  destruct r as [mid chan date text media img vw fw]. intros (Hchan & Hdate & Htext & Himg).
  cbn [Scraper.channel_name Scraper.message_date Scraper.message_text Scraper.image_path]
    in Hchan, Hdate, Htext, Himg.
  assert (Ht : well_formed (opt_str text) = true)
    by (destruct text as [t|]; [apply (Htext t eq_refl) | reflexivity]).
  assert (Hi : well_formed (opt_str img) = true)
    by (destruct img as [i|]; [apply (Himg i eq_refl) | reflexivity]).
  assert (Hv : well_formed (opt_int vw) = true) by (destruct vw; reflexivity).
  assert (Hf : well_formed (opt_int fw) = true) by (destruct fw; reflexivity).
  unfold asdict.
  cbn [well_formed forallb fst snd Scraper.message_id Scraper.channel_name
       Scraper.message_date Scraper.message_text Scraper.has_media Scraper.image_path
       Scraper.views Scraper.forwards].
  rewrite Ht, Hi, Hv, Hf, Hchan, Hdate. reflexivity.
Qed.

Lemma payload_well_formed records :
  Forall encodable_record records -> well_formed (JArr (map asdict records)) = true.
Proof.
  cbn [well_formed]. induction 1 as [|r rs Hr _ IH]; [reflexivity|].
  cbn [map forallb]. rewrite (asdict_well_formed r Hr), IH. reflexivity.
Qed.

(** The [message_date] of a parsed record *)
Definition date_text (item : json) : option json :=
  match item with
  | JObj members => dict_get members (str "message_date")
  | _ => None
  end.

Lemma date_text_asdict r : date_text (asdict r) = Some (JStr (Scraper.message_date r)).
Proof. reflexivity. Qed.

(** C5 (amended): for records whose strings hold no lone surrogate, the
    writer ends normally and the partition file that it produces parses
    back, with the loader's parser, to the list of the dictionaries of
    the records, which determine the records field by field, the date
    text among them unchanged. *)
Theorem partition_round_trip `{DirectoryOrder} (fs : list (Path * pystr))
    (partition_path : Path) (records : list TelegramMessageRecord) :
  Forall encodable_record records ->
  exists fs',
    write_partition fs partition_path records = (Ok tt, fs') /\
    load_messages fs' partition_path = Ok (JArr (map asdict records)) /\
    (forall r r', asdict r = asdict r' -> r = r') /\
    map date_text (map asdict records)
      = map (fun r => Some (JStr (Scraper.message_date r))) records.
Proof.
  intros Hall.
  assert (Htext : utf8_encodable (partition_dump records) = true)
    by (apply utf8_encode, payload_well_formed, Hall).
  exists (write_file fs partition_path (partition_dump records)).
  split; [apply write_partition_ok, Htext|]. split; [|split].
  - unfold load_messages, partition_dump. rewrite read_write_same.
    rewrite json_loads_dumps by apply payload_encodable. reflexivity.
  - exact asdict_inj.
  - rewrite map_map. reflexivity.
Qed.

(** *** A lake with one good file and one broken file *)

Definition good_file : Path :=
  @get_partition_path dotted_I_fragment lake january_first (str "chemed").

Definition bad_file : Path :=
  @get_partition_path dotted_I_fragment lake january_last (str "chemed").

Definition good_record : TelegramMessageRecord :=
  build_message_record (post 2 (Some january_first) false) (str "chemed") None january_first.

Lemma good_record_encodable : encodable_record good_record.
Proof.
  split; [reflexivity|]. split; [vm_compute; reflexivity|]. split.
  - intros text [= <-]. reflexivity.
  - intros path [=].
Qed.

Lemma partition_round_trip_witness :
  exists fs',
    @write_partition creation_order [] good_file [good_record] = (Ok tt, fs') /\
    load_messages fs' good_file = Ok (JArr (map asdict [good_record])) /\
    (forall r r', asdict r = asdict r' -> r = r') /\
    map date_text (map asdict [good_record])
      = map (fun r => Some (JStr (Scraper.message_date r))) [good_record].
Proof.
  apply (@partition_round_trip creation_order [] good_file [good_record]).
  apply Forall_cons_2; [exact good_record_encodable | apply Forall_nil_2].
Defined.

(** *** A record that is not text *)

(** The images root as the environment gives it when [IMAGES_PATH] holds
    a byte that is not UTF-8: [os.getenv] hands the byte over as a lone
    surrogate, and the path of every image carries it. *)
Definition escaped_root : Path := [str "data"; [0xDC80%N]].

Definition escaped_record : TelegramMessageRecord :=
  build_message_record (post 4 (Some january_last) true) (str "chemed")
    (Some (div (div escaped_root (str "chemed")) (str "4.jpg"))) january_last.

Definition escaped_write : res unit * list (Path * pystr) :=
  @write_partition creation_order [] bad_file [escaped_record].

(** C5, as stated, fails: the dump of this record raises when it comes
    to the image path, the file is left with what was written before
    it, and the loader's parser does not give the record back: it
    raises. *)
Lemma round_trip_fails_on_lone_surrogate :
  fst escaped_write = Raise UnicodeEncodeError /\
  snd escaped_write = [(bad_file, take 183 (partition_dump [escaped_record]))] /\
  length (partition_dump [escaped_record]) = 249 /\
  load_messages (snd escaped_write) bad_file = Raise JSONDecodeError.
Proof. repeat split; vm_compute; reflexivity. Qed.

(** The first file is what the writer produced for one record; the
    second stops after its opening bracket.  The walk reports them in
    this order. *)
Definition broken_lake : list (Path * pystr) :=
  [ (good_file, partition_dump [good_record]); (bad_file, str "[") ].

Definition empty_db : database :=
  {| schema_exists := false; table_exists := false; rows := [] |}.

Definition noon : Path -> Z := fun _ => 43200%Z.

Definition postgres_url : pystr := str "postgresql://warehouse".

(** C1: on this lake the run does not reach the broken file.  The good
    file is read and framed, the insert of its one row raises, and the
    transaction is rolled back: the table has no row of the good file,
    and what propagates is not the decoding error of the broken one. *)
Theorem good_file_aborts_the_run `{Pandas} :
  collect_json_files broken_lake (div lake (str "telegram_messages")) = [good_file; bad_file] /\
  load_messages broken_lake good_file = Ok (JArr [asdict good_record]) /\
  (exists df,
     normalize_records 43200%Z [fields good_record] = Ok df /\
     raw_json_column df = [fields good_record] /\
     to_sql df = Raise ProgrammingError) /\
  load_file broken_lake noon good_file = Raise ProgrammingError /\
  load_file broken_lake noon bad_file = Raise JSONDecodeError /\
  main (Some postgres_url) lake broken_lake noon empty_db
    = (Raise ProgrammingError, empty_db,
       [Connected; Executed create_schema; CreatedAll; RolledBack]).
Proof.
  split; [vm_compute; reflexivity|]. split; [vm_compute; reflexivity|]. split.
  - eexists. split; [vm_compute; reflexivity|]. split; reflexivity.
  - split; [vm_compute; reflexivity|]. split; vm_compute; reflexivity.
Qed.

Lemma postgres_url_set : postgres_url <> [].
Proof. discriminate. Qed.

(** A pandas that refuses whatever is not a list of objects. *)
Definition refusing : Pandas := fun _ => Raise ValueError.

(** *** A lake without partition files *)

Definition lake_without_json : list (Path * pystr) :=
  [ (div (div lake (str "telegram_messages")) (str "README.txt"), str "empty");
    (div (div lake (str "images")) (str "notes.json"), str "[]") ].

Lemma nothing_discovered :
  collect_json_files lake_without_json (div lake (str "telegram_messages")) = [].
Proof. vm_compute. reflexivity. Qed.

Lemma empty_discovery_is_a_no_op_witness :
  @main refusing (Some postgres_url) lake lake_without_json noon empty_db
    = (Ok tt, empty_db, [Printed no_files_text]).
Proof.
  exact (@empty_discovery_is_a_no_op refusing postgres_url lake lake_without_json noon
           empty_db postgres_url_set nothing_discovered).
Defined.

(** *** A lake with an empty partition file *)

Definition empty_file : Path :=
  div (div (div lake (str "telegram_messages")) (str "2024-01-15")) (str "chemed.json").

Definition lake_with_empty_file : list (Path * pystr) :=
  [ (good_file, partition_dump [good_record]); (empty_file, str "[]") ].

Lemma empty_file_parses : load_messages lake_with_empty_file empty_file = Ok (JArr []).
Proof. vm_compute. reflexivity. Qed.

Lemma empty_partition_is_skipped_witness :
  @load_file refusing lake_with_empty_file noon empty_file = Ok ([], []) /\
  @load_files refusing lake_with_empty_file noon ([] ++ empty_file :: [good_file]) [] []
  = @load_files refusing lake_with_empty_file noon ([] ++ [good_file]) [] [].
Proof.
  exact (@empty_partition_is_skipped refusing lake_with_empty_file noon [] [good_file]
           empty_file [] [] empty_file_parses).
Defined.

End Pipeline.

(** ** Channel names: what a slug is made of, and the channel list *)

Module Names.

Import Slug Scraper.

(** The characters of a slug of an ASCII name: [a-z], [0-9] and the
    separator. *)
Definition slug_safe (e : char) : bool :=
  ascii_islower e || ascii_isdigit e || (e =? sep)%N.

(** Leading and trailing whitespace, as [str.strip()] sees it. *)
Definition stripped `{UnicodeDB} (c : pystr) : Prop :=
  (forall e, head c = Some e -> isspace e = false) /\
  (forall e, last c = Some e -> isspace e = false).

Section SlugShape.
Context `{UnicodeDB}.

Lemma slug_chars_cons c s :
  slug_chars (c :: s) = (if isalnum c then lower c else [sep]) ++ slug_chars s.
Proof. reflexivity. Qed.

Lemma slug_chars_origin (value : pystr) :
  Forall (fun e => e = sep \/ exists c, c ∈ value /\ isalnum c = true /\ e ∈ lower c)
         (slug_chars value).
Proof.
  induction value as [|c s IH]; [constructor|].
  rewrite slug_chars_cons. apply Forall_app. split.
  - destruct (isalnum c) eqn:Ha.
    + apply Forall_forall. intros e He. right. exists c.
      split; [constructor|]. split; assumption.
    + repeat constructor.
  - eapply Forall_impl; [exact IH|]. cbn. intros e [->|(c' & Hc' & Ha & He)]; [left; reflexivity|].
    right. exists c'. split; [right; exact Hc'|]. split; assumption.
Qed.

Lemma slug_chars_none (value : pystr) :
  existsb isalnum value = false -> slug_chars value = repeat sep (length value).
Proof.
  induction value as [|c s IH]; [reflexivity|]. cbn [existsb].
  intros Hno. apply orb_false_iff in Hno as [Hc Hs].
  rewrite slug_chars_cons, Hc, IH by exact Hs. reflexivity.
Qed.

Lemma lstrip_repeat ch n : lstrip ch (repeat ch n) = [].
Proof. induction n as [|n IH]; cbn; [reflexivity|]. rewrite N.eqb_refl. exact IH. Qed.

Lemma strip_repeat ch n : strip ch (repeat ch n) = [].
Proof. unfold strip. rewrite lstrip_repeat. reflexivity. Qed.

(** What [strip] removes are separators only: a character that is not
    the separator stays. *)
Lemma strip_keeps ch s e : e ∈ s -> e <> ch -> e ∈ strip ch s.
Proof.
  intros Hin Hne. destruct (strip_spec ch s) as (l & r & Hs & _).
  rewrite Hs in Hin. apply elem_of_app in Hin as [Hin|Hin].
  - apply list_elem_of_In, repeat_spec in Hin. congruence.
  - apply elem_of_app in Hin as [Hin|Hin]; [exact Hin|].
    apply list_elem_of_In, repeat_spec in Hin. congruence.
Qed.

Lemma strip_length ch s : length (strip ch s) <= length s.
Proof.
  destruct (strip_spec ch s) as (l & r & Hs & _).
  rewrite Hs at 2. rewrite !length_app. lia.
Qed.

End SlugShape.

Lemma ascii_alnum_lower_safe (c : char) :
  ascii_isalnum c = true -> slug_safe (ascii_lower c) = true.
Proof.
  intros Ha. unfold slug_safe.
  destruct (ascii_lower_settled c Ha) as (Ha' & Hl & _).
  unfold ascii_isalnum in Ha'.
  assert (Hnu : ascii_isupper (ascii_lower c) = false).
  { unfold ascii_lower in *. destruct (ascii_isupper c) eqn:Hu; [|exact Hu].
    unfold ascii_isupper in *. apply andb_true_iff in Hu as [H1 H2].
    apply N.leb_le in H1, H2. apply andb_false_iff. right. apply N.leb_gt. lia. }
  rewrite Hnu, orb_false_r in Ha'.
  apply orb_true_iff in Ha' as [Hd|Hl']; [rewrite Hd, orb_true_r | rewrite Hl']; reflexivity.
Qed.

Lemma slug_chars_ascii `{UnicodeDB} (s : pystr) :
  forallb is_ascii s = true ->
  Forall (fun e => slug_safe e = true) (slug_chars s) /\ length (slug_chars s) = length s.
Proof.
  induction s as [|c s IH]; [split; [constructor | reflexivity]|].
  cbn [forallb]. intros Hs. apply andb_true_iff in Hs as [Hc Hs].
  destruct (IH Hs) as [IHsafe IHlen].
  rewrite slug_chars_cons. unfold isalnum, lower. rewrite Hc.
  destruct (ascii_isalnum c) eqn:Ha.
  - split; [|cbn; lia]. constructor; [|exact IHsafe]. apply ascii_alnum_lower_safe, Ha.
  - split; [|cbn; lia]. constructor; [reflexivity | exact IHsafe].
Qed.

(** X1: the slug of an ASCII name is made of lower-case ASCII letters,
    digits and separators only: no dot, no slash, no space, no capital;
    and it is never longer than the name. *)
Theorem slugify_ascii_alphabet `{UnicodeDB} (value : pystr) :
  forallb is_ascii value = true ->
  Forall (fun e => slug_safe e = true) (slugify value) /\
  length (slugify value) <= length value.
Proof.
  intros Hs. destruct (slug_chars_ascii value Hs) as [Hsafe Hlen]. split.
  - unfold slugify. apply strip_Forall, Hsafe.
  - unfold slugify. rewrite <- Hlen. apply strip_length.
Qed.

Lemma slugify_ascii_alphabet_witness :
  Forall (fun e => slug_safe e = true)
         (@slugify dotted_I_fragment (str "Lobelia4 Cosmetics/../etc")) /\
  length (@slugify dotted_I_fragment (str "Lobelia4 Cosmetics/../etc")) <= 25.
Proof.
  exact (@slugify_ascii_alphabet dotted_I_fragment (str "Lobelia4 Cosmetics/../etc") eq_refl).
Defined.

(** X2: a name without any alphanumeric character (the empty name, or
    punctuation only) has the empty slug; an ASCII name with one has a
    slug that is not empty. *)
Theorem slugify_empty_slug `{UnicodeDB} (value : pystr) :
  (existsb isalnum value = false -> slugify value = []) /\
  (forallb is_ascii value = true -> existsb isalnum value = true -> slugify value <> []).
Proof.
  split.
  - intros Hno. unfold slugify. rewrite (slug_chars_none value Hno). apply strip_repeat.
  - intros Hascii Hsome. apply existsb_exists in Hsome as (c & Hc & Ha).
    rewrite forallb_forall in Hascii. specialize (Hascii c Hc).
    assert (Hin : ascii_lower c ∈ slug_chars value).
    { clear - Hc Ha Hascii. induction value as [|c' s IH]; [destruct Hc|].
      rewrite slug_chars_cons. apply elem_of_app. destruct Hc as [->|Hc].
      - left. rewrite Ha. unfold lower. rewrite Hascii. constructor.
      - right. apply IH, Hc. }
    assert (Hne : ascii_lower c <> sep).
    { unfold isalnum in Ha. rewrite Hascii in Ha.
      pose proof (ascii_alnum_lower_safe c Ha) as Hsafe.
      destruct (ascii_lower_settled c Ha) as (Ha' & _ & _).
      intros Heq. rewrite Heq in Ha'. discriminate Ha'. }
    pose proof (strip_keeps sep _ _ Hin Hne) as Hkept.
    unfold slugify. intros Hnil. rewrite Hnil in Hkept. inversion Hkept.
Qed.

(** *** The channel list *)

Lemma split_on_cons ch c s :
  split_on ch (c :: s) =
    if (c =? ch)%N then [] :: split_on ch s
    else match split_on ch s with
         | x :: xs => (c :: x) :: xs
         | [] => [[c]]
         end.
Proof. reflexivity. Qed.

Lemma split_on_pieces ch s :
  split_on ch s <> [] /\ Forall (fun x => ch ∉ x) (split_on ch s).
Proof.
  induction s as [|c s [IHne IHall]].
  - split; [discriminate|]. repeat constructor. intros Hin. inversion Hin.
  - rewrite split_on_cons. destruct (N.eqb_spec c ch) as [->|Hne].
    + split; [discriminate|]. constructor; [|exact IHall]. intros Hin. inversion Hin.
    + destruct (split_on ch s) as [|x xs]; [congruence|].
      split; [discriminate|]. apply Forall_cons in IHall as [Hx Hxs].
      constructor; [|exact Hxs]. intros Hin. apply elem_of_cons in Hin as [Heq|Hin]; [congruence | exact (Hx Hin)].
Qed.

Lemma split_on_whole ch x : ch ∉ x -> split_on ch x = [x].
Proof.
  induction x as [|c x IH]; [reflexivity|]. intros Hnot.
  rewrite split_on_cons. destruct (N.eqb_spec c ch) as [->|Hne].
  - exfalso. apply Hnot. constructor.
  - rewrite IH; [reflexivity|]. intros Hin. apply Hnot. right. exact Hin.
Qed.

Lemma split_on_piece ch x r :
  ch ∉ x -> split_on ch (x ++ ch :: r) = x :: split_on ch r.
Proof.
  induction x as [|c x IH]; intros Hnot.
  - cbn [app]. rewrite split_on_cons, N.eqb_refl. reflexivity.
  - cbn [app]. rewrite split_on_cons. destruct (N.eqb_spec c ch) as [->|Hne].
    + exfalso. apply Hnot. constructor.
    + rewrite IH; [reflexivity|]. intros Hin. apply Hnot. right. exact Hin.
Qed.

Lemma split_on_join ch (cs : list pystr) :
  cs <> [] -> Forall (fun x => ch ∉ x) cs -> split_on ch (join [ch] cs) = cs.
Proof.
  induction cs as [|x cs IH]; [congruence|]. intros _ Hall.
  apply Forall_cons in Hall as [Hx Hcs].
  destruct cs as [|y cs].
  - cbn [join]. apply split_on_whole, Hx.
  - change (join [ch] (x :: y :: cs)) with (x ++ ch :: join [ch] (y :: cs)).
    rewrite split_on_piece by exact Hx. rewrite IH; [reflexivity | discriminate | exact Hcs].
Qed.

Lemma lstrip_by_spec p s :
  exists l, s = l ++ lstrip_by p s /\ Forall (fun e => p e = true) l /\
            forall e, head (lstrip_by p s) = Some e -> p e = false.
Proof.
  induction s as [|c s (l & Hl & Hall & Hh)]; cbn [lstrip_by].
  - exists []. split; [reflexivity|]. split; [constructor | discriminate].
  - destruct (p c) eqn:Hc.
    + exists (c :: l). cbn [app]. split; [congruence|]. split; [constructor; assumption | exact Hh].
    + exists []. split; [reflexivity|]. split; [constructor|]. intros e [= <-]. exact Hc.
Qed.

Lemma lstrip_by_id p s : (forall e, head s = Some e -> p e = false) -> lstrip_by p s = s.
Proof.
  destruct s as [|c s]; [reflexivity|]. cbn [lstrip_by head]. intros Hh.
  rewrite (Hh c eq_refl). reflexivity.
Qed.

Lemma last_rev {A} (l : list A) : last (rev l) = head l.
Proof. rewrite <- head_rev, rev_involutive. reflexivity. Qed.

(** [strip_by p s] is [s] without a prefix and a suffix, and neither
    starts nor ends with a character that satisfies [p]. *)
Lemma strip_by_spec p s :
  exists l r, s = l ++ strip_by p s ++ r /\
    (forall e, head (strip_by p s) = Some e -> p e = false) /\
    (forall e, last (strip_by p s) = Some e -> p e = false).
Proof.
  unfold strip_by.
  destruct (lstrip_by_spec p s) as (l & Hl & _ & Hh).
  destruct (lstrip_by_spec p (rev (lstrip_by p s))) as (r & Hr & _ & Hh').
  assert (Hs : lstrip_by p s = rev (lstrip_by p (rev (lstrip_by p s))) ++ rev r).
  { rewrite <- rev_app_distr, <- Hr, rev_involutive. reflexivity. }
  exists l, (rev r). split; [|split].
  - rewrite <- Hs. exact Hl.
  - intros e He. apply Hh. rewrite Hs.
    destruct (rev (lstrip_by p (rev (lstrip_by p s)))); [discriminate He | exact He].
  - intros e He. rewrite last_rev in He. apply Hh', He.
Qed.

Lemma strip_by_id p s :
  (forall e, head s = Some e -> p e = false) ->
  (forall e, last s = Some e -> p e = false) -> strip_by p s = s.
Proof.
  intros Hh Hl. unfold strip_by. rewrite (lstrip_by_id p s Hh).
  rewrite lstrip_by_id, rev_involutive; [reflexivity|].
  intros e He. rewrite head_rev in He. apply Hl, He.
Qed.

Section ChannelList.
Context `{UnicodeDB}.

(** A channel name as the list holds it: not empty, without comma,
    without whitespace at either end. *)
Definition clean (c : pystr) : Prop := c <> [] /\ (44%N ∉ c) /\ stripped c.

Lemma parse_channels_clean (channels_raw : pystr) :
  Forall clean (parse_channels channels_raw).
Proof.
  apply Forall_forall. intros c Hc. unfold parse_channels in Hc.
  apply list_elem_of_filter in Hc as [Hne Hc].
  apply list_elem_of_In, in_map_iff in Hc as (x & <- & Hx).
  split; [exact Hne|]. split.
  - destruct (split_on_pieces 44%N channels_raw) as [_ Hall].
    rewrite Forall_forall in Hall. apply list_elem_of_In in Hx. specialize (Hall x Hx).
    destruct (strip_by_spec isspace x) as (l & r & Hs & _).
    intros Hin. apply Hall. rewrite Hs. apply elem_of_app. right. apply elem_of_app. left. exact Hin.
  - destruct (strip_by_spec isspace x) as (l & r & _ & Hh & Hl). split; assumption.
Qed.

Lemma parse_channels_join (channels : list pystr) :
  Forall clean channels -> parse_channels (join (str ",") channels) = channels.
Proof.
  intros Hall. unfold parse_channels. destruct channels as [|c cs]; [reflexivity|].
  change (str ",") with [44%N]. rewrite split_on_join; [|discriminate|].
  - induction Hall as [|x xs (Hne & _ & Hh & Hl) _ IH]; [reflexivity|].
    cbn [map]. rewrite (strip_by_id isspace x Hh Hl), filter_cons_True by exact Hne.
    f_equal. exact IH.
  - eapply Forall_impl; [exact Hall|]. intros x (_ & Hx & _). exact Hx.
Qed.

End ChannelList.

(** X3: every channel that [parse_channels] returns is a name: not empty,
    free of commas, with no whitespace at its start or at its end. *)
Theorem parse_channels_names `{UnicodeDB} (channels_raw : pystr) (c : pystr) :
  c ∈ parse_channels channels_raw -> clean c.
Proof.
  intros Hc. pose proof (parse_channels_clean channels_raw) as Hall.
  rewrite Forall_forall in Hall. exact (Hall c Hc).
Qed.

Lemma parse_channels_names_witness :
  str "lobelia4cosmetics"
    ∈ @parse_channels dotted_I_fragment (str " chemed ,, lobelia4cosmetics,  ") /\
  @clean dotted_I_fragment (str "lobelia4cosmetics").
Proof.
  assert (Hin : str "lobelia4cosmetics"
                  ∈ @parse_channels dotted_I_fragment (str " chemed ,, lobelia4cosmetics,  "))
    by (apply (bool_decide_unpack _); vm_compute; exact I).
  split; [exact Hin|].
  exact (@parse_channels_names dotted_I_fragment _ _ Hin).
Defined.

(** X4: a list of names, joined with commas, parses back to the list. *)
Theorem parse_channels_round_trip `{UnicodeDB} (channels : list pystr) :
  Forall clean channels -> parse_channels (join (str ",") channels) = channels.
Proof. apply parse_channels_join. Qed.

Lemma clean_ascii_word `{UnicodeDB} (c : pystr) :
  c <> [] -> forallb (fun e => is_ascii e && ascii_isalnum e) c = true -> clean c.
Proof.
  intros Hne Hall. rewrite forallb_forall in Hall.
  assert (Hsp : forall e, In e c -> isspace e = false).
  { intros e He. specialize (Hall e He). apply andb_true_iff in Hall as [Ha Hn].
    unfold isspace. rewrite Ha. unfold ascii_isalnum, ascii_isdigit, ascii_isupper,
      ascii_islower, ascii_isspace in *.
    repeat match goal with
      | H : context [(?a <=? ?b)%N] |- _ => destruct (N.leb_spec a b)
      | |- context [(?a <=? ?b)%N] => destruct (N.leb_spec a b)
      | |- context [(?a =? ?b)%N] => destruct (N.eqb_spec a b)
      end; cbn in *; try reflexivity; try discriminate; lia. }
  split; [exact Hne|]. split; [|split].
  - intros Hin. apply list_elem_of_In in Hin. specialize (Hall _ Hin). discriminate Hall.
  - intros e He. apply Hsp. destruct c; [discriminate He|]. injection He as <-. left. reflexivity.
  - intros e He. apply Hsp. apply list_elem_of_In, last_Some_elem_of, He.
Qed.

Definition default_channels : list pystr :=
  [str "chemed"; str "lobelia4cosmetics"; str "tikvahpharma"].

Lemma default_channels_clean : Forall (@clean dotted_I_fragment) default_channels.
Proof.
  unfold default_channels.
  repeat (apply Forall_cons_2; [apply clean_ascii_word; [discriminate | reflexivity]|]).
  apply Forall_nil_2.
Qed.

Lemma parse_channels_round_trip_witness :
  @parse_channels dotted_I_fragment (join (str ",") default_channels) = default_channels.
Proof.
  exact (@parse_channels_round_trip dotted_I_fragment default_channels default_channels_clean).
Defined.

End Names.

(** ** Partition keys: one file per calendar day and slug *)

Module PartitionKeys.

Import Json Slug Scraper.

(** The calendar fields that a [datetime] can have. *)
Definition calendar_date (d : datetime) : Prop :=
  (1 <= year d <= 9999)%Z /\ (1 <= month d <= 12)%Z /\ (1 <= day d <= 31)%Z.

Fixpoint pow10 (k : nat) : N :=
match k with
| O => 1%N
| S k' => (10 * pow10 k')%N
end.

Lemma digits_of_length fuel n k :
  (n < pow10 (S k))%N -> length (digits_of (S fuel) n) <= S k.
Proof.
  revert n k. induction fuel as [|fuel IH]; intros n k Hn;
    rewrite (digits_of_S _ n); destruct (N.ltb_spec n 10) as [Hlt|Hge].
  - cbn. lia.
  - cbn. lia.
  - cbn. lia.
  - rewrite length_app. cbn [length].
    destruct k as [|k]; [cbn in Hn; lia|].
    assert (Hdiv : (n / 10 < pow10 (S k))%N).
    { apply N.Div0.div_lt_upper_bound. change (pow10 (S (S k))) with (10 * pow10 (S k))%N in Hn.
      exact Hn. }
    specialize (IH _ _ Hdiv). lia.
Qed.

Lemma decimal_digits_length n k :
  (n < pow10 (S k))%N -> 1 <= length (decimal_digits n) <= S k.
Proof.
  intros Hn. split.
  - destruct (decimal_digits_spec n) as (_ & _ & c & r & -> & _). cbn. lia.
  - apply digits_of_length, Hn.
Qed.

Lemma length_zfill w n :
  (Z.to_N n < pow10 (S w))%N -> length (zfill (S w) n) = S w.
Proof.
  intros Hn. unfold zfill. rewrite length_app, repeat_length.
  pose proof (decimal_digits_length _ _ Hn) as Hlen.
  unfold pystr, char in *. lia.
Qed.

Lemma digits_to_N_zeros k ds : digits_to_N (repeat 48%N k ++ ds) = digits_to_N ds.
Proof.
  unfold digits_to_N. rewrite fold_left_app.
  replace (fold_left _ (repeat 48%N k) 0%N) with 0%N; [reflexivity|].
  induction k as [|k IH]; [reflexivity|]. cbn [repeat fold_left]. exact IH.
Qed.

Lemma digits_to_N_zfill w n : digits_to_N (zfill w n) = Z.to_N n.
Proof.
  unfold zfill. rewrite digits_to_N_zeros.
  destruct (decimal_digits_spec (Z.to_N n)) as (_ & Hval & _). exact Hval.
Qed.

Lemma zfill_inj w n n' : (0 <= n)%Z -> (0 <= n')%Z -> zfill w n = zfill w n' -> n = n'.
Proof.
  intros Hn Hn' Heq. apply (f_equal digits_to_N) in Heq.
  rewrite !digits_to_N_zfill in Heq. lia.
Qed.

(** The text of the day determines the day. *)
Lemma date_isoformat_inj d d' :
  calendar_date d -> calendar_date d' ->
  date_isoformat d = date_isoformat d' ->
  year d = year d' /\ month d = month d' /\ day d = day d'.
Proof.
  intros (Hy & Hm & Hd) (Hy' & Hm' & Hd'). unfold date_isoformat.
  assert (L4 : forall n, (1 <= n <= 9999)%Z -> length (zfill 4 n) = 4)
    by (intros n Hn; apply length_zfill; cbn; lia).
  assert (L2 : forall n, (1 <= n <= 31)%Z -> length (zfill 2 n) = 2)
    by (intros n Hn; apply length_zfill; cbn; lia).
  intros Heq.
  apply app_inj_1 in Heq as [Ey Heq]; [|rewrite !L4 by lia; reflexivity].
  cbn [str app] in Heq. injection Heq as Heq.
  apply app_inj_1 in Heq as [Em Heq]; [|rewrite !L2 by lia; reflexivity].
  cbn [str app] in Heq. injection Heq as Ed.
  apply zfill_inj in Ey, Em, Ed; lia.
Qed.

Lemma date_isoformat_not_empty d : date_isoformat d <> [].
Proof.
  unfold date_isoformat. intros Heq. apply (f_equal (@length _)) in Heq.
  rewrite !length_app in Heq. cbn in Heq. lia.
Qed.

Lemma div_name (p : Path) (nm : pystr) : nm <> [] -> div p nm = p ++ [nm].
Proof. destruct nm; [congruence | reflexivity]. Qed.

Section Keys.
Context `{UnicodeDB}.

(** The path of a partition: three components below the base. *)
Lemma get_partition_path_components base d channel :
  get_partition_path base d channel =
    base ++ [str "telegram_messages"; date_isoformat d; slugify channel ++ str ".json"].
Proof.
  unfold get_partition_path.
  rewrite (div_name base) by discriminate.
  rewrite (div_name _ (date_isoformat d)) by apply date_isoformat_not_empty.
  rewrite div_name.
  - rewrite <- !app_assoc. reflexivity.
  - intros Heq. apply (f_equal (@length _)) in Heq. rewrite length_app in Heq. cbn in Heq. lia.
Qed.

(** X5: two messages go to the same partition file exactly when they have
    the same calendar day (year, month and day as the timestamp itself
    gives them) and their channels the same slug. *)
Theorem partition_key (base : Path) (d d' : datetime) (channel channel' : pystr) :
  calendar_date d -> calendar_date d' ->
  (get_partition_path base d channel = get_partition_path base d' channel'
   <-> (year d = year d' /\ month d = month d' /\ day d = day d')
       /\ slugify channel = slugify channel').
Proof.
  intros Hd Hd'. rewrite !get_partition_path_components. split.
  - intros Heq. apply app_inv_head in Heq. injection Heq as Hdate Hfile.
    split; [apply date_isoformat_inj; assumption|].
    apply app_inv_tail in Hfile. exact Hfile.
  - intros [(Hy & Hm & Hday) Hslug]. unfold date_isoformat.
    rewrite Hy, Hm, Hday, Hslug. reflexivity.
Qed.

End Keys.

Lemma partition_key_witness :
  @get_partition_path dotted_I_fragment lake (utc 2024 1 31 0 0 0) (str "Tikvah Pharma")
  = @get_partition_path dotted_I_fragment lake january_last (str "tikvah_pharma").
Proof.
  apply (@partition_key dotted_I_fragment lake (utc 2024 1 31 0 0 0) january_last
           (str "Tikvah Pharma") (str "tikvah_pharma")).
  - unfold calendar_date. cbn. lia.
  - unfold calendar_date. cbn. lia.
  - split; [repeat split|]; reflexivity.
Defined.

End PartitionKeys.

(** ** What a channel's iteration collects, and what its flush writes *)

Module Partitions.

Import Json Slug Scraper.

(** [records_by_day[key]], read without inserting: the records of the
    bucket, none when the key is not there. *)
Fixpoint bucket (buckets : list (Path * list TelegramMessageRecord)) (key : Path)
  : list TelegramMessageRecord :=
match buckets with
| [] => []
| (k, rs) :: rest => if path_eqb k key then rs else bucket rest key
end.

(** The text that the flush writes for a bucket. *)
Definition partition_text (records : list TelegramMessageRecord) : pystr :=
  json_dumps (JArr (map asdict records)).

(** *** Buckets as a dictionary *)

Lemma path_eqb_spec (p q : Path) : reflect (p = q) (path_eqb p q).
Proof. apply bool_decide_reflect. Qed.

Lemma bucket_append_lookup buckets key record p :
  bucket (bucket_append buckets key record) p
  = bucket buckets p ++ (if path_eqb key p then [record] else []).
Proof.
  induction buckets as [|[k rs] rest IH]; cbn [bucket_append bucket].
  - destruct (path_eqb key p); reflexivity.
  - destruct (path_eqb_spec k key) as [->|Hne]; cbn [bucket].
    + destruct (path_eqb_spec key p); [reflexivity | rewrite app_nil_r; reflexivity].
    + destruct (path_eqb_spec k p) as [->|Hkp]; [|exact IH].
      destruct (path_eqb_spec key p); [congruence | rewrite app_nil_r; reflexivity].
Qed.

Lemma bucket_append_keys buckets key record :
  map fst (bucket_append buckets key record)
  = if bool_decide (key ∈ map fst buckets) then map fst buckets
    else map fst buckets ++ [key].
Proof.
  induction buckets as [|[k rs] rest IH]; cbn [bucket_append map fst]; [reflexivity|].
  destruct (path_eqb_spec k key) as [->|Hne]; cbn [map fst].
  - rewrite bool_decide_eq_true_2 by constructor. reflexivity.
  - rewrite IH. destruct (bool_decide_reflect (key ∈ map fst rest)) as [Hin|Hnin].
    + rewrite bool_decide_eq_true_2 by (right; exact Hin). reflexivity.
    + rewrite bool_decide_eq_false_2; [reflexivity|].
      intros Hin. apply elem_of_cons in Hin as [Heq|Hin]; [congruence | exact (Hnin Hin)].
Qed.

Lemma bucket_append_NoDup buckets key record :
  NoDup (map fst buckets) -> NoDup (map fst (bucket_append buckets key record)).
Proof.
  intros Hnd. rewrite bucket_append_keys.
  destruct (bool_decide_reflect (key ∈ map fst buckets)) as [Hin|Hnin]; [exact Hnd|].
  apply NoDup_app. split; [exact Hnd|]. split; [|apply NoDup_singleton].
  intros x Hx Hx'. apply list_elem_of_singleton in Hx' as ->. exact (Hnin Hx).
Qed.

Lemma bucket_append_filled buckets key record :
  Forall (fun b => snd b <> []) buckets ->
  Forall (fun b => snd b <> []) (bucket_append buckets key record).
Proof.
  induction 1 as [|[k rs] rest Hb Hrest IH]; cbn [bucket_append].
  - repeat constructor. discriminate.
  - destruct (path_eqb k key); constructor; try assumption.
    cbn. intros Heq. apply app_eq_nil in Heq as [_ Heq]. discriminate Heq.
Qed.

Lemma bucket_of_member buckets p rs :
  NoDup (map fst buckets) -> (p, rs) ∈ buckets -> bucket buckets p = rs.
Proof.
  induction buckets as [|[k rs'] rest IH]; intros Hnd Hin; [inversion Hin|].
  cbn [map fst] in Hnd. apply NoDup_cons in Hnd as [Hk Hnd].
  cbn [bucket].
  apply elem_of_cons in Hin as [[= <- <-]|Hin].
  - destruct (path_eqb_spec p p); [reflexivity | congruence].
  - destruct (path_eqb_spec k p) as [->|Hne]; [|apply IH; assumption].
    exfalso. apply Hk. apply list_elem_of_fmap. exists (p, rs). split; [reflexivity | exact Hin].
Qed.

Lemma bucket_member buckets p :
  bucket buckets p <> [] -> (p, bucket buckets p) ∈ buckets.
Proof.
  induction buckets as [|[k rs] rest IH]; cbn [bucket]; [congruence|].
  destruct (path_eqb_spec k p) as [->|Hne].
  - intros _. constructor.
  - intros Hb. right. apply IH, Hb.
Qed.

Section Grouping.
Context `{UnicodeDB}.
Variables (client : TelegramClient) (channel : pystr) (raw_path image_dir : Path).
Variables (since until : option datetime).

#[local] Abbreviation body := (scrape_message client channel raw_path image_dir since until).
#[local] Abbreviation loop := (scrape_loop client channel raw_path image_dir since until).

(** What the loop body keeps of a message: its record and the partition
    of its day, when the message has a timestamp within the bounds. *)
Definition kept (m : Message) : option (Path * TelegramMessageRecord) :=
  match Tl.date m with
  | None => None
  | Some d =>
      match before since d, after until d with
      | Ok false, Ok false =>
          Some (get_partition_path raw_path d channel,
                build_message_record m channel (image_of image_dir m) d)
      | _, _ => None
      end
  end.

(** The records kept of a list of messages for one partition, in the
    order of the list. *)
Definition records_of (p : Path) (messages : list Message) : list TelegramMessageRecord :=
  map snd (filter (fun x => fst x = p) (omap kept messages)).

Lemma records_of_cons p m messages :
  records_of p (m :: messages) =
    match kept m with
    | Some (q, r) => (if path_eqb q p then [r] else []) ++ records_of p messages
    | None => records_of p messages
    end.
Proof.
  unfold records_of. cbn [omap list_omap]. destruct (kept m) as [[q r]|]; [|reflexivity].
  rewrite filter_cons. cbn [fst].
  destruct (path_eqb_spec q p) as [->|Hne].
  - rewrite decide_True by reflexivity. reflexivity.
  - rewrite decide_False by exact Hne. reflexivity.
Qed.

Lemma scrape_message_kept_record m st st' :
  body m st = Ok st' ->
  records_by_day st' =
    match kept m with
    | Some (q, r) => bucket_append (records_by_day st) q r
    | None => records_by_day st
    end.
Proof.
  intros Hbody. unfold kept.
  destruct (scrape_message_ok client channel raw_path image_dir since until m st st' Hbody)
    as [[Hsame [Hnone|(d & Hd & Hout)]]|(d & Hd & [Hb Ha] & Happ)].
  - rewrite Hnone. exact Hsame.
  - rewrite Hd. destruct Hout as [Hb|[Hb Ha]]; rewrite Hb; [exact Hsame|].
    rewrite Ha. exact Hsame.
  - rewrite Hd, Hb, Ha. exact Happ.
Qed.

Lemma scrape_loop_step limit m rest st :
  limit <> Some O ->
  loop limit (Fetched m :: rest) st =
    match body m st with
    | Ok st1 => loop (pred <$> limit) rest st1
    | Raise e => (Raise e, downloaded st)
    end
  /\ iterated limit (Fetched m :: rest) = m :: iterated (pred <$> limit) rest.
Proof. destruct limit as [[|n]|]; [congruence|split; reflexivity..]. Qed.

Lemma scrape_loop_end limit feed st :
  limit = Some O \/ feed = [] ->
  loop limit feed st = (Ok st, downloaded st) /\ iterated limit feed = [].
Proof.
  intros [->| ->]; [destruct feed; split; reflexivity|].
  destruct limit as [[|n]|]; split; reflexivity.
Qed.

(** The buckets that a completed iteration leaves: those it started
    with, each followed by the records kept for its key. *)
Lemma scrape_loop_buckets limit feed st st' imgs :
  loop limit feed st = (Ok st', imgs) ->
  (forall p, bucket (records_by_day st') p
             = bucket (records_by_day st) p ++ records_of p (iterated limit feed)) /\
  (NoDup (map fst (records_by_day st)) -> NoDup (map fst (records_by_day st'))) /\
  (Forall (fun b => snd b <> []) (records_by_day st) ->
   Forall (fun b => snd b <> []) (records_by_day st')).
Proof.
  revert limit st. induction feed as [|[m|] rest IH]; intros limit st Hloop.
  - destruct (scrape_loop_end limit [] st (or_intror eq_refl)) as [E1 E2].
    rewrite E1 in Hloop. injection Hloop as <- _. rewrite E2.
    split; [intros p; unfold records_of; cbn; rewrite app_nil_r; reflexivity | auto].
  - destruct (decide (limit = Some O)) as [Hlim|Hlim].
    { destruct (scrape_loop_end limit (Fetched m :: rest) st (or_introl Hlim)) as [E1 E2].
      rewrite E1 in Hloop. injection Hloop as <- _. rewrite E2.
      split; [intros p; unfold records_of; cbn; rewrite app_nil_r; reflexivity | auto]. }
    destruct (scrape_loop_step limit m rest st Hlim) as [E1 E2].
    rewrite E1 in Hloop. rewrite E2.
    destruct (body m st) as [st1|e] eqn:Hbody; [|discriminate].
    destruct (IH _ _ Hloop) as (Hb & Hnd & Hfill).
    pose proof (scrape_message_kept_record m st st1 Hbody) as Hst1.
    split; [|split].
    + intros p. rewrite Hb, Hst1, records_of_cons.
      destruct (kept m) as [[q r]|]; [|reflexivity].
      rewrite bucket_append_lookup, <- app_assoc. reflexivity.
    + intros H0. apply Hnd. rewrite Hst1.
      destruct (kept m) as [[q r]|]; [apply bucket_append_NoDup|]; exact H0.
    + intros H0. apply Hfill. rewrite Hst1.
      destruct (kept m) as [[q r]|]; [apply bucket_append_filled|]; exact H0.
  - destruct limit as [[|n]|]; cbn in Hloop; [|discriminate..].
    injection Hloop as <- _. cbn [iterated].
    split; [intros p; unfold records_of; cbn; rewrite app_nil_r; reflexivity | auto].
Qed.

(** One record per message kept. *)
Lemma scrape_loop_count limit feed st st' imgs :
  loop limit feed st = (Ok st', imgs) ->
  length (bucketed (records_by_day st'))
  = length (bucketed (records_by_day st)) + length (omap kept (iterated limit feed)).
Proof.
  revert limit st. induction feed as [|[m|] rest IH]; intros limit st Hloop.
  - destruct (scrape_loop_end limit [] st (or_intror eq_refl)) as [E1 E2].
    rewrite E1 in Hloop. injection Hloop as <- _. rewrite E2. cbn. lia.
  - destruct (decide (limit = Some O)) as [Hlim|Hlim].
    { destruct (scrape_loop_end limit (Fetched m :: rest) st (or_introl Hlim)) as [E1 E2].
      rewrite E1 in Hloop. injection Hloop as <- _. rewrite E2. cbn. lia. }
    destruct (scrape_loop_step limit m rest st Hlim) as [E1 E2].
    rewrite E1 in Hloop. rewrite E2.
    destruct (body m st) as [st1|e] eqn:Hbody; [|discriminate].
    rewrite (IH _ _ Hloop), (scrape_message_kept_record m st st1 Hbody).
    cbn [omap list_omap]. destruct (kept m) as [[q r]|]; [|reflexivity].
    rewrite length_bucketed_append. cbn [length]. lia.
  - destruct limit as [[|n]|]; cbn in Hloop; [|discriminate..].
    injection Hloop as <- _. cbn. lia.
Qed.

Lemma scrape_loop_grouping limit feed imgs0 st imgs :
  loop limit feed {| records_by_day := []; downloaded := imgs0 |} = (Ok st, imgs) ->
  NoDup (map fst (records_by_day st)) /\
  (forall p rs,
     (p, rs) ∈ records_by_day st
     <-> rs <> [] /\ rs = records_of p (iterated limit feed)) /\
  length (bucketed (records_by_day st)) = length (omap kept (iterated limit feed)).
Proof.
  intros Hloop.
  destruct (scrape_loop_buckets limit feed _ st imgs Hloop) as (Hb & Hnd & Hfill).
  cbn [records_by_day map bucket app] in Hb, Hnd, Hfill.
  specialize (Hnd NoDup_nil_2). specialize (Hfill (Forall_nil_2 _)).
  split; [exact Hnd|]. split.
  - intros p rs. split.
    + intros Hin. split.
      * rewrite Forall_forall in Hfill. exact (Hfill _ Hin).
      * rewrite <- Hb. symmetry. apply bucket_of_member; assumption.
    + intros [Hne ->]. rewrite <- Hb in *. apply bucket_member, Hne.
  - rewrite (scrape_loop_count _ _ _ _ _ Hloop). reflexivity.
Qed.

(** X6: when the iteration of a channel completes, [records_by_day] has
    one bucket per partition path, none of them empty; the bucket of a
    path holds the records of the messages kept for that path, in the
    order in which the platform served them; and there is one record per
    message kept. *)
Theorem buckets_group_by_partition limit feed imgs0 st imgs :
  loop limit feed {| records_by_day := []; downloaded := imgs0 |} = (Ok st, imgs) ->
  NoDup (map fst (records_by_day st)) /\
  (forall p rs,
     (p, rs) ∈ records_by_day st
     <-> rs <> [] /\ rs = records_of p (iterated limit feed)) /\
  length (bucketed (records_by_day st)) = length (omap kept (iterated limit feed)).
Proof. apply scrape_loop_grouping. Qed.

(** *** The limit *)

Lemma scrape_loop_limit n feed st :
  loop (Some n) feed st = loop None (take n feed) st.
Proof.
  revert feed st. induction n as [|n IH]; intros feed st.
  - destruct feed; reflexivity.
  - destruct feed as [|[m|] rest]; [reflexivity| |reflexivity].
    cbn [take scrape_loop fmap option_fmap option_map pred].
    destruct (body m st) as [st1|e]; [apply IH | reflexivity].
Qed.

Lemma iterated_limit n feed : length (iterated (Some n) feed) <= n.
Proof.
  revert feed. induction n as [|n IH]; intros feed; [destruct feed; cbn; lia|].
  destruct feed as [|[m|] rest]; cbn [iterated length fmap option_fmap option_map pred]; try lia.
  specialize (IH rest). lia.
Qed.

Lemma length_omap_le {A B} (f : A -> option B) (l : list A) : length (omap f l) <= length l.
Proof.
  induction l as [|a l IH]; [reflexivity|]. cbn [omap list_omap].
  destruct (f a); cbn [length]; lia.
Qed.

(** X7: a limit of [n] messages makes the iteration that of the first [n]
    fetches: what the channel serves after them is not looked at, and a
    completed iteration keeps at most [n] records. *)
Theorem limit_bounds_iteration n feed imgs0 st imgs :
  loop (Some n) feed {| records_by_day := []; downloaded := imgs0 |} = (Ok st, imgs) ->
  loop None (take n feed) {| records_by_day := []; downloaded := imgs0 |} = (Ok st, imgs) /\
  length (bucketed (records_by_day st)) <= n.
Proof.
  intros Hloop. split; [rewrite <- scrape_loop_limit; exact Hloop|].
  rewrite (scrape_loop_count _ _ _ _ _ Hloop). cbn [records_by_day bucketed flat_map length].
  pose proof (length_omap_le kept (iterated (Some n) feed)).
  pose proof (iterated_limit n feed). lia.
Qed.

(** *** The images *)

Lemma scrape_message_images m st st' :
  body m st = Ok st' ->
  downloaded st ⊆ downloaded st' /\
  (forall p, p ∈ downloaded st' -> p ∈ downloaded st \/ image_of image_dir m = Some p) /\
  (forall q r s, kept m = Some (q, r) -> Scraper.image_path r = Some s ->
     exists p, p ∈ downloaded st' /\ s = path_str p).
Proof.
  unfold scrape_message, kept, image_of. destruct (Tl.date m) as [d|].
  2:{ intros [= <-]. split; [reflexivity|]. split; [auto | discriminate]. }
  destruct (before since d) as [[|]|e]; cbn; [| |discriminate].
  { intros [= <-]. split; [reflexivity|]. split; [auto | discriminate]. }
  destruct (after until d) as [[|]|e]; cbn; [| |discriminate].
  { intros [= <-]. split; [reflexivity|]. split; [auto | discriminate]. }
  destruct (Tl.photo m); cbn.
  - destruct (download_media client channel m); cbn; [|discriminate].
    intros [= <-]. cbn [downloaded]. split; [apply union_subseteq_r|]. split.
    + intros p Hp. apply elem_of_union in Hp as [Hp|Hp]; [|left; exact Hp].
      apply elem_of_singleton in Hp as ->. right. reflexivity.
    + intros q r s [= <- <-]. cbn. intros [= <-]. eexists. split; [|reflexivity].
      apply elem_of_union_l, elem_of_singleton. reflexivity.
  - intros [= <-]. cbn [downloaded]. split; [reflexivity|]. split; [auto|].
    intros q r s [= <- <-]. cbn. discriminate.
Qed.

Lemma scrape_loop_images limit feed st r imgs :
  loop limit feed st = (r, imgs) ->
  downloaded st ⊆ imgs /\
  (forall p, p ∈ imgs ->
     p ∈ downloaded st \/ exists m, m ∈ iterated limit feed /\ image_of image_dir m = Some p) /\
  (forall st', r = Ok st' ->
     (forall q rec s, (q, rec) ∈ bucketed (records_by_day st) ->
        Scraper.image_path rec = Some s -> exists p, p ∈ downloaded st /\ s = path_str p) ->
     forall q rec s, (q, rec) ∈ bucketed (records_by_day st') ->
       Scraper.image_path rec = Some s -> exists p, p ∈ imgs /\ s = path_str p).
Proof.
  revert limit st. induction feed as [|[m|] rest IH]; intros limit st Hloop.
  - destruct (scrape_loop_end limit [] st (or_intror eq_refl)) as [E1 E2].
    rewrite E1 in Hloop. injection Hloop as <- <-.
    split; [reflexivity|]. split; [auto|]. intros st' [= <-]. auto.
  - destruct (decide (limit = Some O)) as [Hlim|Hlim].
    { destruct (scrape_loop_end limit (Fetched m :: rest) st (or_introl Hlim)) as [E1 E2].
      rewrite E1 in Hloop. injection Hloop as <- <-.
      split; [reflexivity|]. split; [auto|]. intros st' [= <-]. auto. }
    destruct (scrape_loop_step limit m rest st Hlim) as [E1 E2].
    rewrite E1 in Hloop. rewrite E2.
    destruct (body m st) as [st1|e] eqn:Hbody.
    2:{ injection Hloop as <- <-. split; [reflexivity|]. split; [auto | discriminate]. }
    destruct (IH _ _ Hloop) as (Hsub & Hfrom & Hrec).
    destruct (scrape_message_images m st st1 Hbody) as (Hsub1 & Hfrom1 & Hrec1).
    split; [etransitivity; eassumption|]. split.
    + intros p Hp. destruct (Hfrom p Hp) as [Hp1|(m' & Hm' & Hi)].
      * destruct (Hfrom1 p Hp1) as [Hp0|Hi]; [left; exact Hp0|].
        right. exists m. split; [left | exact Hi].
      * right. exists m'. split; [right; exact Hm' | exact Hi].
    + intros st' Hr H0. apply (Hrec st' Hr).
      intros q rec s Hin Hs.
      rewrite (scrape_message_kept_record m st st1 Hbody) in Hin.
      destruct (kept m) as [[q' r']|] eqn:Ek.
      * apply bucketed_append in Hin as [Hin|[= -> ->]].
        -- destruct (H0 q rec s Hin Hs) as (p & Hp & ->). exists p. split; [apply Hsub1, Hp | reflexivity].
        -- apply (Hrec1 q' r' s eq_refl Hs).
      * destruct (H0 q rec s Hin Hs) as (p & Hp & ->). exists p. split; [apply Hsub1, Hp | reflexivity].
  - destruct limit as [[|n]|]; cbn in Hloop; injection Hloop as <- <-;
      (split; [reflexivity|]; split; [auto|]); intros st' [=]; subst; auto.
Qed.

Lemma scrape_loop_final_images limit feed st st' imgs :
  loop limit feed st = (Ok st', imgs) -> downloaded st' = imgs.
Proof.
  revert limit st. induction feed as [|[m|] rest IH]; intros limit st Hloop.
  - destruct limit as [[|n]|]; cbn in Hloop; injection Hloop as <- <-; reflexivity.
  - destruct (decide (limit = Some O)) as [->|Hlim].
    { cbn in Hloop. injection Hloop as <- <-. reflexivity. }
    destruct (scrape_loop_step limit m rest st Hlim) as [E1 _].
    rewrite E1 in Hloop.
    destruct (body m st); [apply (IH _ _ Hloop) | discriminate].
  - destruct limit as [[|n]|]; cbn in Hloop; [|discriminate..].
    injection Hloop as <- <-. reflexivity.
Qed.

(** X8: the iteration of a channel only adds image files, and only images
    of messages it was served, whether it completes or fails; when it
    completes, every record that names an image names one that is on
    disk. *)
Theorem images_follow_records limit feed imgs0 r imgs :
  loop limit feed {| records_by_day := []; downloaded := imgs0 |} = (r, imgs) ->
  imgs0 ⊆ imgs /\
  (forall p, p ∈ imgs ->
     p ∈ imgs0 \/ exists m, m ∈ iterated limit feed /\ Tl.photo m = true /\
                    p = div image_dir (encode_int (Tl.id m) ++ str ".jpg")) /\
  (forall st q rec s, r = Ok st -> (q, rec) ∈ bucketed (records_by_day st) ->
     Scraper.image_path rec = Some s -> exists p, p ∈ imgs /\ s = path_str p).
Proof.
  intros Hloop. destruct (scrape_loop_images limit feed _ r imgs Hloop) as (Hsub & Hfrom & Hrec).
  split; [exact Hsub|]. split.
  - intros p Hp. destruct (Hfrom p Hp) as [H0|(m & Hm & Hi)]; [left; exact H0|].
    right. exists m. split; [exact Hm|]. unfold image_of in Hi.
    destruct (Tl.photo m); [|discriminate]. injection Hi as <-. split; reflexivity.
  - intros st q rec s Hr Hin Hs. apply (Hrec st Hr) with (q := q) (rec := rec); [|assumption..].
    cbn. intros q' rec' s' Hin'. inversion Hin'.
Qed.

(** *** A bound that does not compare *)

(** Whether a timestamp carries an offset from UTC. *)
Definition aware (d : datetime) : bool :=
  match utcoffset d with Some _ => true | None => false end.

Lemma dt_compare_mixed a b : aware a <> aware b -> dt_compare a b = Raise TypeError.
Proof. unfold aware, dt_compare. destruct (utcoffset a), (utcoffset b); congruence. Qed.

Lemma scrape_loop_body_raises feed st m :
  Fetched m ∈ feed -> (forall st1, exists e, body m st1 = Raise e) ->
  exists e imgs, loop None feed st = (Raise e, imgs).
Proof.
  intros Hin Hraise. revert st.
  induction feed as [|[m'|] rest IH]; intros st.
  - inversion Hin.
  - cbn [scrape_loop fmap option_fmap option_map].
    apply elem_of_cons in Hin as [[= <-]|Hin].
    + destruct (Hraise st) as (e & ->). eauto.
    + destruct (body m' st) as [st1|e]; [apply (IH Hin) | eauto].
  - cbn. eauto.
Qed.

Lemma scrape_message_mixed m d st :
  Tl.date m = Some d ->
  (exists s, since = Some s /\ aware s <> aware d)
  \/ (since = None /\ exists u, until = Some u /\ aware u <> aware d) ->
  body m st = Raise TypeError.
Proof.
  intros Hd Hmix. unfold scrape_message. rewrite Hd.
  destruct Hmix as [(s & -> & Hs)|(-> & u & -> & Hu)].
  - unfold before, dt_lt. rewrite dt_compare_mixed by congruence. reflexivity.
  - unfold before, after, dt_gt. cbn. rewrite dt_compare_mixed by congruence. reflexivity.
Qed.

Lemma records_of_partition p messages :
  records_of p messages <> [] -> exists d, p = get_partition_path raw_path d channel.
Proof.
  induction messages as [|m ms IH]; [intros Hne; exfalso; apply Hne; reflexivity|].
  rewrite records_of_cons. destruct (kept m) as [[q r]|] eqn:Ek; [|exact IH].
  destruct (path_eqb_spec q p) as [<-|_]; [|exact IH]. intros _.
  unfold kept in Ek. destruct (Tl.date m) as [d|]; [|discriminate].
  destruct (before since d) as [[|]|]; try discriminate.
  destruct (after until d) as [[|]|]; try discriminate.
  injection Ek as <- _. exists d. reflexivity.
Qed.

(** *** An interval without any instant *)

(** The instant that a timestamp is compared by. *)
Definition compared_at (d : datetime) : Z := instant d (default 0%Z (utcoffset d)).

Lemma dt_compare_ok a b c : dt_compare a b = Ok c -> c = (compared_at a ?= compared_at b)%Z.
Proof.
  unfold dt_compare, compared_at. destruct (utcoffset a), (utcoffset b); cbn; congruence.
Qed.

Lemma scrape_message_not_kept m st st' : kept m = None -> body m st = Ok st' -> st' = st.
Proof.
  unfold kept, scrape_message. destruct (Tl.date m) as [d|]; [|intros _ [= <-]; reflexivity].
  destruct (before since d) as [[|]|e]; cbn; [intros _ [= <-]; reflexivity| |discriminate].
  destruct (after until d) as [[|]|e]; cbn; [intros _ [= <-]; reflexivity|discriminate..].
Qed.

Lemma scrape_loop_nothing_kept limit feed st st' imgs :
  (forall m, m ∈ iterated limit feed -> kept m = None) ->
  loop limit feed st = (Ok st', imgs) -> st' = st /\ imgs = downloaded st.
Proof.
  revert limit st. induction feed as [|[m|] rest IH]; intros limit st Hnone Hloop.
  - destruct (scrape_loop_end limit [] st (or_intror eq_refl)) as [E1 _].
    rewrite E1 in Hloop. injection Hloop as <- <-. split; reflexivity.
  - destruct (decide (limit = Some O)) as [->|Hlim].
    { cbn in Hloop. injection Hloop as <- <-. split; reflexivity. }
    destruct (scrape_loop_step limit m rest st Hlim) as [E1 E2].
    rewrite E1 in Hloop. rewrite E2 in Hnone.
    destruct (body m st) as [st1|e] eqn:Hbody; [|discriminate].
    apply scrape_message_not_kept in Hbody as ->; [|apply Hnone; left].
    apply (IH _ _ (fun m' Hm' => Hnone m' (list_elem_of_further _ _ _ Hm')) Hloop).
  - destruct limit as [[|n]|]; cbn in Hloop; [|discriminate..].
    injection Hloop as <- <-. split; reflexivity.
Qed.

(** X9: with a lower bound later than the upper bound, an iteration that
    completes keeps no record and downloads no image. *)
Theorem empty_interval_keeps_nothing limit feed imgs0 st imgs (s u : datetime) :
  since = Some s -> until = Some u -> dt_compare s u = Ok Gt ->
  loop limit feed {| records_by_day := []; downloaded := imgs0 |} = (Ok st, imgs) ->
  records_by_day st = [] /\ imgs = imgs0.
Proof.
  intros Hs Hu Hsu Hloop.
  destruct (scrape_loop_nothing_kept limit feed
              {| records_by_day := []; downloaded := imgs0 |} st imgs) as [-> ->];
    [|exact Hloop|split; reflexivity].
  intros m _. unfold kept. destruct (Tl.date m) as [d|]; [|reflexivity].
  rewrite Hs, Hu. unfold before, after, dt_lt, dt_gt.
  destruct (dt_compare d s) as [c1|e1] eqn:E1; cbn; [|reflexivity].
  destruct (dt_compare d u) as [c2|e2] eqn:E2; cbn; [|destruct c1; reflexivity].
  apply dt_compare_ok in E1, E2, Hsu. subst c1 c2. symmetry in Hsu.
  apply Z.compare_gt_iff in Hsu.
  destruct (Z.compare_spec (compared_at d) (compared_at s)); [| reflexivity |];
    destruct (Z.compare_spec (compared_at d) (compared_at u)); try reflexivity; lia.
Qed.

End Grouping.

(** *** The files of a channel *)

Section Flushed.
Context `{DirectoryOrder}.

Lemma flushed_cons b buckets fs :
  flushed (b :: buckets) fs = flushed buckets (write_file fs (fst b) (partition_text (snd b))).
Proof. reflexivity. Qed.

Lemma flushed_read_other buckets fs p :
  p ∉ map fst buckets -> read_file (flushed buckets fs) p = read_file fs p.
Proof.
  revert fs. induction buckets as [|[k rs] rest IH]; intros fs Hp; [reflexivity|].
  rewrite flushed_cons. cbn [map fst snd] in *.
  rewrite IH by (intros Hin; apply Hp; right; exact Hin).
  apply read_write_other. intros ->. apply Hp. left.
Qed.

Lemma flushed_read buckets fs p rs :
  NoDup (map fst buckets) -> (p, rs) ∈ buckets ->
  read_file (flushed buckets fs) p = Some (partition_text rs).
Proof.
  revert fs. induction buckets as [|[k rs'] rest IH]; intros fs Hnd Hin; [inversion Hin|].
  cbn [map fst] in Hnd. apply NoDup_cons in Hnd as [Hk Hnd].
  rewrite flushed_cons. cbn [fst snd].
  apply elem_of_cons in Hin as [[= <- <-]|Hin].
  - rewrite flushed_read_other by exact Hk. apply read_write_same.
  - apply IH; assumption.
Qed.

Lemma flushed_settled buckets fs :
  (forall p rs, (p, rs) ∈ buckets -> read_file fs p = Some (partition_text rs)) ->
  flushed buckets fs = fs.
Proof.
  induction buckets as [|[k rs] rest IH]; intros Hall; [reflexivity|].
  rewrite flushed_cons. cbn [fst snd].
  rewrite write_file_same by (apply Hall; left).
  apply IH. intros p rs' Hin. apply Hall. right. exact Hin.
Qed.

End Flushed.

Section Channel.
Context `{UnicodeDB} `{DirectoryOrder}.
Variables (client : TelegramClient) (raw_path images_path : Path).
Variables (limit : option nat) (since until : option datetime).

#[local] Abbreviation scrape1 :=
  (fun channel => scrape_channel client channel raw_path images_path limit since until).

(** The records that a channel's partition [p] gets: those kept of the
    messages that the channel serves. *)
Definition channel_records (channel : pystr) (p : Path) : list TelegramMessageRecord :=
  records_of channel raw_path (div images_path (slugify channel)) since until p
    (iterated limit (history client channel)).

(** X10: after a channel has been scraped to the end, the file of each of its
    partitions holds the dump of the records kept for it, in the order
    of the platform, whatever the file held before; every other file is
    as it was. *)
Theorem partition_files_written channel d d' (p : Path) :
  scrape1 channel d = (Ok tt, d') ->
  (channel_records channel p <> [] ->
   read_file (files d') p = Some (partition_text (channel_records channel p))) /\
  (channel_records channel p = [] -> read_file (files d') p = read_file (files d) p).
Proof.
  intros Hrun.
  destruct (scrape_channel_written client raw_path images_path limit since until
              channel d d' Hrun) as (st & imgs & Hloop & -> & _).
  destruct (scrape_loop_grouping client channel raw_path _ since until
              limit _ _ st imgs Hloop) as (Hnd & Hgroup & _).
  fold (channel_records channel p) in *. split.
  - intros Hne. apply flushed_read; [exact Hnd|]. apply Hgroup. split; [exact Hne | reflexivity].
  - intros Hnone. apply flushed_read_other. intros Hin.
    apply list_elem_of_fmap in Hin as ([q rs] & -> & Hin). cbn [fst] in *.
    apply Hgroup in Hin as [Hne ->]. exact (Hne Hnone).
Qed.

Lemma scrape_loop_more_images channel image_dir feed lim st st' imgs extra :
  scrape_loop client channel raw_path image_dir since until lim feed st = (Ok st', imgs) ->
  scrape_loop client channel raw_path image_dir since until lim feed
    {| records_by_day := records_by_day st; downloaded := downloaded st ∪ extra |}
  = (Ok {| records_by_day := records_by_day st'; downloaded := downloaded st' ∪ extra |},
     imgs ∪ extra).
Proof.
  revert lim st. induction feed as [|[m|] rest IH]; intros lim st Hloop.
  - destruct (scrape_loop_end client channel raw_path image_dir since until lim [] st
                (or_intror eq_refl)) as [E1 _].
    rewrite E1 in Hloop. injection Hloop as <- <-.
    destruct lim as [[|n]|]; reflexivity.
  - destruct (decide (lim = Some O)) as [->|Hlim].
    { cbn in Hloop. injection Hloop as <- <-. reflexivity. }
    destruct (scrape_loop_step client channel raw_path image_dir since until
                lim m rest st Hlim) as [E1 _].
    destruct (scrape_loop_step client channel raw_path image_dir since until lim m rest
                {| records_by_day := records_by_day st; downloaded := downloaded st ∪ extra |}
                Hlim) as [E2 _].
    rewrite E1 in Hloop. rewrite E2. clear E1 E2.
    destruct (scrape_message client channel raw_path image_dir since until m st)
      as [st1|e] eqn:Hbody; [|discriminate].
    assert (Hbody' : scrape_message client channel raw_path image_dir since until m
              {| records_by_day := records_by_day st; downloaded := downloaded st ∪ extra |}
            = Ok {| records_by_day := records_by_day st1;
                    downloaded := downloaded st1 ∪ extra |}).
    { revert Hbody. unfold scrape_message. destruct (Tl.date m) as [dt|]; [|intros [= <-]; reflexivity].
      destruct (before since dt) as [[|]|e]; cbn; [intros [= <-]; reflexivity| |discriminate].
      destruct (after until dt) as [[|]|e]; cbn; [intros [= <-]; reflexivity| |discriminate].
      destruct (Tl.photo m); cbn.
      - destruct (download_media client channel m); cbn; [|discriminate].
        intros [= <-]. cbn. rewrite (assoc_L (∪)). reflexivity.
      - intros [= <-]. reflexivity. }
    rewrite Hbody'. apply (IH _ _ Hloop).
  - destruct lim as [[|n]|]; cbn in Hloop; [|discriminate..].
    injection Hloop as <- <-. reflexivity.
Qed.

(** X11: scraping a channel a second time, with the platform serving the
    same history, leaves the disk as the first run left it: each
    partition file is written again with the same text. *)
Theorem rescrape_changes_nothing channel d d' :
  scrape_channel client channel raw_path images_path limit since until d = (Ok tt, d') ->
  scrape_channel client channel raw_path images_path limit since until d' = (Ok tt, d').
Proof.
  intros Hrun.
  destruct (scrape_channel_written client raw_path images_path limit since until
              channel d d' Hrun) as (st & imgs & Hloop & Hfiles & Hencodable & Hi).
  pose proof (scrape_loop_final_images client channel raw_path _ since until _ _ _ _ _ Hloop)
    as Hst.
  destruct (scrape_loop_images client channel raw_path _ since until limit _ _ _ _ Hloop)
    as (Hsub & _ & _). cbn [downloaded] in Hsub.
  pose proof (scrape_loop_more_images channel _ _ _ _ _ _ imgs Hloop) as Hagain.
  cbn [records_by_day downloaded] in Hagain.
  rewrite Hst, (subseteq_union_1_L _ _ Hsub), (union_idemp_L imgs) in Hagain.
  unfold scrape_channel. rewrite Hi, Hagain.
  rewrite (flush_encodable _ _ Hencodable).
  destruct (scrape_loop_grouping client channel raw_path _ since until
              limit _ _ st imgs Hloop) as (Hnd & _ & _).
  rewrite flushed_settled.
  - destruct d' as [fs' imgs']. cbn in *. subst. reflexivity.
  - intros p rs Hin. rewrite Hfiles. apply flushed_read; assumption.
Qed.

(** X12: two channels scraped one after the other share a partition
    file only if their names have the same slug: a file that the first
    wrote is as the first left it when the slugs differ, and holds the
    records of the second only, those of the first gone, when the second
    has records for the same path. *)
Theorem channels_meet_by_slug first second d d1 d2 (p : Path) :
  scrape1 first d = (Ok tt, d1) -> scrape1 second d1 = (Ok tt, d2) ->
  channel_records first p <> [] ->
  (slugify first <> slugify second ->
   read_file (files d2) p = Some (partition_text (channel_records first p))) /\
  (channel_records second p <> [] ->
   read_file (files d2) p = Some (partition_text (channel_records second p))).
Proof.
  intros Hfirst Hsecond Hp.
  assert (Hwritten : forall channel a b q,
            scrape1 channel a = (Ok tt, b) ->
            (channel_records channel q <> [] ->
             read_file (files b) q = Some (partition_text (channel_records channel q))) /\
            (channel_records channel q = [] -> read_file (files b) q = read_file (files a) q)).
  { intros channel a b q Hrun.
    destruct (scrape_channel_written client raw_path images_path limit since until
                channel a b Hrun) as (st & imgs & Hloop & -> & _).
    destruct (scrape_loop_grouping client channel raw_path _ since until
                limit _ _ st imgs Hloop) as (Hnd & Hgroup & _).
    fold (channel_records channel q) in *. split.
    - intros Hne. apply flushed_read; [exact Hnd|]. apply Hgroup. split; [exact Hne | reflexivity].
    - intros Hnone. apply flushed_read_other. intros Hin.
      apply list_elem_of_fmap in Hin as ([q' rs] & -> & Hin). cbn [fst] in *.
      apply Hgroup in Hin as [Hne ->]. exact (Hne Hnone). }
  split.
  - intros Hslug.
    destruct (Hwritten first d d1 p Hfirst) as [H1 _].
    destruct (Hwritten second d1 d2 p Hsecond) as [_ H2].
    rewrite H2; [apply H1, Hp|].
    destruct (channel_records second p) as [|r rs] eqn:E2; [reflexivity|]. exfalso.
    destruct (records_of_partition first raw_path _ since until p _ Hp) as (da & Ha).
    destruct (records_of_partition second raw_path (div images_path (slugify second))
                since until p (iterated limit (history client second))) as (db & Hb).
    { unfold channel_records in E2. rewrite E2. discriminate. }
    rewrite Ha in Hb. rewrite !PartitionKeys.get_partition_path_components in Hb.
    apply app_inv_head in Hb. injection Hb as _ Hfile.
    apply app_inv_tail in Hfile. exact (Hslug Hfile).
  - apply (Hwritten second d1 d2 p Hsecond).
Qed.

(** X13: a bound without offset against timestamps with one (or the other
    way round) cannot be compared: the first such message aborts the
    channel, and nothing is written for it. *)
Theorem mixed_bound_aborts channel d m dt :
  limit = None -> Fetched m ∈ history client channel -> Tl.date m = Some dt ->
  (exists s, since = Some s /\ aware s <> aware dt)
  \/ (since = None /\ exists u, until = Some u /\ aware u <> aware dt) ->
  exists e d', scrape1 channel d = (Raise e, d') /\ files d' = files d.
Proof.
  intros -> Hin Hd Hmix. unfold scrape_channel.
  destruct (scrape_loop_body_raises client channel raw_path (div images_path (slugify channel))
              since until (history client channel)
              {| records_by_day := []; downloaded := images d |} m Hin) as (e & imgs & ->).
  - intros st1. exists TypeError. apply (scrape_message_mixed _ _ _ _ _ _ m dt st1 Hd Hmix).
  - eauto.
Qed.

End Channel.

(** *** The January run, again *)

Lemma buckets_group_by_partition_witness :
  exists st imgs,
    chemed_run = (Ok st, imgs) /\
    NoDup (map fst (records_by_day st)) /\
    length (bucketed (records_by_day st)) = 2.
Proof.
  pose proof chemed_run_completes as Hok.
  destruct chemed_run as [[st|e] imgs] eqn:Hrun; [|discriminate Hok].
  exists st, imgs. split; [reflexivity|].
  destruct (@buckets_group_by_partition dotted_I_fragment january_client (str "chemed") lake
              (div image_root (str "chemed")) (Some january_first) (Some january_last)
              None chemed_feed ∅ st imgs Hrun) as (Hnd & _ & Hlen).
  split; [exact Hnd|]. rewrite Hlen. vm_compute. reflexivity.
Defined.

(** The same iteration, limited to the three newest messages. *)
Definition chemed_limited : res scrape_state * gset Path :=
  @scrape_loop dotted_I_fragment january_client (str "chemed") lake
    (div image_root (str "chemed")) (Some january_first) (Some january_last)
    (Some 3) chemed_feed {| records_by_day := []; downloaded := ∅ |}.

Lemma chemed_limited_completes : is_ok (fst chemed_limited) = true.
Proof. vm_compute. reflexivity. Qed.

Lemma limit_bounds_iteration_witness :
  exists st imgs,
    chemed_limited = (Ok st, imgs) /\
    @scrape_loop dotted_I_fragment january_client (str "chemed") lake
      (div image_root (str "chemed")) (Some january_first) (Some january_last)
      None (take 3 chemed_feed) {| records_by_day := []; downloaded := ∅ |} = (Ok st, imgs) /\
    length (bucketed (records_by_day st)) <= 3.
Proof.
  pose proof chemed_limited_completes as Hok.
  destruct chemed_limited as [[st|e] imgs] eqn:Hrun; [|discriminate Hok].
  exists st, imgs. split; [reflexivity|].
  exact (@limit_bounds_iteration dotted_I_fragment january_client (str "chemed") lake
           (div image_root (str "chemed")) (Some january_first) (Some january_last)
           3 chemed_feed ∅ st imgs Hrun).
Defined.

Lemma images_follow_records_witness :
  exists r imgs,
    chemed_run = (r, imgs) /\ (∅ : gset Path) ⊆ imgs /\
    (forall st q rec s, r = Ok st -> (q, rec) ∈ bucketed (records_by_day st) ->
       Scraper.image_path rec = Some s -> exists p, p ∈ imgs /\ s = path_str p).
Proof.
  destruct chemed_run as [r imgs] eqn:Hrun. exists r, imgs. split; [reflexivity|].
  destruct (@images_follow_records dotted_I_fragment january_client (str "chemed") lake
              (div image_root (str "chemed")) (Some january_first) (Some january_last)
              None chemed_feed ∅ r imgs Hrun) as (Hsub & _ & Hrec).
  split; assumption.
Defined.

(** The first channel, scraped onto an empty disk. *)
Definition chemed_channel : res unit * disk :=
  @scrape_channel dotted_I_fragment newest_first january_client (str "chemed") lake image_root
    None (Some january_first) (Some january_last) empty_disk.

Lemma chemed_channel_ok : fst chemed_channel = Ok tt.
Proof. vm_compute. reflexivity. Qed.

Definition january_first_file : Path :=
  @get_partition_path dotted_I_fragment lake january_first (str "chemed").

Lemma january_first_has_records :
  @channel_records dotted_I_fragment january_client lake image_root None
    (Some january_first) (Some january_last) (str "chemed") january_first_file <> [].
Proof. vm_compute. discriminate. Qed.

Lemma partition_files_written_witness :
  exists d',
    chemed_channel = (Ok tt, d') /\
    read_file (files d') january_first_file
    = Some (partition_text
              (@channel_records dotted_I_fragment january_client lake image_root None
                 (Some january_first) (Some january_last) (str "chemed") january_first_file)).
Proof.
  pose proof chemed_channel_ok as Hok.
  destruct chemed_channel as [r d'] eqn:Hrun. cbn [fst] in Hok. subst r.
  exists d'. split; [reflexivity|].
  apply (proj1 (@partition_files_written dotted_I_fragment newest_first january_client lake image_root None
                  (Some january_first) (Some january_last) (str "chemed") empty_disk d'
                  january_first_file Hrun)).
  exact january_first_has_records.
Defined.

Lemma rescrape_changes_nothing_witness :
  exists d',
    chemed_channel = (Ok tt, d') /\
    @scrape_channel dotted_I_fragment newest_first january_client (str "chemed") lake image_root
      None (Some january_first) (Some january_last) d' = (Ok tt, d').
Proof.
  pose proof chemed_channel_ok as Hok.
  destruct chemed_channel as [r d'] eqn:Hrun. cbn [fst] in Hok. subst r.
  exists d'. split; [reflexivity|].
  exact (@rescrape_changes_nothing dotted_I_fragment newest_first january_client lake image_root None
           (Some january_first) (Some january_last) (str "chemed") empty_disk d' Hrun).
Defined.

Lemma chemed_history : history january_client (str "chemed") = chemed_feed.
Proof. vm_compute. reflexivity. Qed.

Lemma mixed_bound_aborts_witness :
  exists e d',
    @scrape_channel dotted_I_fragment newest_first january_client (str "chemed") lake image_root
      None (Some naive_january_first) None empty_disk = (Raise e, d') /\
    files d' = files empty_disk.
Proof.
  apply (@mixed_bound_aborts dotted_I_fragment newest_first january_client lake image_root None
           (Some naive_january_first) None (str "chemed") empty_disk
           (post 5 (Some (utc 2024 2 1 0 0 0)) false) (utc 2024 2 1 0 0 0)).
  - reflexivity.
  - rewrite chemed_history. apply list_elem_of_here.
  - reflexivity.
  - left. exists naive_january_first. split; [reflexivity|]. cbn. discriminate.
Defined.

Definition january_backwards : res scrape_state * gset Path :=
  @scrape_loop dotted_I_fragment january_client (str "chemed") lake
    (div image_root (str "chemed")) (Some january_last) (Some january_first)
    None chemed_feed {| records_by_day := []; downloaded := ∅ |}.

Lemma january_backwards_completes : is_ok (fst january_backwards) = true.
Proof. vm_compute. reflexivity. Qed.

Lemma empty_interval_keeps_nothing_witness :
  exists st imgs,
    january_backwards = (Ok st, imgs) /\ records_by_day st = [] /\ imgs = ∅.
Proof.
  pose proof january_backwards_completes as Hok.
  destruct january_backwards as [[st|e] imgs] eqn:Hrun; [|discriminate Hok].
  exists st, imgs. split; [reflexivity|].
  exact (@empty_interval_keeps_nothing dotted_I_fragment january_client (str "chemed") lake
           (div image_root (str "chemed")) (Some january_last) (Some january_first)
           None chemed_feed ∅ st imgs january_last january_first
           eq_refl eq_refl eq_refl Hrun).
Defined.

(** Two spellings of one channel, on a disk where the first has been
    scraped. *)
Definition spelling_client : TelegramClient :=
  {| history := fun _ => chemed_feed; download_media := fun _ _ => true |}.

Definition first_spelling : res unit * disk :=
  @scrape_channel dotted_I_fragment newest_first spelling_client (str "Chemed") lake image_root
    None (Some january_first) (Some january_last) empty_disk.

Definition second_spelling : res unit * disk :=
  @scrape_channel dotted_I_fragment newest_first spelling_client (str "chemed") lake image_root
    None (Some january_first) (Some january_last) (snd first_spelling).

Lemma first_spelling_ok : fst first_spelling = Ok tt.
Proof. vm_compute. reflexivity. Qed.

Lemma second_spelling_ok : fst second_spelling = Ok tt.
Proof. vm_compute. reflexivity. Qed.

Lemma first_spelling_has_records :
  @channel_records dotted_I_fragment spelling_client lake image_root None
    (Some january_first) (Some january_last) (str "Chemed") january_first_file <> [].
Proof. vm_compute. discriminate. Qed.

Lemma second_spelling_has_records :
  @channel_records dotted_I_fragment spelling_client lake image_root None
    (Some january_first) (Some january_last) (str "chemed") january_first_file <> [].
Proof. vm_compute. discriminate. Qed.

Lemma channels_meet_by_slug_witness :
  exists d1 d2,
    first_spelling = (Ok tt, d1) /\ second_spelling = (Ok tt, d2) /\
    read_file (files d2) january_first_file
    = Some (partition_text
              (@channel_records dotted_I_fragment spelling_client lake image_root None
                 (Some january_first) (Some january_last) (str "chemed") january_first_file)).
Proof.
  pose proof first_spelling_ok as Hok1. pose proof second_spelling_ok as Hok2.
  unfold second_spelling in *.
  destruct first_spelling as [r1 d1] eqn:Hrun1. cbn [fst snd] in *. subst r1.
  destruct (@scrape_channel dotted_I_fragment newest_first spelling_client (str "chemed") lake image_root
              None (Some january_first) (Some january_last) d1) as [r2 d2] eqn:Hrun2.
  cbn [fst] in Hok2. subst r2.
  exists d1, d2. split; [reflexivity|]. split; [reflexivity|].
  apply (proj2 (@channels_meet_by_slug dotted_I_fragment newest_first spelling_client lake image_root None
                  (Some january_first) (Some january_last) (str "Chemed") (str "chemed")
                  empty_disk d1 d2 january_first_file Hrun1 Hrun2 first_spelling_has_records)).
  exact second_spelling_has_records.
Defined.

End Partitions.

(** ** Image enrichment: from the image files to the rows *)

Module Enrichment.

Import Json Slug Detect.

(** yolo_detect.py, [scan_images]: the files below [images_root] whose
    name ends in [.jpg], in the order of the walk. *)
Definition scan_images (walk : list Path) (images_root : Path) : list Path :=
  filter (fun p => Is_true (is_under images_root p
                            && negb (path_eqb p images_root)
                            && endswith (str ".jpg") (name p))) walk.

(** yolo_detect.py, the loop of [main]: a row for each scanned image. *)
Definition detect_images `{UnicodeDB} (model : YOLO) (walk : list Path) (images_root : Path)
  : list DetectionRow * res unit :=
  main_rows model (scan_images walk images_root).

(** Where the scraper puts the photo of a message. *)
Definition photo_path `{UnicodeDB} (images_path : Path) (channel : pystr) (id : Z) : Path :=
  div (div images_path (slugify channel)) (encode_int id ++ str ".jpg").

(** *** Reading an integer back *)

Definition digit_step (acc : N) (c : char) : N := (10 * acc + (c - 48))%N.

Lemma digits_value_digits `{UnicodeDB} (ds : pystr) (acc : Z) (b : bool) :
  Forall is_digit ds -> (0 <= acc)%Z -> ds <> [] \/ b = false ->
  digits_value acc b ds = Some (Z.of_N (fold_left digit_step ds (Z.to_N acc))).
Proof.
  intros Hds. revert acc b. induction Hds as [|c ds Hc _ IH]; intros acc b Hacc Hne.
  - destruct Hne as [Hne| ->]; [congruence|]. cbn. rewrite Z2N.id by exact Hacc. reflexivity.
  - apply is_digit_range in Hc. cbn [digits_value fold_left].
    destruct (N.eqb_spec c 95) as [->|_]; [lia|].
    unfold decimal, is_ascii, ascii_isdigit.
    destruct (N.ltb_spec c 128); [|lia].
    destruct (N.leb_spec 48 c); [|lia]. destruct (N.leb_spec c 57); [|lia]. cbn [andb].
    rewrite IH by (try lia; right; reflexivity).
    do 3 f_equal. unfold digit_step. lia.
Qed.

Lemma strip_int_text `{UnicodeDB} (s : pystr) :
  (forall e, head s = Some e -> (e = 45 \/ 48 <= e <= 57)%N) ->
  (forall e, last s = Some e -> (48 <= e <= 57)%N) ->
  strip_by int_space s = s.
Proof.
  intros Hh Hl. apply Names.strip_by_id.
  - intros e He. specialize (Hh e He). unfold int_space, is_ascii.
    destruct (N.ltb_spec e 128); [|lia].
    destruct (N.eqb_spec e 32); [lia|]. destruct (N.leb_spec 9 e); [|reflexivity].
    destruct (N.leb_spec e 13); [lia | reflexivity].
  - intros e He. specialize (Hl e He). unfold int_space, is_ascii.
    destruct (N.ltb_spec e 128); [|lia].
    destruct (N.eqb_spec e 32); [lia|]. destruct (N.leb_spec 9 e); [|reflexivity].
    destruct (N.leb_spec e 13); [lia | reflexivity].
Qed.

Lemma last_digit (ds : pystr) e : Forall is_digit ds -> last ds = Some e -> (48 <= e <= 57)%N.
Proof.
  intros Hds He. apply last_Some_elem_of in He. rewrite Forall_forall in Hds.
  apply is_digit_range, Hds, He.
Qed.

Lemma py_int_decimal `{UnicodeDB} (n : N) : py_int (decimal_digits n) = Some (Z.of_N n).
Proof.
  destruct (decimal_digits_spec n) as (Hall & Hval & c & r & Hcr & _).
  unfold py_int. rewrite strip_int_text.
  - rewrite Hcr. assert (Hc : (48 <= c <= 57)%N).
    { rewrite Hcr in Hall. apply Forall_cons in Hall as [Hc _]. apply is_digit_range, Hc. }
    destruct (N.eqb_spec c 45); [lia|]. destruct (N.eqb_spec c 43); [lia|].
    rewrite <- Hcr, digits_value_digits; [|exact Hall|lia|left; rewrite Hcr; discriminate].
    change (fold_left digit_step (decimal_digits n) (Z.to_N 0)) with (digits_to_N (decimal_digits n)).
    rewrite Hval. reflexivity.
  - rewrite Hcr. intros e [= <-]. right. rewrite Hcr in Hall.
    apply Forall_cons in Hall as [Hc _]. apply is_digit_range, Hc.
  - intros e He. apply (last_digit _ e Hall He).
Qed.

(** [int(repr(n)) == n] *)
Lemma py_int_encode_int `{UnicodeDB} (n : Z) : py_int (encode_int n) = Some n.
Proof.
  unfold encode_int. destruct (Z.ltb_spec n 0) as [Hneg|Hpos].
  - destruct (decimal_digits_spec (Z.to_N (- n))) as (Hall & Hval & c & r & Hcr & _).
    unfold py_int. rewrite strip_int_text.
    + rewrite N.eqb_refl.
      rewrite digits_value_digits; [|exact Hall|lia|left; rewrite Hcr; discriminate].
      change (fold_left digit_step (decimal_digits (Z.to_N (- n))) (Z.to_N 0))
        with (digits_to_N (decimal_digits (Z.to_N (- n)))).
      rewrite Hval. f_equal. lia.
    + intros e [= <-]. left. reflexivity.
    + intros e He. rewrite Hcr in He, Hall. rewrite last_cons_cons in He.
      apply (last_digit _ e Hall He).
  - rewrite py_int_decimal. f_equal. lia.
Qed.

(** *** The stem of an image name *)

Lemma rfind_none ch s : ch ∉ s -> rfind ch s = None.
Proof.
  induction s as [|c s IH]; [reflexivity|]. intros Hnot. cbn [rfind].
  rewrite IH by (intros Hin; apply Hnot; right; exact Hin).
  destruct (N.eqb_spec c ch) as [->|_]; [|reflexivity]. exfalso. apply Hnot. left.
Qed.

Lemma rfind_last ch x y : ch ∉ y -> rfind ch (x ++ ch :: y) = Some (length x).
Proof.
  intros Hy. induction x as [|c x IH]; cbn [app rfind length].
  - rewrite (rfind_none ch y Hy), N.eqb_refl. reflexivity.
  - rewrite IH. reflexivity.
Qed.

Lemma encode_int_shape (n : Z) :
  encode_int n <> [] /\ 46%N ∉ encode_int n.
Proof.
  assert (Hd : forall k, 46%N ∉ decimal_digits k).
  { intros k Hin. destruct (decimal_digits_spec k) as (Hall & _).
    rewrite Forall_forall in Hall. apply Hall, is_digit_range in Hin. lia. }
  unfold encode_int. destruct (n <? 0)%Z.
  - split; [discriminate|]. intros Hin. apply elem_of_cons in Hin as [Heq|Hin]; [discriminate|].
    exact (Hd _ Hin).
  - split; [|apply Hd].
    destruct (decimal_digits_spec (Z.to_N n)) as (_ & _ & c & r & -> & _). discriminate.
Qed.

Lemma stem_jpg (dir : Path) (base : pystr) :
  base <> [] -> 46%N ∉ base -> stem (div dir (base ++ str ".jpg")) = base.
Proof.
  intros Hne Hdot. unfold stem.
  assert (Hname : name (div dir (base ++ str ".jpg")) = base ++ str ".jpg").
  { unfold div, name. destruct (base ++ str ".jpg") eqn:E.
    - apply (f_equal (@length _)) in E. rewrite length_app in E. cbn in E. lia.
    - rewrite last_snoc. reflexivity. }
  rewrite Hname. change (str ".jpg") with (46%N :: str "jpg").
  rewrite rfind_last.
  - assert (Hc : (0 <? length base) && (length base <? length (base ++ 46%N :: str "jpg") - 1)
                 = true).
    { rewrite length_app. apply andb_true_iff. split; apply Nat.ltb_lt.
      - destruct base; [congruence | cbn; lia].
      - cbn. lia. }
    rewrite Hc. apply take_app_length.
  - intros Hin. repeat (apply elem_of_cons in Hin as [Heq|Hin]; [discriminate|]). inversion Hin.
Qed.

Lemma is_under_app (base rest : Path) : is_under base (base ++ rest) = true.
Proof.
  induction base as [|b base IH]; [reflexivity|]. cbn [app is_under].
  unfold pystr_eqb. rewrite bool_decide_eq_true_2 by reflexivity. exact IH.
Qed.

Lemma endswith_app (x suffix : pystr) : endswith suffix (x ++ suffix) = true.
Proof.
  unfold endswith. rewrite length_app.
  replace (length x + length suffix - length suffix) with (length x) by lia.
  rewrite drop_app_length. unfold pystr_eqb. rewrite bool_decide_eq_true_2 by reflexivity.
  apply Nat.leb_le. lia.
Qed.

Lemma file_below_root (root mid : Path) (x suffix : pystr) :
  is_under root (root ++ mid ++ [x ++ suffix])
  && negb (path_eqb (root ++ mid ++ [x ++ suffix]) root)
  && endswith suffix (name (root ++ mid ++ [x ++ suffix])) = true.
Proof.
  rewrite is_under_app. unfold path_eqb. rewrite bool_decide_eq_false_2.
  - unfold name. rewrite app_assoc, last_snoc. cbn [negb andb default]. apply endswith_app.
  - intros E. apply (f_equal (@length _)) in E. rewrite !length_app in E. cbn in E. lia.
Qed.

Section Images.
Context `{UnicodeDB}.

Lemma photo_path_components (images_path : Path) (channel : pystr) (id : Z) :
  exists mid, photo_path images_path channel id
              = images_path ++ mid ++ [encode_int id ++ str ".jpg"].
Proof.
  unfold photo_path.
  assert (Hfile : encode_int id ++ str ".jpg" <> []).
  { intros E. apply (f_equal (@length _)) in E. rewrite length_app in E. cbn in E. lia. }
  unfold div at 1. destruct (encode_int id ++ str ".jpg") eqn:E; [congruence|]. rewrite <- E.
  unfold div. destruct (slugify channel) as [|c0 slug].
  - exists []. reflexivity.
  - exists [c0 :: slug]. rewrite <- app_assoc. reflexivity.
Qed.

(** X14: the identifier that the scraper writes into the name of an image
    file is the one that the enrichment reads from it, whatever the
    channel; and the image is among those that the scan of the images
    root returns. *)
Theorem image_name_round_trip (images_path : Path) (channel : pystr) (id : Z)
    (walk : list Path) :
  extract_message_id (photo_path images_path channel id) = Ok id /\
  (photo_path images_path channel id ∈ walk ->
   photo_path images_path channel id ∈ scan_images walk images_path).
Proof.
  destruct (encode_int_shape id) as [Hne Hdot]. split.
  - unfold photo_path, extract_message_id. rewrite stem_jpg by assumption.
    rewrite py_int_encode_int. reflexivity.
  - intros Hin. unfold scan_images. apply list_elem_of_filter. split; [|exact Hin].
    destruct (photo_path_components images_path channel id) as (mid & ->).
    rewrite file_below_root. exact I.
Qed.

(** *** The rows of a run *)

Lemma main_rows_cons model p rest :
  main_rows model (p :: rest) =
    match main_row model p with
    | Ok row => let '(rows, r) := main_rows model rest in (row :: rows, r)
    | Raise e => ([], Raise e)
    end.
Proof. reflexivity. Qed.

(** X15: the rows of a run are those of the images before the first one that
    fails, in the order of the scan; the run ends normally when no image
    fails, and otherwise with the exception of the first that does. *)
Theorem rows_until_first_failure (model : YOLO) (images : list Path) :
  exists done rest,
    images = done ++ rest /\
    Forall2 (fun p row => main_row model p = Ok row) done (fst (main_rows model images)) /\
    match rest with
    | [] => snd (main_rows model images) = Ok tt
    | p :: _ => exists e, main_row model p = Raise e /\
                          snd (main_rows model images) = Raise e
    end.
Proof.
  induction images as [|p images (done & rest & Heq & Hrows & Hend)].
  - exists [], []. split; [reflexivity|]. split; [constructor | reflexivity].
  - rewrite main_rows_cons. destruct (main_row model p) as [row|e] eqn:Hp.
    + exists (p :: done), rest. destruct (main_rows model images) as [rows r].
      cbn [fst snd] in *. split; [rewrite Heq; reflexivity|].
      split; [constructor; assumption | exact Hend].
    + exists [], (p :: images). split; [reflexivity|]. split; [constructor|].
      exists e. split; [exact Hp | reflexivity].
Qed.

Lemma main_rows_raises model images p :
  p ∈ images -> is_ok (main_row model p) = false ->
  exists e, snd (main_rows model images) = Raise e.
Proof.
  intros Hin Hbad. induction images as [|q images IH]; [inversion Hin|].
  rewrite main_rows_cons. apply elem_of_cons in Hin as [<-|Hin].
  - destruct (main_row model p) as [row|e]; [discriminate | eauto].
  - destruct (main_row model q) as [row|e]; [|eauto].
    destruct (main_rows model images) as [rows r]. cbn [snd] in *. apply IH, Hin.
Qed.

(** X16: one scanned image whose name, without its suffix, is not an integer
    makes the run fail, whatever the model predicts. *)
Theorem stray_image_fails_the_run (model : YOLO) (walk : list Path) (images_root p : Path) :
  p ∈ scan_images walk images_root -> py_int (stem p) = None ->
  exists e, snd (detect_images model walk images_root) = Raise e.
Proof.
  intros Hin Hname. apply (main_rows_raises model _ p Hin).
  unfold main_row, extract_message_id. rewrite Hname.
  destruct (run_detection model p); reflexivity.
Qed.

(** *** The labels of a prediction *)

Lemma class_labels_named nm (cls : list Z) :
  (forall c, c ∈ cls -> is_Some (nm !! c)) ->
  exists labels, class_labels nm cls = Ok labels /\
                 Forall2 (fun c label => nm !! c = Some label) cls labels.
Proof.
  induction cls as [|c cls IH]; intros Hall.
  - exists []. split; [reflexivity | constructor].
  - destruct (Hall c) as [label Hc]; [left|].
    destruct IH as (labels & Hl & Hf); [intros c' Hc'; apply Hall; right; exact Hc'|].
    exists (label :: labels). cbn [class_labels]. unfold lookup_name. rewrite Hc. cbn.
    rewrite Hl. cbn. split; [reflexivity | constructor; assumption].
Qed.

Lemma class_labels_unnamed nm (cls : list Z) c :
  c ∈ cls -> nm !! c = None -> class_labels nm cls = Raise KeyError.
Proof.
  intros Hin Hc. induction cls as [|c' cls IH]; [inversion Hin|].
  cbn [class_labels]. unfold lookup_name at 1.
  destruct (nm !! c') as [label|] eqn:Hc'; [|reflexivity]. cbn.
  apply elem_of_cons in Hin as [->|Hin]; [congruence|].
  rewrite (IH Hin). reflexivity.
Qed.

(** X17: for an image that the model predicts on: when every class index of
    a box has a label, the result lists one label per box, in the order
    of the boxes, and scores the boxes' confidences; when some class
    index has none, the detection raises [KeyError]. *)
Theorem run_detection_labels (model : YOLO) (path : Path) (d : Detections) :
  model path = Ok d ->
  ((forall c, c ∈ map fst (boxes d) -> is_Some (names d !! c)) ->
   exists labels,
     Forall2 (fun box label => names d !! fst box = Some label) (boxes d) labels /\
     run_detection model path
     = Ok {| image_path := path_str path;
             detected_classes := join (str ",") labels;
             confidence_score := max_conf (map snd (boxes d));
             image_category := categorize_image labels |}) /\
  ((exists c, c ∈ map fst (boxes d) /\ names d !! c = None) ->
   run_detection model path = Raise KeyError).
Proof.
  intros Hm. unfold run_detection. rewrite Hm. cbn. split.
  - intros Hall. destruct (class_labels_named _ _ Hall) as (labels & -> & Hf). cbn.
    exists labels. split.
    + clear - Hf. revert labels Hf. induction (boxes d) as [|b bs IH]; intros labels Hf.
      * inversion Hf. constructor.
      * cbn [map] in Hf. inversion Hf; subst. constructor; [assumption | apply IH; assumption].
    + destruct (boxes d); reflexivity.
  - intros (c & Hin & Hc). rewrite (class_labels_unnamed _ _ c Hin Hc). reflexivity.
Qed.

End Images.

Lemma run_detection_labels_witness :
  exists labels,
    Forall2 (fun box label => names scenario_detections !! fst box = Some label)
            (boxes scenario_detections) labels /\
    run_detection scenario_model scenario_path
    = Ok {| image_path := path_str scenario_path;
            detected_classes := join (str ",") labels;
            confidence_score := max_conf (map snd (boxes scenario_detections));
            image_category := categorize_image labels |}.
Proof.
  apply (proj1 (run_detection_labels scenario_model scenario_path scenario_detections eq_refl)).
  intros c Hc. cbn in Hc.
  apply elem_of_cons in Hc as [->|Hc]; [eexists; vm_compute; reflexivity|].
  apply elem_of_cons in Hc as [->|Hc]; [eexists; vm_compute; reflexivity|].
  inversion Hc.
Defined.

(** A walk of the images root that meets a file that is not one of the
    scraper's. *)
Definition stray_walk : list Path :=
  [ scenario_path; [str "data"; str "raw"; str "images"; str "chemed"; str "cover.jpg"] ].

Lemma stray_image_scanned :
  [str "data"; str "raw"; str "images"; str "chemed"; str "cover.jpg"]
    ∈ scan_images stray_walk [str "data"; str "raw"; str "images"].
Proof. apply (bool_decide_unpack _). vm_compute. exact I. Qed.

Lemma stray_image_fails_the_run_witness :
  exists e, snd (@detect_images dotted_I_fragment scenario_model stray_walk
                   [str "data"; str "raw"; str "images"]) = Raise e.
Proof.
  exact (@stray_image_fails_the_run dotted_I_fragment scenario_model stray_walk
           [str "data"; str "raw"; str "images"]
           [str "data"; str "raw"; str "images"; str "chemed"; str "cover.jpg"]
           stray_image_scanned eq_refl).
Defined.

End Enrichment.

(** ** The warehouse after a run of the loader *)

Module Warehouse.

Import Json Slug Scraper Loader Pipeline.

(** The values that [if not records] takes for empty. *)
Definition falsy (v : json) : Prop :=
  v = JNull \/ v = JBool false \/ v = JInt 0 \/ v = JStr [] \/ v = JArr [] \/ v = JObj []
  \/ exists literal, v = JFloat literal /\ float_is_zero literal = true.

(** Partition files as the writer leaves them and as the annotation of
    [load_messages] has them: a file that parses to a value that is
    true as a condition holds a list of objects. *)
Definition record_lists (fs : list (Path * pystr)) (json_files : list Path) : Prop :=
  forall f v, f ∈ json_files -> load_messages fs f = Ok v -> truthy v = true ->
    exists dicts, v = JArr (map JObj dicts).

(** *** Payloads that count as empty *)

Lemma truthy_false (v : json) : truthy v = false <-> falsy v.
Proof.
  unfold falsy. split.
  - destruct v as [ |[|]|n|literal|s|[|x xs]|[|m ms]]; cbn; try discriminate; intros Hv.
    + left. reflexivity.
    + right. left. reflexivity.
    + apply negb_false_iff, Z.eqb_eq in Hv as ->. do 2 right. left. reflexivity.
    + apply negb_false_iff in Hv. do 6 right. exists literal. split; [reflexivity | exact Hv].
    + apply negb_false_iff in Hv. unfold pystr_eqb in Hv. apply bool_decide_eq_true in Hv as ->.
      do 3 right. left. reflexivity.
    + do 4 right. left. reflexivity.
    + do 5 right. left. reflexivity.
  - intros [->|[->|[->|[->|[->|[->|(literal & -> & Hz)]]]]]]; try reflexivity.
    cbn. rewrite Hz. reflexivity.
Qed.

(** X20: a file whose content is any value that is false as a condition
    ([null], [false], [0], a zero float, the empty string, [[]], [{}]) is
    skipped like an empty array: nothing inserted, nothing printed, no
    error, and the loop goes on as if the file were not there. *)
Theorem falsy_payload_is_skipped `{Pandas} (fs : list (Path * pystr)) (clock : Path -> Z)
    (pre post : list Path) (f : Path) (v : json) (pending : list row) (trace : list event) :
  load_messages fs f = Ok v -> falsy v ->
  load_file fs clock f = Ok ([], []) /\
  load_files fs clock (pre ++ f :: post) pending trace
  = load_files fs clock (pre ++ post) pending trace.
Proof.
  intros Hv Hf. apply truthy_false in Hf.
  assert (Hfile : load_file fs clock f = Ok ([], [])).
  { unfold load_file. rewrite Hv. cbn. rewrite Hf. reflexivity. }
  split; [exact Hfile|]. rewrite !load_files_app.
  destruct (load_files fs clock pre pending trace) as [[[[]|e] pending'] trace'];
    [|reflexivity].
  cbn [load_files]. rewrite Hfile, !app_nil_r. reflexivity.
Qed.

(** *** Files that hold records *)

Section Records.
Context `{Pandas}.

(** Among lists of records, the only file that loads is one that counts
    as empty, and it adds nothing. *)
Lemma load_file_ok_empty fs clock f df out :
  record_lists fs [f] -> load_file fs clock f = Ok (df, out) ->
  (exists v, load_messages fs f = Ok v /\ falsy v) /\ df = [] /\ out = [].
Proof.
  intros Hlists Hfile.
  destruct (load_messages fs f) as [v|e] eqn:Hload;
    [|unfold load_file in Hfile; rewrite Hload in Hfile; discriminate].
  destruct (truthy v) eqn:Htruthy.
  - destruct (Hlists f v ltac:(left) Hload Htruthy) as (dicts & ->).
    assert (Hne : dicts <> []) by (intros ->; discriminate Htruthy).
    destruct (load_file_records fs clock f dicts Hload Hne) as [Hr|Hr];
      rewrite Hr in Hfile; discriminate.
  - unfold load_file in Hfile. rewrite Hload in Hfile. cbn in Hfile.
    rewrite Htruthy in Hfile. injection Hfile as <- <-.
    split; [|split; reflexivity]. exists v. split; [reflexivity | apply truthy_false, Htruthy].
Qed.

Lemma load_files_ok_empty fs clock json_files pending trace u pending' trace' :
  record_lists fs json_files ->
  load_files fs clock json_files pending trace = (Ok u, pending', trace') ->
  pending' = pending /\ trace' = trace /\
  forall f, f ∈ json_files -> exists v, load_messages fs f = Ok v /\ falsy v.
Proof.
  revert pending trace. induction json_files as [|f rest IH]; intros pending trace Hlists Hrun.
  - cbn in Hrun. injection Hrun as _ <- <-.
    split; [reflexivity|]. split; [reflexivity|]. intros f Hf. inversion Hf.
  - cbn [load_files] in Hrun.
    destruct (load_file fs clock f) as [[df out]|e] eqn:Hf; [|discriminate].
    destruct (load_file_ok_empty fs clock f df out) as (Hv & -> & ->); [|exact Hf|].
    { intros g v Hg. apply list_elem_of_singleton in Hg as ->. apply Hlists. left. }
    rewrite !app_nil_r in Hrun.
    destruct (IH pending trace) as (-> & -> & Hall); [|exact Hrun|].
    { intros g v Hg. apply Hlists. right. exact Hg. }
    split; [reflexivity|]. split; [reflexivity|].
    intros g Hg. apply elem_of_cons in Hg as [->|Hg]; [exact Hv | apply Hall, Hg].
Qed.

End Records.

(** X18: no record reaches the table.  When a run of the loader ends
    normally over partition files that hold lists of records, every
    discovered file held an empty list, or another value that counts as
    empty, and the rows of the table are those that were there: the run
    found no file and left the database as it was, or it created schema
    and table, inserted nothing and committed. *)
Theorem successful_load_inserts_nothing `{Pandas} (database_url : option pystr)
    (data_lake_path : Path) (fs : list (Path * pystr)) (clock : Path -> Z)
    (db db' : database) (trace : list event) :
  main database_url data_lake_path fs clock db = (Ok tt, db', trace) ->
  let json_files := collect_json_files fs (div data_lake_path (str "telegram_messages")) in
  record_lists fs json_files ->
  rows db' = rows db /\
  (forall f, f ∈ json_files -> exists v, load_messages fs f = Ok v /\ falsy v) /\
  (json_files = [] -> db' = db /\ trace = [Printed no_files_text]) /\
  (json_files <> [] ->
   db' = {| schema_exists := true; table_exists := true; rows := rows db |} /\
   trace = [Connected; Executed create_schema; CreatedAll; Committed]).
Proof.
  unfold main. destruct database_url as [[|c url]|]; [discriminate| |discriminate].
  cbn zeta. set (json_files := collect_json_files fs _).
  unfold load_discovered. destruct json_files as [|f rest] eqn:Hfiles.
  - intros [= <- <-] _. split; [reflexivity|]. split; [intros f Hf; inversion Hf|].
    split; [auto | congruence].
  - destruct (load_files fs clock (f :: rest) [] _) as [[[u|e] pending] trace'] eqn:Hrun;
      [|discriminate].
    intros [= <- <-] Hlists.
    destruct (load_files_ok_empty _ _ _ _ _ _ _ _ Hlists Hrun) as (-> & -> & Hall).
    cbn [rows]. rewrite app_nil_r.
    split; [reflexivity|]. split; [exact Hall|]. split; [discriminate|].
    intros _. split; reflexivity.
Qed.

(** X19: one partition file that holds a record, wherever the walk
    reports it, makes the run of the loader fail: [main] raises, the
    transaction is rolled back, and the database is what it was before
    the run. *)
Theorem one_record_aborts_the_load `{Pandas} (url : pystr) (data_lake_path : Path)
    (fs : list (Path * pystr)) (clock : Path -> Z) (db : database) (f : Path)
    (dicts : list (list (pystr * json))) :
  url <> [] ->
  f ∈ collect_json_files fs (div data_lake_path (str "telegram_messages")) ->
  load_messages fs f = Ok (JArr (map JObj dicts)) -> dicts <> [] ->
  exists e trace,
    main (Some url) data_lake_path fs clock db = (Raise e, db, trace ++ [RolledBack]).
Proof.
  intros Hurl Hin Hload Hne.
  apply (failing_file_rolls_back url data_lake_path fs clock db f Hurl Hin).
  destruct (load_file_records fs clock f dicts Hload Hne) as [-> | ->]; reflexivity.
Qed.

(** *** From the scraper's flush to the loader's discovery *)

Lemma rglob_json_all (texts : list (Path * pystr)) (base : Path) :
  Forall (fun f => is_under base (fst f) && negb (path_eqb (fst f) base)
                   && endswith (str ".json") (name (fst f)) = true) texts ->
  rglob_json texts base = map fst texts.
Proof.
  unfold rglob_json. induction 1 as [|f texts Hf _ IH]; [reflexivity|].
  rewrite filter_cons_True by (rewrite Hf; exact I). cbn [map]. rewrite IH. reflexivity.
Qed.

(** The columns of a frame are the keys of its records. *)
Lemma fold_set_column_keeps keys names k :
  k ∈ names -> k ∈ fold_left (fun names key => set_column key names) keys names.
Proof.
  revert names. induction keys as [|key keys IH]; intros names Hk; [exact Hk|].
  cbn [fold_left]. apply IH. unfold set_column. case_bool_decide; [exact Hk|].
  apply elem_of_app. left. exact Hk.
Qed.

Lemma fold_set_column_adds keys names k :
  k ∈ keys -> k ∈ fold_left (fun names key => set_column key names) keys names.
Proof.
  revert names. induction keys as [|key keys IH]; intros names Hk; [inversion Hk|].
  cbn [fold_left]. apply elem_of_cons in Hk as [->|Hk]; [|apply IH, Hk].
  apply fold_set_column_keeps. unfold set_column. case_bool_decide; [assumption|].
  apply elem_of_app. right. left.
Qed.

Lemma normalize_records_asdict now r rs :
  exists df,
    normalize_records now (map fields (r :: rs)) = Ok df /\
    raw_json_column df = map fields (r :: rs) /\ loaded_at_column df = now.
Proof.
  unfold normalize_records. rewrite bool_decide_eq_true_2.
  - eexists. split; [reflexivity|]. split; reflexivity.
  - apply fold_set_column_adds. cbn [map flat_map]. apply elem_of_app. left.
    destruct r as [mid chan date text media img vw fw]. cbn.
    do 2 apply list_elem_of_further. apply list_elem_of_here.
Qed.

Lemma as_records_asdict rs : as_records (JArr (map asdict rs)) = Some (map fields rs).
Proof.
  rewrite <- as_records_objects. f_equal. f_equal. rewrite map_map. reflexivity.
Qed.

Section Handover.
Context `{UnicodeDB} `{DirectoryOrder} `{Pandas}.
Variables (client : TelegramClient) (raw_path images_path : Path).
Variables (limit : option nat) (since until : option datetime).

Lemma write_file_fresh fs p text :
  read_file fs p = None -> write_file fs p text ≡ₚ (p, text) :: fs.
Proof.
  intros Hr. unfold write_file. rewrite Hr.
  rewrite <- Permutation_middle, take_drop. reflexivity.
Qed.

Lemma flushed_fresh buckets fs :
  NoDup (map fst buckets) ->
  (forall k, k ∈ map fst buckets -> read_file fs k = None) ->
  flushed buckets fs
  ≡ₚ fs ++ map (fun b => (fst b, Partitions.partition_text (snd b))) buckets.
Proof.
  revert fs. induction buckets as [|[k rs] rest IH]; intros fs Hnd Hfresh.
  - cbn. rewrite app_nil_r. reflexivity.
  - cbn [map fst] in Hnd. apply NoDup_cons in Hnd as [Hk Hnd].
    rewrite Partitions.flushed_cons. cbn [fst snd map].
    rewrite IH; [|exact Hnd|].
    + rewrite write_file_fresh by (apply Hfresh; left).
      cbn [app]. apply Permutation_middle.
    + intros k' Hk'. rewrite read_write_other; [apply Hfresh; right; exact Hk'|].
      intros ->. exact (Hk Hk').
Qed.

(** X21: after a channel has been scraped to the end onto a lake without
    files, the loader discovers the partition files that the flush
    wrote, each once and no other, in the order in which the file
    system reports them; each of them parses to the dictionaries of the
    records of its bucket, is not taken for empty, and frames into one
    row per record, whose [raw_json] is the dictionary; the insert of
    the frame then raises, so that the file does not load. *)
Theorem scraped_files_are_discovered (channel : pystr) (d d' : disk) (clock : Path -> Z) :
  scrape_channel client channel raw_path images_path limit since until d = (Ok tt, d') ->
  files d = [] ->
  exists st imgs,
    scrape_loop client channel raw_path (div images_path (slugify channel)) since until
      limit (history client channel)
      {| records_by_day := []; downloaded := images d |} = (Ok st, imgs) /\
    collect_json_files (files d') (div raw_path (str "telegram_messages"))
    ≡ₚ map fst (records_by_day st) /\
    forall p rs, (p, rs) ∈ records_by_day st ->
      load_messages (files d') p = Ok (JArr (map asdict rs)) /\
      truthy (JArr (map asdict rs)) = true /\
      (exists df,
         normalize_records (clock p) (map fields rs) = Ok df /\
         raw_json_column df = map fields rs) /\
      is_ok (load_file (files d') clock p) = false.
Proof.
  intros Hrun Hempty.
  destruct (scrape_channel_written client raw_path images_path limit since until
              channel d d' Hrun) as (st & imgs & Hloop & Hfiles & _).
  exists st, imgs. split; [exact Hloop|].
  destruct (Partitions.scrape_loop_grouping client channel raw_path _ since until
              limit _ _ st imgs Hloop) as (Hnd & Hgroup & _).
  destruct (scrape_loop_records client channel raw_path _ since until limit _ _ st imgs Hloop)
    as (Hfrom & _ & _).
  assert (Hperm : files d' ≡ₚ map (fun b => (fst b, Partitions.partition_text (snd b)))
                               (records_by_day st)).
  { rewrite Hfiles, Hempty. rewrite flushed_fresh; [reflexivity | exact Hnd | reflexivity]. }
  split.
  - unfold collect_json_files. rewrite rglob_json_all.
    + rewrite Hperm, map_map. reflexivity.
    + apply (Permutation_Forall (Permutation_sym Hperm)).
      apply Forall_forall. intros [q text] Hq. cbn [fst].
      apply list_elem_of_fmap in Hq as ([p rs] & [= -> ->] & Hin).
      cbn [fst snd] in *.
      pose proof (proj1 (Hgroup p rs) Hin) as [Hne _].
      destruct rs as [|r rs]; [congruence|].
      destruct (Hfrom p r) as [Hold|(m & dt & _ & _ & _ & -> & _)].
      { unfold bucketed. apply list_elem_of_In, in_flat_map. exists (p, r :: rs).
        split; [apply list_elem_of_In, Hin | left; reflexivity]. }
      { inversion Hold. }
      rewrite PartitionKeys.get_partition_path_components.
      rewrite (PartitionKeys.div_name raw_path) by discriminate.
      change (raw_path ++ [str "telegram_messages"; date_isoformat dt;
                           slugify channel ++ str ".json"])
        with (raw_path ++ [str "telegram_messages"]
              ++ [date_isoformat dt] ++ [slugify channel ++ str ".json"]).
      rewrite (app_assoc raw_path). apply Enrichment.file_below_root.
  - intros p rs Hin.
    pose proof (proj1 (Hgroup p rs) Hin) as [Hne _].
    assert (Hload : load_messages (files d') p = Ok (JArr (map asdict rs))).
    { unfold load_messages. rewrite Hfiles, (Partitions.flushed_read _ _ p rs Hnd Hin).
      unfold Partitions.partition_text.
      rewrite json_loads_dumps by apply payload_encodable. reflexivity. }
    destruct rs as [|r rs]; [congruence|].
    destruct (normalize_records_asdict (clock p) r rs) as (df & Hframe & Hraw & _).
    split; [exact Hload|]. split; [reflexivity|]. split; [exists df; split; assumption|].
    unfold load_file. rewrite Hload. cbn [mbind res_bind].
    change (truthy (JArr (map asdict (r :: rs)))) with true. cbn [negb].
    rewrite as_records_asdict, Hframe. cbn [mbind res_bind].
    rewrite (to_sql_raises (clock p) (map fields (r :: rs)) df); [reflexivity | discriminate |].
    exact Hframe.
Qed.

End Handover.

(** *** Three lakes *)

(** A lake whose partition files hold no record. *)
Definition null_file : Path :=
  div (div (div lake (str "telegram_messages")) (str "2024-01-16")) (str "chemed.json").

Definition lake_without_records : list (Path * pystr) :=
  [ (empty_file, str "[]"); (null_file, str "null") ].

Definition quiet_run : res unit * database * list event :=
  @main refusing (Some postgres_url) lake lake_without_records noon empty_db.

Lemma quiet_run_ok : fst (fst quiet_run) = Ok tt.
Proof. vm_compute. reflexivity. Qed.

Lemma lake_without_records_lists :
  record_lists lake_without_records
    (collect_json_files lake_without_records (div lake (str "telegram_messages"))).
Proof.
  intros f v Hf. change (collect_json_files _ _) with [empty_file; null_file] in Hf.
  apply elem_of_cons in Hf as [->|Hf]; [vm_compute; intros [= <-]; discriminate|].
  apply list_elem_of_singleton in Hf as ->. vm_compute. intros [= <-]. discriminate.
Qed.

Lemma successful_load_inserts_nothing_witness :
  exists db' trace,
    quiet_run = (Ok tt, db', trace) /\
    rows db' = rows empty_db /\
    (forall f, f ∈ collect_json_files lake_without_records (div lake (str "telegram_messages")) ->
       exists v, load_messages lake_without_records f = Ok v /\ falsy v).
Proof.
  pose proof quiet_run_ok as Hok.
  destruct quiet_run as [[r db'] trace] eqn:Hrun. cbn [fst] in Hok. subst r.
  exists db', trace. split; [reflexivity|].
  destruct (@successful_load_inserts_nothing refusing (Some postgres_url) lake
              lake_without_records noon empty_db db' trace Hrun lake_without_records_lists)
    as (Hrows & Hall & _).
  split; assumption.
Defined.

Lemma good_file_discovered :
  good_file ∈ collect_json_files broken_lake (div lake (str "telegram_messages")).
Proof. apply (bool_decide_unpack _). vm_compute. exact I. Qed.

Lemma good_file_parses :
  load_messages broken_lake good_file = Ok (JArr (map JObj [fields good_record])).
Proof. vm_compute. reflexivity. Qed.

Lemma one_record_aborts_the_load_witness :
  exists e trace,
    @main refusing (Some postgres_url) lake broken_lake noon empty_db
    = (Raise e, empty_db, trace ++ [RolledBack]).
Proof.
  apply (@one_record_aborts_the_load refusing postgres_url lake broken_lake noon empty_db
           good_file [fields good_record] postgres_url_set good_file_discovered
           good_file_parses).
  discriminate.
Defined.

(** A lake where a partition file holds [null]. *)
Definition lake_with_null_file : list (Path * pystr) :=
  [ (good_file, partition_dump [good_record]); (empty_file, str "null") ].

Lemma null_file_parses : load_messages lake_with_null_file empty_file = Ok JNull.
Proof. vm_compute. reflexivity. Qed.

Lemma falsy_payload_is_skipped_witness :
  @load_file refusing lake_with_null_file noon empty_file = Ok ([], []) /\
  @load_files refusing lake_with_null_file noon ([] ++ empty_file :: [good_file]) [] []
  = @load_files refusing lake_with_null_file noon ([] ++ [good_file]) [] [].
Proof.
  exact (@falsy_payload_is_skipped refusing lake_with_null_file noon [] [good_file] empty_file
           JNull [] [] null_file_parses (or_introl eq_refl)).
Defined.

Lemma chemed_lake_empty : files empty_disk = [].
Proof. reflexivity. Qed.

Lemma scraped_files_are_discovered_witness :
  exists d' st imgs,
    Partitions.chemed_channel = (Ok tt, d') /\
    chemed_run = (Ok st, imgs) /\
    collect_json_files (files d') (div lake (str "telegram_messages"))
    ≡ₚ map fst (records_by_day st).
Proof.
  pose proof Partitions.chemed_channel_ok as Hok.
  destruct Partitions.chemed_channel as [r d'] eqn:Hrun. cbn [fst] in Hok. subst r.
  destruct (@scraped_files_are_discovered dotted_I_fragment newest_first refusing
              january_client lake image_root
              None (Some january_first) (Some january_last) (str "chemed") empty_disk d'
              noon Hrun chemed_lake_empty) as (st & imgs & Hloop & Hfound & _).
  exists d', st, imgs. split; [reflexivity|]. split; [exact Hloop | exact Hfound].
Defined.

End Warehouse.

(** ** A partition file cut short *)

Module Truncation.

Import Json Scraper Loader.

(** [s] is the text [t] cut short: a prefix of [t], not all of it. *)
Definition cut_short (s t : pystr) : Prop := exists u, t = s ++ u /\ u <> [].

Lemma cut_nil s : ~ cut_short s [].
Proof. intros (u & Hu & Hne). symmetry in Hu. apply app_eq_nil in Hu as [_ ->]. congruence. Qed.

Lemma cut_cons s c t :
  cut_short s (c :: t) -> s = [] \/ exists s', s = c :: s' /\ cut_short s' t.
Proof.
  intros (u & Hu & Hne). destruct s as [|c' s']; [left; reflexivity|].
  right. cbn [app] in Hu. injection Hu as <- Ht. exists s'. split; [reflexivity|].
  exists u. split; assumption.
Qed.

Lemma cut_app s a b :
  cut_short s (a ++ b) -> cut_short s a \/ exists s', s = a ++ s' /\ cut_short s' b.
Proof.
  revert s. induction a as [|c a IH]; intros s Hcut.
  - right. exists s. split; [reflexivity | exact Hcut].
  - cbn [app] in Hcut. apply cut_cons in Hcut as [->|(s' & -> & Hcut)].
    + left. exists (c :: a). split; [reflexivity | discriminate].
    + destruct (IH s' Hcut) as [(u & -> & Hne)|(s'' & -> & Hcut')].
      * left. exists u. split; [reflexivity | exact Hne].
      * right. exists s''. split; [reflexivity | exact Hcut'].
Qed.

Lemma cut_length s t : cut_short s t -> length s < length t.
Proof.
  intros (u & -> & Hne). rewrite length_app. destruct u; [congruence | cbn; lia].
Qed.

(** *** White space *)

Lemma skip_ws_spaces n s u : repeat 32%N n = s ++ u -> skip_ws s = [].
Proof.
  revert s. induction n as [|n IH]; intros s Hs.
  - symmetry in Hs. apply app_eq_nil in Hs as [-> _]. reflexivity.
  - destruct s as [|c s]; [reflexivity|]. cbn [repeat app] in Hs. injection Hs as <- Hs.
    cbn [skip_ws]. change (is_ws 32%N) with true. cbv iota. apply (IH _ Hs).
Qed.

Lemma skip_ws_indent level s u : newline_indent level = s ++ u -> skip_ws s = [].
Proof.
  unfold newline_indent. destruct s as [|c s]; [reflexivity|].
  cbn [app]. intros [= <- Hs]. cbn [skip_ws]. change (is_ws 10%N) with true. cbv iota.
  apply (skip_ws_spaces _ _ _ Hs).
Qed.

(** A text cut within the line break or right after it scans to nothing;
    cut later, it scans as what follows the break. *)
Lemma cut_after_indent level s rest :
  cut_short s (newline_indent level ++ rest) ->
  skip_ws s = [] \/ exists s', skip_ws s = skip_ws s' /\ cut_short s' rest
                               /\ length s' < length s.
Proof.
  intros Hcut. apply cut_app in Hcut as [(u & Hu & _)|(s' & -> & Hcut)].
  - left. apply (skip_ws_indent _ _ _ Hu).
  - right. exists s'. rewrite skip_ws_newline_indent. split; [reflexivity|].
    split; [exact Hcut|]. rewrite length_app. pose proof (length_newline_indent level). lia.
Qed.

Lemma scan_once_nil fuel : scan_once fuel [] = None.
Proof. destruct fuel; reflexivity. Qed.

Lemma parse_items_nil fuel acc : parse_items fuel [] acc = None.
Proof. destruct fuel; [reflexivity|]. cbn [parse_items]. rewrite scan_once_nil. reflexivity. Qed.

Lemma parse_members_nil fuel acc : parse_members fuel [] acc = None.
Proof. destruct fuel; reflexivity. Qed.

(** *** Strings *)

Lemma escape_char_cut c s : cut_short s (escape_char c) -> scanstring s = None.
Proof.
  unfold escape_char. intros Hcut.
  repeat match type of Hcut with
  | cut_short _ (if ?b then _ else _) => destruct b
  end;
  repeat (apply cut_cons in Hcut as [->|(? & -> & Hcut)]; [reflexivity|]);
  exfalso; exact (cut_nil _ Hcut).
Qed.

Lemma scanstring_cut k s u : flat_map escape_char k = s ++ u -> scanstring s = None.
Proof.
  revert s u. induction k as [|c k IH]; intros s u Hs.
  - symmetry in Hs. apply app_eq_nil in Hs as [-> _]. reflexivity.
  - cbn [flat_map] in Hs. destruct u as [|d u].
    + rewrite app_nil_r in Hs. subst s.
      rewrite scanstring_escape_char, (IH (flat_map escape_char k) []); [reflexivity|].
      rewrite app_nil_r. reflexivity.
    + assert (Hcut : cut_short s (escape_char c ++ flat_map escape_char k))
        by (exists (d :: u); split; [exact Hs | discriminate]).
      apply cut_app in Hcut as [Hcut|(s' & -> & (u' & Hu' & _))].
      * exact (escape_char_cut c s Hcut).
      * rewrite scanstring_escape_char, (IH s' u' Hu'). reflexivity.
Qed.

Lemma basestring_cut k s :
  cut_short s (encode_basestring k) ->
  s = [] \/ exists s', s = quote :: s' /\ scanstring s' = None.
Proof.
  unfold encode_basestring. intros Hcut.
  apply cut_cons in Hcut as [->|(s' & -> & Hcut)]; [left; reflexivity|].
  right. exists s'. split; [reflexivity|].
  apply cut_app in Hcut as [(u & Hu & _)|(s'' & -> & Hcut)].
  - apply (scanstring_cut k s' u Hu).
  - apply cut_cons in Hcut as [->|(s3 & -> & Hcut)]; [|exfalso; exact (cut_nil _ Hcut)].
    rewrite app_nil_r. apply (scanstring_cut k _ []). rewrite app_nil_r. reflexivity.
Qed.

(** *** Numbers *)

Lemma scan_digits_all ds : Forall is_digit ds -> scan_digits ds = (ds, []).
Proof.
  intros Hds. rewrite <- (app_nil_r ds) at 1. apply scan_digits_app; [exact Hds | exact I].
Qed.

Lemma match_number_digits c ds :
  is_digit c -> Forall is_digit ds -> (c = 48%N -> ds = []) ->
  (exists v, match_number (c :: ds) = Some (v, [])) /\
  (exists v, match_number (45%N :: c :: ds) = Some (v, [])).
Proof.
  intros Hc Hds Hzero. pose proof Hc as Hr. apply is_digit_range in Hr.
  assert (Hint : exists ip, scan_int_part (c :: ds) = Some (ip, [])).
  { unfold scan_int_part. destruct (N.leb_spec 49 c); cbn [andb].
    - destruct (N.leb_spec c 57); [|lia]. rewrite (scan_digits_all ds Hds). eauto.
    - assert (c = 48%N) by lia. subst c. rewrite (Hzero eq_refl). cbn. eauto. }
  destruct Hint as (ip & Hint). split.
  - unfold match_number. destruct (N.eqb_spec c 45); [lia|]. rewrite Hint. cbn. eauto.
  - unfold match_number. rewrite N.eqb_refl, Hint. cbn. eauto.
Qed.

Lemma decimal_digits_cut n s u :
  decimal_digits n = s ++ u ->
  s = [] \/ exists c ds, s = c :: ds /\ is_digit c /\ Forall is_digit ds /\ (c = 48%N -> ds = []).
Proof.
  intros Hs. destruct (decimal_digits_spec n) as (Hall & _ & c & r & Hcr & Hzero & Hpos).
  rewrite Hs in Hall. apply Forall_app in Hall as [Hall _].
  destruct s as [|c' ds]; [left; reflexivity|]. right.
  rewrite Hcr in Hs. cbn [app] in Hs. injection Hs as <- Hr.
  apply Forall_cons in Hall as [Hc Hds].
  exists c, ds. split; [reflexivity|]. split; [exact Hc|]. split; [exact Hds|].
  intros ->. destruct (N.eq_dec n 0%N) as [Hn|Hn].
  - destruct (Hzero Hn) as [_ ->]. symmetry in Hr. apply app_eq_nil in Hr as [-> _]. reflexivity.
  - assert (49 <= 48 <= 57)%N by (apply Hpos; lia). lia.
Qed.

Lemma encode_int_cut z fuel s u :
  encode_int z = s ++ u ->
  scan_once fuel s = None \/ exists v, scan_once fuel s = Some (v, []).
Proof.
  intros Hs. destruct fuel as [|fuel]; [left; reflexivity|].
  unfold encode_int in Hs. destruct (z <? 0)%Z.
  - destruct s as [|m s']; [left; reflexivity|]. cbn [app] in Hs. injection Hs as <- Hs.
    apply decimal_digits_cut in Hs as [->|(c & ds & -> & Hc & Hds & Hzero)];
      [left; reflexivity|].
    right. destruct (match_number_digits c ds Hc Hds Hzero) as [_ (v & Hv)].
    exists v. rewrite <- Hv, <- (scan_literal_minus_digit c ds Hc).
    apply scan_once_other; discriminate.
  - apply decimal_digits_cut in Hs as [->|(c & ds & -> & Hc & Hds & Hzero)];
      [left; reflexivity|].
    right. destruct (match_number_digits c ds Hc Hds Hzero) as [(v & Hv) _].
    exists v. rewrite <- Hv, <- (scan_literal_digit c ds Hc).
    apply is_digit_range in Hc. apply scan_once_other; unfold quote; lia.
Qed.

(** *** Values *)

(** What the scanner makes of the encoding of [v] cut short: nothing,
    or, when [v] is an integer, a number that takes all the text. *)
Definition cuts (v : json) : Prop :=
  forall level fuel s,
    encodable v = true -> cut_short s (encode level v) -> 2 * length s < fuel ->
    match scan_once fuel s with
    | None => True
    | Some (_, r) => r = [] /\ exists n, v = JInt n
    end.

Lemma literal_cut fuel s text :
  text = str "null" \/ text = str "true" \/ text = str "false"
  \/ text = str "[]" \/ text = str "{}" ->
  cut_short s text -> scan_once fuel s = None.
Proof.
  intros Htext Hcut. destruct fuel as [|fuel]; [reflexivity|].
  destruct Htext as [->|[->|[->|[->| ->]]]];
    repeat (apply cut_cons in Hcut as [->|(? & -> & Hcut)]; [reflexivity|]);
    exfalso; exact (cut_nil _ Hcut).
Qed.

(** After a complete value, a text cut within the closing of its
    container scans to nothing. *)
Lemma closing_cut level (close : char) s :
  cut_short s (newline_indent level ++ [close]) -> skip_ws s = [].
Proof.
  intros Hcut. apply cut_after_indent in Hcut as [Hs|(s' & Hs & Hcut & _)]; [exact Hs|].
  apply cut_cons in Hcut as [->|(s3 & -> & Hcut)]; [exact Hs|]. exfalso. exact (cut_nil _ Hcut).
Qed.

Lemma cut_delimited s c t : cut_short s (c :: t) -> c = 44%N \/ c = 10%N -> delimited s.
Proof.
  intros Hcut Hc. apply cut_cons in Hcut as [->|(s' & -> & _)]; [exact I | exact Hc].
Qed.

Lemma items_cut level xs :
  Forall cuts xs -> forallb encodable xs = true ->
  forall x acc fuel s,
    cuts x -> encodable x = true ->
    cut_short s (encode (S level) x ++ flat_map (item_text (S level)) xs
                 ++ newline_indent level ++ str "]") ->
    2 * length s + 1 < fuel ->
    parse_items fuel s acc = None.
Proof.
  induction 1 as [|y ys Hy _ IH]; intros Hall x acc fuel s Hx Hex Hcut Hfuel;
    (destruct fuel as [|fuel]; [reflexivity|]); cbn [parse_items].
  - cbn [flat_map app] in Hcut. apply cut_app in Hcut as [Hcut|(s' & -> & Hcut)].
    + specialize (Hx (S level) fuel s Hex Hcut ltac:(lia)).
      destruct (scan_once fuel s) as [[v r]|]; [|reflexivity].
      destruct Hx as [-> _]. reflexivity.
    + rewrite length_app in Hfuel. pose proof (weight_le_length x (S level) Hex).
      rewrite (scan_once_encode x (S level) fuel s' Hex); [| |lia].
      * rewrite (closing_cut level 93%N s' Hcut). reflexivity.
      * unfold newline_indent in Hcut. cbn [app] in Hcut.
        apply (cut_delimited _ _ _ Hcut). right. reflexivity.
  - cbn [forallb] in Hall. apply andb_true_iff in Hall as [Hey Hall].
    cbn [flat_map] in Hcut. unfold item_text at 1 in Hcut. rewrite <- !app_assoc in Hcut.
    apply cut_app in Hcut as [Hcut|(s' & -> & Hcut)].
    + specialize (Hx (S level) fuel s Hex Hcut ltac:(lia)).
      destruct (scan_once fuel s) as [[v r]|]; [|reflexivity].
      destruct Hx as [-> _]. reflexivity.
    + rewrite length_app in Hfuel. pose proof (weight_le_length x (S level) Hex).
      change (str "," ++ ?z) with (44%N :: z) in Hcut.
      rewrite (scan_once_encode x (S level) fuel s' Hex);
        [|apply (cut_delimited _ _ _ Hcut); left; reflexivity|lia].
      apply cut_cons in Hcut as [->|(s1 & -> & Hcut)]; [reflexivity|].
      rewrite (skip_ws_head 44%N) by reflexivity.
      change (44 =? 93)%N with false. change (44 =? 44)%N with true. cbv iota.
      cbn [length] in Hfuel.
      apply cut_after_indent in Hcut as [->|(s2 & -> & Hcut & Hlen)];
        [apply parse_items_nil|].
      destruct (encode_head (S level) y Hey) as (c & r & Hcr & Hws & _).
      assert (Hs2 : s2 = [] \/ skip_ws s2 = s2).
      { rewrite Hcr in Hcut. cbn [app] in Hcut.
        apply cut_cons in Hcut as [->|(s3 & -> & _)]; [left; reflexivity|].
        right. apply skip_ws_head, Hws. }
      destruct Hs2 as [->| ->]; [apply parse_items_nil|].
      apply (IH Hall y (acc ++ [x]) fuel s2 Hy Hey Hcut). lia.
Qed.

Lemma members_cut level ms :
  Forall (fun m => cuts (snd m)) ms ->
  forallb (fun m => encodable (snd m)) ms = true ->
  forall m acc fuel s,
    cuts (snd m) -> encodable (snd m) = true ->
    cut_short s (encode_basestring (fst m) ++ str ": " ++ encode (S level) (snd m)
                 ++ flat_map (member_text (S level)) ms
                 ++ newline_indent level ++ str "}") ->
    2 * length s + 1 < fuel ->
    parse_members fuel s acc = None.
Proof.
  induction 1 as [|m' ms' Hm' _ IH]; intros Hall [k v] acc fuel s Hv Hev Hcut Hfuel;
    cbn [fst snd] in *; (destruct fuel as [|fuel]; [reflexivity|]).
  - cbn [flat_map app] in Hcut.
    apply cut_app in Hcut as [Hcut|(s1 & -> & Hcut)].
    { apply basestring_cut in Hcut as [->|(s' & -> & Hs')]; [reflexivity|].
      cbn [parse_members]. rewrite N.eqb_refl, Hs'. reflexivity. }
    unfold encode_basestring. cbn [app parse_members]. rewrite N.eqb_refl.
    rewrite <- app_assoc. cbn [app]. rewrite scanstring_encode.
    rewrite length_app in Hfuel.
    change (str ": " ++ ?z) with (58%N :: 32%N :: z) in Hcut.
    apply cut_cons in Hcut as [->|(s2 & -> & Hcut)]; [reflexivity|].
    rewrite (skip_ws_head 58%N) by reflexivity.
    change (58 =? 58)%N with true. cbv iota.
    apply cut_cons in Hcut as [->|(s3 & -> & Hcut)]; [cbn [skip_ws]; rewrite scan_once_nil; reflexivity|].
    change (skip_ws (32%N :: s3)) with (skip_ws s3). cbn [length] in Hfuel.
    destruct (encode_head (S level) v Hev) as (c & r & Hcr & Hws & _).
    assert (Hs3 : s3 = [] \/ skip_ws s3 = s3).
    { rewrite Hcr in Hcut. cbn [app] in Hcut.
      apply cut_cons in Hcut as [->|(s4 & -> & _)]; [left; reflexivity|].
      right. apply skip_ws_head, Hws. }
    destruct Hs3 as [->| ->]; [cbn [skip_ws]; rewrite scan_once_nil; reflexivity|].
    apply cut_app in Hcut as [Hcut|(s4 & -> & Hcut)].
    + specialize (Hv (S level) fuel s3 Hev Hcut ltac:(lia)).
      destruct (scan_once fuel s3) as [[v' r']|]; [|reflexivity].
      destruct Hv as [-> _]. reflexivity.
    + rewrite length_app in Hfuel. pose proof (weight_le_length v (S level) Hev).
      rewrite (scan_once_encode v (S level) fuel s4 Hev); [| |lia].
      * rewrite (closing_cut level 125%N s4 Hcut). reflexivity.
      * unfold newline_indent in Hcut. cbn [app] in Hcut.
        apply (cut_delimited _ _ _ Hcut). right. reflexivity.
  - cbn [forallb] in Hall. apply andb_true_iff in Hall as [Hem' Hall].
    cbn [flat_map] in Hcut. unfold member_text at 1 in Hcut. rewrite <- !app_assoc in Hcut.
    apply cut_app in Hcut as [Hcut|(s1 & -> & Hcut)].
    { apply basestring_cut in Hcut as [->|(s' & -> & Hs')]; [reflexivity|].
      cbn [parse_members]. rewrite N.eqb_refl, Hs'. reflexivity. }
    unfold encode_basestring at 1. cbn [app parse_members]. rewrite N.eqb_refl.
    rewrite <- app_assoc. cbn [app]. rewrite scanstring_encode.
    rewrite length_app in Hfuel.
    change (str ": " ++ ?z) with (58%N :: 32%N :: z) in Hcut.
    apply cut_cons in Hcut as [->|(s2 & -> & Hcut)]; [reflexivity|].
    rewrite (skip_ws_head 58%N) by reflexivity.
    change (58 =? 58)%N with true. cbv iota.
    apply cut_cons in Hcut as [->|(s3 & -> & Hcut)]; [cbn [skip_ws]; rewrite scan_once_nil; reflexivity|].
    change (skip_ws (32%N :: s3)) with (skip_ws s3). cbn [length] in Hfuel.
    destruct (encode_head (S level) v Hev) as (c & r & Hcr & Hws & _).
    assert (Hs3 : s3 = [] \/ skip_ws s3 = s3).
    { rewrite Hcr in Hcut. cbn [app] in Hcut.
      apply cut_cons in Hcut as [->|(s4 & -> & _)]; [left; reflexivity|].
      right. apply skip_ws_head, Hws. }
    destruct Hs3 as [->| ->]; [cbn [skip_ws]; rewrite scan_once_nil; reflexivity|].
    apply cut_app in Hcut as [Hcut|(s4 & -> & Hcut)].
    + specialize (Hv (S level) fuel s3 Hev Hcut ltac:(lia)).
      destruct (scan_once fuel s3) as [[v' r']|]; [|reflexivity].
      destruct Hv as [-> _]. reflexivity.
    + rewrite length_app in Hfuel. pose proof (weight_le_length v (S level) Hev).
      change (str "," ++ ?z) with (44%N :: z) in Hcut.
      rewrite (scan_once_encode v (S level) fuel s4 Hev);
        [|apply (cut_delimited _ _ _ Hcut); left; reflexivity|lia].
      apply cut_cons in Hcut as [->|(s5 & -> & Hcut)]; [reflexivity|].
      rewrite (skip_ws_head 44%N) by reflexivity.
      change (44 =? 125)%N with false. change (44 =? 44)%N with true. cbv iota.
      cbn [length] in Hfuel.
      apply cut_after_indent in Hcut as [->|(s6 & -> & Hcut & Hlen)];
        [apply parse_members_nil|].
      assert (Hs6 : s6 = [] \/ skip_ws s6 = s6).
      { unfold encode_basestring in Hcut. cbn [app] in Hcut.
        apply cut_cons in Hcut as [->|(s7 & -> & _)]; [left; reflexivity|].
        right. apply skip_ws_head. reflexivity. }
      destruct Hs6 as [->| ->]; [apply parse_members_nil|].
      apply (IH Hall m' (dict_set acc k v) fuel s6 Hm' Hem' Hcut). lia.
Qed.

Lemma encoding_cut v : cuts v.
Proof.
  induction v as [ |b|n|literal|s0|items IH|members IH] using json_induction;
    intros level fuel s He Hcut Hfuel.
  - rewrite (literal_cut fuel s (str "null")); [exact I | auto | exact Hcut].
  - destruct b.
    + rewrite (literal_cut fuel s (str "true")); [exact I | auto | exact Hcut].
    + rewrite (literal_cut fuel s (str "false")); [exact I | auto | exact Hcut].
  - destruct Hcut as (u & Hu & _). cbn [encode] in Hu.
    destruct (encode_int_cut n fuel s u Hu) as [->|(v & ->)]; [exact I|].
    split; [reflexivity | eauto].
  - discriminate He.
  - cbn [encode] in Hcut. apply basestring_cut in Hcut as [->|(s' & -> & Hs')].
    + rewrite scan_once_nil. exact I.
    + destruct fuel as [|fuel]; [exact I|]. cbn [scan_once]. rewrite N.eqb_refl, Hs'. exact I.
  - destruct items as [|x xs].
    { rewrite (literal_cut fuel s (str "[]")); [exact I | auto 6 | exact Hcut]. }
    rewrite encode_array in Hcut.
    cbn [encodable forallb] in He. apply andb_true_iff in He as [Hex Hexs].
    apply Forall_cons in IH as [IHx IHxs].
    change (str "[" ++ ?z) with (91%N :: z) in Hcut.
    apply cut_cons in Hcut as [->|(s1 & -> & Hcut)]; [rewrite scan_once_nil; exact I|].
    destruct fuel as [|fuel]; [exact I|]. cbn [scan_once].
    change (91 =? quote)%N with false. change (91 =? 123)%N with false.
    change (91 =? 91)%N with true. cbv iota. cbn [length] in Hfuel.
    apply cut_after_indent in Hcut as [->|(s2 & -> & Hcut & Hlen)]; [exact I|].
    destruct (encode_head (S level) x Hex) as (c & r & Hcr & Hws & Hc & _).
    assert (Hs2 : s2 = [] \/ exists r2, s2 = c :: r2).
    { rewrite Hcr in Hcut. cbn [app] in Hcut.
      apply cut_cons in Hcut as [->|(s3 & -> & _)]; [left; reflexivity | right; eauto]. }
    destruct Hs2 as [->|(r2 & ->)]; [exact I|].
    rewrite (skip_ws_head c r2 Hws). apply N.eqb_neq in Hc. rewrite Hc.
    rewrite (items_cut level xs IHxs Hexs x [] fuel (c :: r2) IHx Hex Hcut); [exact I | lia].
  - destruct members as [|m ms].
    { rewrite (literal_cut fuel s (str "{}")); [exact I | auto 6 | exact Hcut]. }
    rewrite encode_object in Hcut.
    cbn [encodable forallb map] in He.
    apply andb_true_iff in He as [_ He]. apply andb_true_iff in He as [Hem Hems].
    apply Forall_cons in IH as [IHm IHms].
    change (str "{" ++ ?z) with (123%N :: z) in Hcut.
    apply cut_cons in Hcut as [->|(s1 & -> & Hcut)]; [rewrite scan_once_nil; exact I|].
    destruct fuel as [|fuel]; [exact I|]. cbn [scan_once].
    change (123 =? quote)%N with false. change (123 =? 123)%N with true. cbv iota.
    cbn [length] in Hfuel.
    apply cut_after_indent in Hcut as [->|(s2 & -> & Hcut & Hlen)]; [exact I|].
    assert (Hs2 : s2 = [] \/ exists r2, s2 = quote :: r2).
    { unfold encode_basestring in Hcut. cbn [app] in Hcut.
      apply cut_cons in Hcut as [->|(s3 & -> & _)]; [left; reflexivity | right; eauto]. }
    destruct Hs2 as [->|(r2 & ->)]; [exact I|].
    rewrite (skip_ws_head quote r2) by reflexivity.
    change (quote =? 125)%N with false. cbv iota.
    rewrite (members_cut level ms IHms Hems m [] fuel (quote :: r2) IHm Hem Hcut); [exact I | lia].
Qed.

(** The dump of an array, cut short anywhere, is not JSON. *)
Lemma json_loads_cut items s :
  forallb encodable items = true -> cut_short s (json_dumps (JArr items)) ->
  json_loads s = None.
Proof.
  intros He Hcut. unfold json_loads.
  assert (Hs : skip_ws s = s).
  { unfold json_dumps in Hcut. destruct items as [|x xs].
    - apply cut_cons in Hcut as [->|(s' & -> & _)]; reflexivity.
    - rewrite encode_array in Hcut. change (str "[" ++ ?z) with (91%N :: z) in Hcut.
      apply cut_cons in Hcut as [->|(s' & -> & _)]; reflexivity. }
  rewrite Hs.
  pose proof (encoding_cut (JArr items) 0 (S (2 * length s)) s He Hcut ltac:(lia)) as Hc.
  destruct (scan_once _ s) as [[v r]|]; [|reflexivity].
  destruct Hc as [_ (n & Hn)]. discriminate Hn.
Qed.

(** X22: a partition file that holds only a beginning of what the flush
    writes for its records, the writer having stopped anywhere before
    the end, is not taken for a shorter list of records: reading it
    raises the decoding error, and so does the loop body of the loader
    for that file. *)
Theorem truncated_partition_is_rejected `{Pandas} (fs : list (Path * pystr))
    (clock : Path -> Z) (f : Path) (records : list TelegramMessageRecord) (text : pystr) :
  cut_short text (Partitions.partition_text records) ->
  read_file fs f = Some text ->
  json_loads text = None /\
  load_messages fs f = Raise JSONDecodeError /\
  load_file fs clock f = Raise JSONDecodeError.
Proof.
  intros Hcut Hread.
  assert (Hnone : json_loads text = None).
  { apply (json_loads_cut (map asdict records)); [|exact Hcut].
    pose proof (Pipeline.payload_encodable records) as He. exact He. }
  split; [exact Hnone|]. split.
  - unfold load_messages. rewrite Hread, Hnone. reflexivity.
  - apply (load_file_not_json fs clock f text Hread Hnone).
Qed.

(** *** A file written by half *)

Definition half_written : pystr := take 40 (Partitions.partition_text [Pipeline.good_record]).

Definition half_written_lake : list (Path * pystr) := [(Pipeline.good_file, half_written)].

Lemma half_written_cut : cut_short half_written (Partitions.partition_text [Pipeline.good_record]).
Proof.
  exists (drop 40 (Partitions.partition_text [Pipeline.good_record])).
  split; [symmetry; apply take_drop | vm_compute; discriminate].
Qed.

Lemma truncated_partition_is_rejected_witness :
  json_loads half_written = None /\
  load_messages half_written_lake Pipeline.good_file = Raise JSONDecodeError /\
  @load_file Pipeline.refusing half_written_lake Pipeline.noon Pipeline.good_file
    = Raise JSONDecodeError.
Proof.
  exact (@truncated_partition_is_rejected Pipeline.refusing half_written_lake Pipeline.noon
           Pipeline.good_file [Pipeline.good_record] half_written half_written_cut eq_refl).
Defined.

End Truncation.
